(** * escomplex: the module analyser and the project analyser

    A shallow embedding of [src/module.js] and [src/project.js].

    - Integer counters (cyclomatic complexity, logical lines, Halstead
      totals, parameter counts) are [Z].
    - Derived metrics (quotients, logarithms, percentages) are JavaScript
      numbers, modelled by [JsNumber.number]: the exact reals extended with
      [NaN] and the two infinities.  IEEE rounding and the sign of zero are
      not modelled.
    - Objects that are shared by reference (the function reports, reachable
      from [report.functions], the scope stack and [currentReport]) live in
      one store, the list [functions]; a reference is an index into it.
    - The walker is foreign code: a walk is the sequence of callbacks it
      makes. *)

From Stdlib Require Import ZArith Reals Lra Lia String Ascii List.
From stdpp Require Import base list strings sorting.

Local Open Scope string_scope.
Local Open Scope list_scope.

(* ================================================================== *)
(** * JavaScript numbers *)
(* ================================================================== *)

Module JsNumber.

Inductive number :=
| NaN
| NegInfinity
| Infinity
| Num (r : R).

Definition ofZ (z : Z) : number := Num (IZR z).

Definition Rsign (r : R) : comparison :=
  if Rlt_dec 0 r then Gt else if Rlt_dec r 0 then Lt else Eq.

Definition neg (a : number) : number :=
  match a with
  | NaN => NaN
  | NegInfinity => Infinity
  | Infinity => NegInfinity
  | Num r => Num (- r)
  end.

Definition add (a b : number) : number :=
  match a, b with
  | NaN, _ | _, NaN => NaN
  | Infinity, NegInfinity | NegInfinity, Infinity => NaN
  | Infinity, _ | _, Infinity => Infinity
  | NegInfinity, _ | _, NegInfinity => NegInfinity
  | Num x, Num y => Num (x + y)
  end.

Definition sub (a b : number) : number := add a (neg b).

(** The sign of a product or quotient with an infinite operand. *)
Definition signed (s : comparison) (inf : number) : number :=
  match s with
  | Gt => inf
  | Lt => neg inf
  | Eq => NaN
  end.

Definition mul (a b : number) : number :=
  match a, b with
  | NaN, _ | _, NaN => NaN
  | Num x, Num y => Num (x * y)
  | Num x, inf => signed (Rsign x) inf
  | inf, Num y => signed (Rsign y) inf
  | Infinity, Infinity | NegInfinity, NegInfinity => Infinity
  | Infinity, NegInfinity | NegInfinity, Infinity => NegInfinity
  end.

(** Division; a zero divisor is taken to be [+0]. *)
Definition div (a b : number) : number :=
  match a, b with
  | NaN, _ | _, NaN => NaN
  | Num x, Num y =>
      if Req_dec_T y 0 then signed (Rsign x) Infinity else Num (x / y)
  | Num _, _ => Num 0
  | inf, Num y => if Rlt_dec y 0 then neg inf else inf
  | _, _ => NaN
  end.

(** [Math.log]. *)
Definition log (a : number) : number :=
  match a with
  | NaN | NegInfinity => NaN
  | Infinity => Infinity
  | Num x =>
      match Rsign x with
      | Gt => Num (ln x)
      | Eq => NegInfinity
      | Lt => NaN
      end
  end.

(** [a < b]; any comparison with [NaN] is false. *)
Definition ltb (a b : number) : bool :=
  match a, b with
  | NaN, _ | _, NaN => false
  | _, NegInfinity => false
  | NegInfinity, _ => true
  | Infinity, _ => false
  | Num _, Infinity => true
  | Num x, Num y => if Rlt_dec x y then true else false
  end.

Definition gtb (a b : number) : bool := ltb b a.

(** [a === b] on numbers. *)
Definition eqb (a b : number) : bool :=
  match a, b with
  | NegInfinity, NegInfinity | Infinity, Infinity => true
  | Num x, Num y => if Req_dec_T x y then true else false
  | _, _ => false
  end.

(** [a >= b]. *)
Definition geb (a b : number) : bool := gtb a b || eqb a b.

(** [Math.max(a, b)]. *)
Definition max (a b : number) : number :=
  match a, b with
  | NaN, _ | _, NaN => NaN
  | _, _ => if ltb a b then b else a
  end.

End JsNumber.

Import JsNumber.

(* ================================================================== *)
(** * module.js *)
(* ================================================================== *)

Module EsModule.

(** ** Data model *)

Record HalsteadItemState := {
  distinct : Z;
  identifiers : list string;
  total : Z
}.

(** The scalars [calculateHalsteadMetrics] adds to a Halstead record. *)
Record HalsteadMetrics := {
  h_length : Z;
  vocabulary : Z;
  difficulty : number;
  volume : number;
  effort : number;
  bugs : number;
  time : number
}.

(** [metrics = None]: the derived fields are still absent. *)
Record Halstead := {
  operands : HalsteadItemState;
  operators : HalsteadItemState;
  metrics : option HalsteadMetrics
}.

Record Loc := { start_line : Z; end_line : Z }.

Record Sloc := { logical : Z; physical : option Z }.

Record FunctionReport := {
  cyclomatic : Z;
  halstead : Halstead;
  name : option string;
  params : Z;
  sloc : Sloc;
  line : option Z;
  cyclomaticDensity : option number
}.

Record Dependency := {
  dep_type : string;
  dep_path : string;
  dep_line : option Z
}.

(** The module report.  [functions] is also the store of the function
    report objects: [currentReport] and the scope stack refer to them by
    index.  The five averages and [maintainability] are absent until
    [calculateMetrics] has run; [path] is set by the project analyser
    (the empty string stands for the absent field). *)
Record ModuleReport := {
  aggregate : FunctionReport;
  dependencies : list Dependency;
  functions : list FunctionReport;
  maintainability : option number;
  report_loc : option number;
  report_cyclomatic : option number;
  report_effort : option number;
  report_params : option number;
  path : string
}.

Record Settings := {
  forin : bool;
  logicalor : bool;
  newmi : bool;
  switchcase : bool;
  trycatch : bool
}.

Definition defaultSettings : Settings :=
  {| forin := false; logicalor := true; newmi := false;
     switchcase := true; trycatch := false |}.

Inductive Error := Err (message : string).

Inductive Metric := Operators | Operands.

Inductive HalsteadField := Distinct | Total.

(** ** Field updates *)

Definition with_cyclomatic (f : Z -> Z) (r : FunctionReport) : FunctionReport :=
  {| cyclomatic := f (cyclomatic r); halstead := halstead r; name := name r;
     params := params r; sloc := sloc r; line := line r;
     cyclomaticDensity := cyclomaticDensity r |}.

Definition with_halstead (f : Halstead -> Halstead) (r : FunctionReport) : FunctionReport :=
  {| cyclomatic := cyclomatic r; halstead := f (halstead r); name := name r;
     params := params r; sloc := sloc r; line := line r;
     cyclomaticDensity := cyclomaticDensity r |}.

Definition with_params (f : Z -> Z) (r : FunctionReport) : FunctionReport :=
  {| cyclomatic := cyclomatic r; halstead := halstead r; name := name r;
     params := f (params r); sloc := sloc r; line := line r;
     cyclomaticDensity := cyclomaticDensity r |}.

Definition with_logical (f : Z -> Z) (r : FunctionReport) : FunctionReport :=
  {| cyclomatic := cyclomatic r; halstead := halstead r; name := name r;
     params := params r;
     sloc := {| logical := f (logical (sloc r)); physical := physical (sloc r) |};
     line := line r; cyclomaticDensity := cyclomaticDensity r |}.

Definition set_cyclomaticDensity (d : number) (r : FunctionReport) : FunctionReport :=
  {| cyclomatic := cyclomatic r; halstead := halstead r; name := name r;
     params := params r; sloc := sloc r; line := line r;
     cyclomaticDensity := Some d |}.

Definition with_aggregate (f : FunctionReport -> FunctionReport) (r : ModuleReport) : ModuleReport :=
  {| aggregate := f (aggregate r); dependencies := dependencies r;
     functions := functions r; maintainability := maintainability r;
     report_loc := report_loc r; report_cyclomatic := report_cyclomatic r;
     report_effort := report_effort r; report_params := report_params r;
     path := path r |}.

Definition with_functions (f : list FunctionReport -> list FunctionReport) (r : ModuleReport) : ModuleReport :=
  {| aggregate := aggregate r; dependencies := dependencies r;
     functions := f (functions r); maintainability := maintainability r;
     report_loc := report_loc r; report_cyclomatic := report_cyclomatic r;
     report_effort := report_effort r; report_params := report_params r;
     path := path r |}.

Definition with_dependencies (f : list Dependency -> list Dependency) (r : ModuleReport) : ModuleReport :=
  {| aggregate := aggregate r; dependencies := f (dependencies r);
     functions := functions r; maintainability := maintainability r;
     report_loc := report_loc r; report_cyclomatic := report_cyclomatic r;
     report_effort := report_effort r; report_params := report_params r;
     path := path r |}.

Definition set_path (p : string) (r : ModuleReport) : ModuleReport :=
  {| aggregate := aggregate r; dependencies := dependencies r;
     functions := functions r; maintainability := maintainability r;
     report_loc := report_loc r; report_cyclomatic := report_cyclomatic r;
     report_effort := report_effort r; report_params := report_params r;
     path := p |}.

(** A write through a reference to a function report. *)
Definition with_function (ref : nat) (f : FunctionReport -> FunctionReport)
    (r : ModuleReport) : ModuleReport :=
  with_functions (alter f ref) r.

(** A write through [currentReport], which may be [undefined]. *)
Definition with_current (currentReport : option nat)
    (f : FunctionReport -> FunctionReport) (r : ModuleReport) : ModuleReport :=
  match currentReport with
  | Some ref => with_function ref f r
  | None => r
  end.

(** ** Report construction *)

Definition createInitialHalsteadItemState : HalsteadItemState :=
  {| distinct := 0; identifiers := []; total := 0 |}.

Definition createInitialHalsteadState : Halstead :=
  {| operands := createInitialHalsteadItemState;
     operators := createInitialHalsteadItemState;
     metrics := None |}.

Definition createFunctionReport (name : option string) (lines : option Loc)
    (params : Z) : FunctionReport :=
  {| cyclomatic := 1;
     halstead := createInitialHalsteadState;
     name := name;
     params := params;
     sloc := {| logical := 0;
                physical := (fun l => end_line l - start_line l + 1)%Z <$> lines |};
     line := start_line <$> lines;
     cyclomaticDensity := None |}.

Definition createReport (lines : option Loc) : ModuleReport :=
  {| aggregate := createFunctionReport None lines 0;
     dependencies := [];
     functions := [];
     maintainability := None;
     report_loc := None; report_cyclomatic := None;
     report_effort := None; report_params := None;
     path := EmptyString |}.

(** ** Logical lines and cyclomatic complexity *)

Definition incrementLogicalSloc (report : ModuleReport)
    (currentReport : option nat) (amount : Z) : ModuleReport :=
  with_current currentReport (with_logical (Z.add amount))
    (with_aggregate (with_logical (Z.add amount)) report).

Definition incrementCyclomatic (report : ModuleReport)
    (currentReport : option nat) (amount : Z) : ModuleReport :=
  with_current currentReport (with_cyclomatic (Z.add amount))
    (with_aggregate (with_cyclomatic (Z.add amount)) report).

(** ** The Halstead accumulator *)

Definition get_metric (metric : Metric) (h : Halstead) : HalsteadItemState :=
  match metric with
  | Operators => operators h
  | Operands => operands h
  end.

Definition with_metric (metric : Metric)
    (f : HalsteadItemState -> HalsteadItemState) (h : Halstead) : Halstead :=
  match metric with
  | Operators =>
      {| operands := operands h; operators := f (operators h); metrics := metrics h |}
  | Operands =>
      {| operands := f (operands h); operators := operators h; metrics := metrics h |}
  end.

(** The own property names of [Object.prototype] (ECMAScript, with the
    legacy accessors of Annex B), which is what
    [Object.prototype.hasOwnProperty(identifier)] tests. *)
Definition objectPrototypeNames : list string :=
  [ "constructor"; "__defineGetter__"; "__defineSetter__"; "hasOwnProperty";
    "__lookupGetter__"; "__lookupSetter__"; "isPrototypeOf";
    "propertyIsEnumerable"; "toString"; "valueOf"; "__proto__";
    "toLocaleString" ].

Definition hasOwnProperty (identifier : string) : bool :=
  existsb (String.eqb identifier) objectPrototypeNames.

Definition isHalsteadMetricDistinct (baseReport : FunctionReport)
    (metric : Metric) (identifier : string) : bool :=
  negb (existsb (String.eqb identifier)
          (identifiers (get_metric metric (halstead baseReport)))).

Definition recordDistinctHalsteadMetric (baseReport : FunctionReport)
    (metric : Metric) (identifier : string) : FunctionReport :=
  with_halstead
    (with_metric metric (fun b =>
       {| distinct := distinct b;
          identifiers := identifiers b ++ [identifier];
          total := total b |}))
    baseReport.

Definition incrementHalsteadMetric (baseReport : FunctionReport)
    (metric : Metric) (type : HalsteadField) : FunctionReport :=
  with_halstead
    (with_metric metric (fun b =>
       match type with
       | Distinct =>
           {| distinct := distinct b + 1; identifiers := identifiers b;
              total := total b |}
       | Total =>
           {| distinct := distinct b; identifiers := identifiers b;
              total := total b + 1 |}
       end))
    baseReport.

Definition incrementTotalHalsteadItems (baseReport : FunctionReport)
    (metric : Metric) : FunctionReport :=
  incrementHalsteadMetric baseReport metric Total.

(** The recursion of [incrementDistinctHalsteadItems] on ['_' + identifier],
    by fuel; [None] when the fuel runs out. *)
Fixpoint incrementDistinctHalsteadItems_rec (fuel : nat)
    (baseReport : FunctionReport) (metric : Metric) (identifier : string)
    : option FunctionReport :=
  match fuel with
  | O => None
  | S fuel' =>
      if hasOwnProperty identifier then
        incrementDistinctHalsteadItems_rec fuel' baseReport metric ("_" ++ identifier)%string
      else if isHalsteadMetricDistinct baseReport metric identifier then
        Some (incrementHalsteadMetric
                (recordDistinctHalsteadMetric baseReport metric identifier)
                metric Distinct)
      else Some baseReport
  end.

(** Every property name has at most 20 characters and each call adds one,
    so 22 calls always reach a name that is not one
    ([incrementDistinctHalsteadItems_total]). *)
Definition guardFuel : nat := 22.

Definition incrementDistinctHalsteadItems (baseReport : FunctionReport)
    (metric : Metric) (identifier : string) : FunctionReport :=
  default baseReport
    (incrementDistinctHalsteadItems_rec guardFuel baseReport metric identifier).

Definition incrementHalsteadItems (baseReport : FunctionReport)
    (metric : Metric) (identifier : string) : FunctionReport :=
  incrementTotalHalsteadItems
    (incrementDistinctHalsteadItems baseReport metric identifier) metric.

Definition halsteadItemEncountered (report : ModuleReport)
    (currentReport : option nat) (metric : Metric) (identifier : string)
    : ModuleReport :=
  with_aggregate (fun b => incrementHalsteadItems b metric identifier)
    (with_current currentReport
       (fun b => incrementHalsteadItems b metric identifier) report).


(** ** Metric finalisation *)

Definition calculateCyclomaticDensity (data : FunctionReport) : FunctionReport :=
  set_cyclomaticDensity
    (mul (div (ofZ (cyclomatic data)) (ofZ (logical (sloc data)))) (Num 100))
    data.

Definition nilHalsteadMetrics (length : Z) : HalsteadMetrics :=
  {| h_length := length; vocabulary := 0; difficulty := Num 0;
     volume := Num 0; effort := Num 0; bugs := Num 0; time := Num 0 |}.

Definition calculateHalsteadMetrics (data : Halstead) : Halstead :=
  let length := (total (operators data) + total (operands data))%Z in
  let m :=
    if (length =? 0)%Z then nilHalsteadMetrics length
    else
      let vocabulary := (distinct (operators data) + distinct (operands data))%Z in
      let difficulty :=
        mul (div (ofZ (distinct (operators data))) (Num 2))
            (if (distinct (operands data) =? 0)%Z then Num 1
             else div (ofZ (total (operands data)))
                      (ofZ (distinct (operands data)))) in
      let volume := mul (ofZ length) (div (log (ofZ vocabulary)) (log (Num 2))) in
      let effort := mul difficulty volume in
      {| h_length := length; vocabulary := vocabulary;
         difficulty := difficulty; volume := volume; effort := effort;
         bugs := div volume (Num 3000); time := div effort (Num 18) |} in
  {| operands := operands data; operators := operators data; metrics := Some m |}.

(** [indices] of [calculateMetrics]. *)
Definition indices_cyclomatic : nat := 1.
Definition indices_effort : nat := 2.
Definition indices_loc : nat := 0.
Definition indices_params : nat := 3.

(** [data.halstead.effort]; reading the absent field gives [undefined],
    which the addition turns into [NaN]. *)
Definition halstead_effort (data : FunctionReport) : number :=
  from_option effort NaN (metrics (halstead data)).

Definition sumMaintainabilityMetrics (sums : list number)
    (data : FunctionReport) : list number :=
  let sums := alter (fun s => add s (ofZ (logical (sloc data)))) indices_loc sums in
  let sums := alter (fun s => add s (ofZ (cyclomatic data))) indices_cyclomatic sums in
  let sums := alter (fun s => add s (halstead_effort data)) indices_effort sums in
  alter (fun s => add s (ofZ (params data))) indices_params sums.

Definition zeroCyclomaticMessage : string :=
  "Encountered function with cyclomatic complexity zero!".

Definition calculateMaintainabilityIndex
    (averageEffort averageCyclomatic averageLoc : number) (newmi : bool)
    : Error + number :=
  if eqb averageCyclomatic (Num 0) then inl (Err zeroCyclomaticMessage)
  else
    let maintainability :=
      sub (sub (sub (Num 171) (mul (Num 3.42) (log averageEffort)))
               (mul (Num 0.23) (log averageCyclomatic)))
          (mul (Num 16.2) (log averageLoc)) in
    let maintainability :=
      if gtb maintainability (Num 171) then Num 171 else maintainability in
    let maintainability :=
      if newmi then max (Num 0) (div (mul maintainability (Num 100)) (Num 171))
      else maintainability in
    inr maintainability.

(** What the [forEach] of [calculateMetrics] does to one function report. *)
Definition finalise (data : FunctionReport) : FunctionReport :=
  with_halstead calculateHalsteadMetrics (calculateCyclomaticDensity data).

(** [averages[i]]; out of range is [undefined]. *)
Definition average_at (averages : list number) (i : nat) : number :=
  default NaN (averages !! i).

(** The averages [calculateMetrics] computes, before the maintainability
    index is derived from them. *)
Definition moduleAverages (report : ModuleReport) : list number :=
  let count := length (functions report) in
  let sums := [Num 0; Num 0; Num 0; Num 0] in
  let sums := fold_left sumMaintainabilityMetrics (finalise <$> functions report) sums in
  let '(sums, count) :=
    if (count =? 0)%nat
    then (sumMaintainabilityMetrics sums (finalise (aggregate report)), 1%nat)
    else (sums, count) in
  (fun sum => div sum (ofZ (Z.of_nat count))) <$> sums.

Definition calculateMetrics (settings : Settings) (report : ModuleReport)
    : Error + ModuleReport :=
  let averages := moduleAverages report in
  match
    calculateMaintainabilityIndex (average_at averages indices_effort)
      (average_at averages indices_cyclomatic)
      (average_at averages indices_loc) (newmi settings)
  with
  | inl e => inl e
  | inr m =>
      inr {| aggregate := finalise (aggregate report);
             dependencies := dependencies report;
             functions := finalise <$> functions report;
             maintainability := Some m;
             report_loc := Some (average_at averages indices_loc);
             report_cyclomatic := Some (average_at averages indices_cyclomatic);
             report_effort := Some (average_at averages indices_effort);
             report_params := Some (average_at averages indices_params);
             path := path report |}
  end.

(** ** Syntax descriptors and walker callbacks *)

Section Walk.

(** Syntax tree nodes are opaque to the analyser. *)
Context {Node : Type}.

(** [syntax.lloc] and [syntax.cyclomatic]: a number, a function of the
    node, or anything else (ignored). *)
Inductive Counter :=
| CounterAbsent
| CounterNumber (amount : Z)
| CounterFunction (amount : Node -> Z).

Inductive Identifier :=
| IdentifierString (s : string)
| IdentifierFunction (f : Node -> string).

Record HalsteadSyntax := {
  identifier : Identifier;
  filter : option (Node -> bool)
}.

(** What [syntax.dependencies] returns: an object, an array, or a value
    that is neither. *)
Inductive DependencyResult :=
| DependencyObject (d : Dependency)
| DependencyArray (ds : list Dependency)
| DependencyOther.

Record Syntax := {
  syntax_lloc : Counter;
  syntax_cyclomatic : Counter;
  syntax_operators : option (list HalsteadSyntax);
  syntax_operands : option (list HalsteadSyntax);
  syntax_dependencies : option (Node -> bool -> DependencyResult)
}.

Record Ast := { loc : option Loc; root : Node }.

(** The calls a walker makes on the three callbacks it is handed. *)
Inductive Callback :=
| CreateScope (name : option string) (loc : option Loc) (parameterCount : Z)
| PopScope
| ProcessNode (node : Node) (syntax : Syntax).

Definition Walker : Type := Ast -> Settings -> list Callback.

(** The variables of one [analyse] call.  [dependencyCalls] is not a
    variable of the source: it logs the [clearFlag] argument of every
    call made to a [syntax.dependencies] function, in order. *)
Record Analysis := {
  report : ModuleReport;
  currentReport : option nat;
  clearDependencies : bool;
  scopeStack : list nat;
  dependencyCalls : list bool
}.

Definition incrementCounter (node : Node) (amount : Counter)
    (incrementFn : ModuleReport -> option nat -> Z -> ModuleReport)
    (report : ModuleReport) (currentReport : option nat) : ModuleReport :=
  match amount with
  | CounterNumber amount => incrementFn report currentReport amount
  | CounterFunction amount => incrementFn report currentReport (amount node)
  | CounterAbsent => report
  end.

Definition processLloc (node : Node) (syntax : Syntax)
    (report : ModuleReport) (currentReport : option nat) : ModuleReport :=
  incrementCounter node (syntax_lloc syntax) incrementLogicalSloc
    report currentReport.

Definition processCyclomatic (node : Node) (syntax : Syntax)
    (report : ModuleReport) (currentReport : option nat) : ModuleReport :=
  incrementCounter node (syntax_cyclomatic syntax) incrementCyclomatic
    report currentReport.

Definition syntax_metric (metric : Metric) (syntax : Syntax)
    : option (list HalsteadSyntax) :=
  match metric with
  | Operators => syntax_operators syntax
  | Operands => syntax_operands syntax
  end.

Definition identifier_of (node : Node) (s : HalsteadSyntax) : string :=
  match identifier s with
  | IdentifierFunction f => f node
  | IdentifierString s => s
  end.

(** [_isFunction(s.filter) === false || s.filter(node) === true] *)
Definition passes_filter (node : Node) (s : HalsteadSyntax) : bool :=
  match filter s with
  | None => true
  | Some f => f node
  end.

Definition processHalsteadMetric (node : Node) (syntax : Syntax)
    (metric : Metric) (report : ModuleReport) (currentReport : option nat)
    : ModuleReport :=
  match syntax_metric metric syntax with
  | Some items =>
      fold_left
        (fun report s =>
           if passes_filter node s then
             halsteadItemEncountered report currentReport metric
               (identifier_of node s)
           else report)
        items report
  | None => report
  end.

Definition processOperators (node : Node) (syntax : Syntax)
    (report : ModuleReport) (currentReport : option nat) : ModuleReport :=
  processHalsteadMetric node syntax Operators report currentReport.

Definition processOperands (node : Node) (syntax : Syntax)
    (report : ModuleReport) (currentReport : option nat) : ModuleReport :=
  processHalsteadMetric node syntax Operands report currentReport.

(** [report.dependencies.concat(dependencies)] *)
Definition concat_dependencies (ds : list Dependency) (r : DependencyResult)
    : list Dependency :=
  match r with
  | DependencyObject d => ds ++ [d]
  | DependencyArray l => ds ++ l
  | DependencyOther => ds
  end.

(** The call [syntax.dependencies(node, clearDependencies)]: what the
    function returns for the arguments it is given, and, for the log,
    the [clearFlag] argument of this call. *)
Definition callDependencies (f : Node -> bool -> DependencyResult)
    (node : Node) (clearFlag : bool) : DependencyResult * list bool :=
  (f node clearFlag, [clearFlag]).

(** Returns the boolean of the source, the report, and the log of the
    call made to [syntax.dependencies], if one was made. *)
Definition processDependencies (node : Node) (syntax : Syntax)
    (clearDependencies : bool) (report : ModuleReport)
    : bool * ModuleReport * list bool :=
  match syntax_dependencies syntax with
  | Some f =>
      let '(dependencies, flags) :=
        callDependencies f node clearDependencies in
      (true,
       with_dependencies (fun ds => concat_dependencies ds dependencies) report,
       flags)
  | None => (false, report, [])
  end.

Definition processNode (st : Analysis) (node : Node) (syntax : Syntax)
    : Analysis :=
  let cur := currentReport st in
  let r := processLloc node syntax (report st) cur in
  let r := processCyclomatic node syntax r cur in
  let r := processOperators node syntax r cur in
  let r := processOperands node syntax r cur in
  let '(called, r, calls) :=
    processDependencies node syntax (clearDependencies st) r in
  {| report := r;
     currentReport := cur;
     clearDependencies := if called then false else clearDependencies st;
     scopeStack := scopeStack st;
     dependencyCalls := dependencyCalls st ++ calls |}.

Definition pushScope (st : Analysis) (name : option string)
    (loc : option Loc) (parameterCount : Z) : Analysis :=
  let ref := length (functions (report st)) in
  {| report :=
       with_aggregate (with_params (fun p => p + parameterCount)%Z)
         (with_functions
            (fun fs => fs ++ [createFunctionReport name loc parameterCount])
            (report st));
     currentReport := Some ref;
     clearDependencies := clearDependencies st;
     scopeStack := scopeStack st ++ [ref];
     dependencyCalls := dependencyCalls st |}.

Definition popScope (st : Analysis) : Analysis :=
  let stack := removelast (scopeStack st) in
  {| report := report st;
     currentReport := last stack;
     clearDependencies := clearDependencies st;
     scopeStack := stack;
     dependencyCalls := dependencyCalls st |}.

Definition callback (st : Analysis) (c : Callback) : Analysis :=
  match c with
  | CreateScope name loc parameterCount => pushScope st name loc parameterCount
  | PopScope => popScope st
  | ProcessNode node syntax => processNode st node syntax
  end.

(** [walker.walk(ast, settings, {createScope, popScope, processNode})] *)
Definition walk (calls : list Callback) (st : Analysis) : Analysis :=
  fold_left callback calls st.

Definition initial (ast : Ast) : Analysis :=
  {| report := createReport (loc ast);
     currentReport := None;
     clearDependencies := true;
     scopeStack := [];
     dependencyCalls := [] |}.

(** [analyse] for arguments that pass its three asserts, which the
    types express ([ast] is an object, [walker] an object with a
    [walk] function), and for an [ast] that [JSON.stringify], called
    for the debug output, accepts.  The errors raised otherwise are not
    modelled, nor are errors raised by the walker or by the functions
    of a syntax descriptor. *)
Definition analyse (ast : Ast) (walker : Walker) (options : option Settings)
    : Error + ModuleReport :=
  let settings := default defaultSettings options in
  let st := walk (walker ast settings) (initial ast) in
  calculateMetrics settings (report st).

End Walk.

Arguments Counter : clear implicits.
Arguments Identifier : clear implicits.
Arguments HalsteadSyntax : clear implicits.
Arguments Syntax : clear implicits.
Arguments Ast : clear implicits.
Arguments Callback : clear implicits.
Arguments Walker : clear implicits.

End EsModule.

(* ================================================================== *)
(** * Node's [path] module *)
(* ================================================================== *)

(** [project.js] uses five members of Node's [path] module, which is not
    part of the repository: they are an interface here. *)
Record PathModule := {
  sep : ascii;
  resolve : list string -> string;
  dirname : string -> string;
  extname : string -> string;
  join : list string -> string
}.

(** [s.split(sep)] for a separator of one character. *)
Fixpoint split (sep : ascii) (s : string) : list string :=
  match s with
  | EmptyString => [EmptyString]
  | String c s' =>
      if Ascii.eqb c sep then EmptyString :: split sep s'
      else
        match split sep s' with
        | h :: t => String c h :: t
        | [] => [String c EmptyString]
        end
  end.

(** A model of [path.posix] for a given working directory, after Node's
    documentation; it instantiates the interface in the examples. *)
Module Posix.

Definition slash : ascii := "/"%char.

Definition isAbsolute (p : string) : bool :=
  match p with
  | String c _ => Ascii.eqb c slash
  | EmptyString => false
  end.

(** Resolves ["."] and [".."] segments; [acc] is the reversed result. *)
Fixpoint normalizeSegments (absolute : bool) (acc segs : list string)
    : list string :=
  match segs with
  | [] => rev acc
  | s :: segs' =>
      if String.eqb s EmptyString || String.eqb s "." then
        normalizeSegments absolute acc segs'
      else if String.eqb s ".." then
        match acc with
        | top :: acc' =>
            if String.eqb top ".."
            then normalizeSegments absolute (s :: acc) segs'
            else normalizeSegments absolute acc' segs'
        | [] =>
            if absolute then normalizeSegments absolute [] segs'
            else normalizeSegments absolute [s] segs'
        end
      else normalizeSegments absolute (s :: acc) segs'
  end.

Definition endsWithSlash (p : string) : bool :=
  match rev (list_ascii_of_string p) with
  | c :: _ => Ascii.eqb c slash
  | [] => false
  end.

Definition normalize (p : string) : string :=
  let absolute := isAbsolute p in
  let body := String.concat "/" (normalizeSegments absolute [] (split slash p)) in
  let body :=
    if String.eqb body EmptyString then (if absolute then EmptyString else ".")
    else if endsWithSlash p then (body ++ "/")%string else body in
  if absolute then ("/" ++ body)%string else body.

Definition posix_resolve (cwd : string) (paths : list string) : string :=
  let joined :=
    fold_left
      (fun acc p =>
         if String.eqb p EmptyString then acc
         else if isAbsolute p then p
         else (acc ++ "/" ++ p)%string)
      paths cwd in
  ("/" ++ String.concat "/" (normalizeSegments true [] (split slash joined)))%string.

Definition posix_join (paths : list string) : string :=
  match List.filter (fun p => negb (String.eqb p EmptyString)) paths with
  | [] => "."
  | parts => normalize (String.concat "/" parts)
  end.

Fixpoint dropWhile {A} (f : A -> bool) (l : list A) : list A :=
  match l with
  | [] => []
  | x :: l' => if f x then dropWhile f l' else l
  end.

Definition posix_dirname (p : string) : string :=
  let r := rev (list_ascii_of_string p) in
  let r := dropWhile (fun c => Ascii.eqb c slash) r in
  let r := dropWhile (fun c => negb (Ascii.eqb c slash)) r in
  match r with
  | [] => if isAbsolute p then "/" else "."
  | _ :: [] => if isAbsolute p then "/" else "."
  | _ :: r' => string_of_list_ascii (rev r')
  end.

(** The last path component; trailing separators are ignored. *)
Definition lastComponent (p : string) : string :=
  default EmptyString
    (last (List.filter (fun s => negb (String.eqb s EmptyString))
             (split slash p))).

(** The suffix of [s] from its last ['.'], when that is not at index 0. *)
Fixpoint suffixFromLastDot (first : bool) (s : string) : option string :=
  match s with
  | EmptyString => None
  | String c s' =>
      match suffixFromLastDot false s' with
      | Some e => Some e
      | None =>
          if Ascii.eqb c "."%char && negb first then Some s else None
      end
  end.

Definition posix_extname (p : string) : string :=
  let base := lastComponent p in
  if String.eqb base ".." then EmptyString
  else default EmptyString (suffixFromLastDot true base).

Definition posix (cwd : string) : PathModule :=
  {| sep := slash;
     resolve := posix_resolve cwd;
     dirname := posix_dirname;
     extname := posix_extname;
     join := posix_join |}.

End Posix.

(* ================================================================== *)
(** * project.js *)
(* ================================================================== *)

(** The entries of the distance matrix of [createVisibilityMatrix]: a whole
    number or [Infinity]. *)
Inductive distance :=
| Finite (n : Z)
| Infinite.

Definition distance_add (a b : distance) : distance :=
  match a, b with
  | Finite x, Finite y => Finite (x + y)
  | _, _ => Infinite
  end.

(** [a > b] *)
Definition distance_gtb (a b : distance) : bool :=
  match a, b with
  | Finite x, Finite y => (y <? x)%Z
  | Infinite, Finite _ => true
  | _, Infinite => false
  end.

(** [value < Infinity] *)
Definition is_finite (a : distance) : bool :=
  match a with
  | Finite _ => true
  | Infinite => false
  end.

(** [m[i][j]] *)
Definition cell {A} (m : list (list A)) (i j : nat) : option A :=
  m !! i ≫= (fun row => row !! j).

(** [m[i][j] = v], for [i] and [j] in range. *)
Definition set_cell {A} (m : list (list A)) (i j : nat) (v : A) : list (list A) :=
  alter (fun row => <[j := v]> row) i m.

(** Stable insertion sort by a comparator, for [Array.prototype.sort]. *)
Fixpoint sort_insert {A} (cmp : A -> A -> Z) (x : A) (l : list A) : list A :=
  match l with
  | [] => [x]
  | y :: l' => if (cmp x y <=? 0)%Z then x :: l else y :: sort_insert cmp x l'
  end.

Definition sort {A} (cmp : A -> A -> Z) (l : list A) : list A :=
  foldr (sort_insert cmp) [] l.

Module EsProject.

Import EsModule.

Record Result := {
  reports : list ModuleReport;
  adjacencyMatrix : option (list (list Z));
  firstOrderDensity : option number;
  visibilityMatrix : option (list (list Z));
  changeCost : option number;
  coreSize : option number;
  result_cyclomatic : option number;
  result_effort : option number;
  result_loc : option number;
  result_maintainability : option number;
  result_params : option number
}.

(** [{ reports: reports }] *)
Definition unprocessed (reports : list ModuleReport) : Result :=
  {| reports := reports;
     adjacencyMatrix := None; firstOrderDensity := None;
     visibilityMatrix := None; changeCost := None; coreSize := None;
     result_cyclomatic := None; result_effort := None; result_loc := None;
     result_maintainability := None; result_params := None |}.

Definition percentify (value limit : Z) : number :=
  if (limit =? 0)%Z then Num 0
  else mul (div (ofZ value) (ofZ limit)) (Num 100).

Definition percentifyDensity {A} (density : Z) (matrix : list (list A)) : number :=
  percentify density (Z.of_nat (length matrix) * Z.of_nat (length matrix)).

Definition compareNumbers (lhs rhs : Z) : Z :=
  if (lhs <? rhs)%Z then -1
  else if (rhs <? lhs)%Z then 1
  else 0.

(** [values[i]] as a number; out of range is [undefined]. *)
Definition value_at (values : list Z) (i : Z) : number :=
  if (i <? 0)%Z then NaN
  else from_option ofZ NaN (values !! Z.to_nat i).

Definition getMedian (values : list Z) : number :=
  let values := sort compareNumbers values in
  let n := Z.of_nat (length values) in
  if (n mod 2 =? 1)%Z then value_at values ((n - 1) / 2)
  else
    div (add (value_at values ((n - 2) / 2)) (value_at values (n / 2))) (Num 2).

(** ** The visibility matrix *)

Definition adjacencyToDistMatrix (matrix : list (list Z)) : list (list distance) :=
  imap
    (fun i row =>
       imap
         (fun j value =>
            if (i =? j)%nat then Finite 1
            else if (value =? 0)%Z then Infinite else Finite value)
         row)
    matrix.

(** The body of the innermost loop of [createVisibilityMatrix].  A read
    outside a row gives [undefined], the comparison is then false. *)
Definition relax (k i j : nat) (m : list (list distance)) : list (list distance) :=
  match cell m i j, cell m i k, cell m k j with
  | Some dij, Some dik, Some dkj =>
      if distance_gtb dij (distance_add dik dkj)
      then set_cell m i j (distance_add dik dkj)
      else m
  | _, _, _ => m
  end.

Definition floydWarshall (m : list (list distance)) : list (list distance) :=
  let matrixLen := length m in
  fold_left
    (fun m k =>
       fold_left
         (fun m i => fold_left (fun m j => relax k i j m) (seq 0 matrixLen) m)
         (seq 0 matrixLen) m)
    (seq 0 matrixLen) m.

(** The number of cells the conversion counts into [changeCost]. *)
Definition count_finite (m : list (list distance)) : Z :=
  fold_left
    (fun changeCost row =>
       fold_left
         (fun changeCost value =>
            if is_finite value then (changeCost + 1)%Z else changeCost)
         row changeCost)
    m 0%Z.

Definition distToVisibility (m : list (list distance)) : list (list Z) :=
  imap
    (fun rowIndex row =>
       imap
         (fun columnIndex value =>
            if is_finite value && negb (columnIndex =? rowIndex)%nat
            then 1%Z else 0%Z)
         row)
    m.

Definition with_visibility (visibilityMatrix : list (list Z))
    (changeCost : number) (result : Result) : Result :=
  {| reports := reports result;
     adjacencyMatrix := adjacencyMatrix result;
     firstOrderDensity := firstOrderDensity result;
     visibilityMatrix := Some visibilityMatrix;
     changeCost := Some changeCost;
     coreSize := coreSize result;
     result_cyclomatic := result_cyclomatic result;
     result_effort := result_effort result;
     result_loc := result_loc result;
     result_maintainability := result_maintainability result;
     result_params := result_params result |}.

(** [result.adjacencyMatrix] has been set by [createAdjacencyMatrix]. *)
Definition createVisibilityMatrix (result : Result) : Result :=
  let dist := floydWarshall
                (adjacencyToDistMatrix (default [] (adjacencyMatrix result))) in
  let changeCost := count_finite dist in
  let visibilityMatrix := distToVisibility dist in
  with_visibility visibilityMatrix
    (percentifyDensity changeCost visibilityMatrix) result.

(** ** Core size *)

Definition with_coreSize (coreSize : number) (result : Result) : Result :=
  {| reports := reports result;
     adjacencyMatrix := adjacencyMatrix result;
     firstOrderDensity := firstOrderDensity result;
     visibilityMatrix := visibilityMatrix result;
     changeCost := changeCost result;
     coreSize := Some coreSize;
     result_cyclomatic := result_cyclomatic result;
     result_effort := result_effort result;
     result_loc := result_loc result;
     result_maintainability := result_maintainability result;
     result_params := result_params result |}.

Definition sum_row (row : list Z) : Z :=
  fold_left (fun sum value => (sum + value)%Z) row 0%Z.

(** The elements of an array with their indices, as [forEach] and
    [reduce] hand them to the callback. *)
Definition indexed {A} (l : list A) : list (nat * A) :=
  zip (seq 0 (length l)) l.

(** The writes to [fanOut] while the rows are reduced: the first row is
    stored, the later ones are added.  The rows have the length of the
    matrix. *)
Definition accumulate_fanOut (matrix : list (list Z)) : list Z :=
  fold_left
    (fun fanOut '(rowIndex, row) =>
       fold_left
         (fun fanOut '(valueIndex, value) =>
            if (rowIndex =? 0)%nat then <[valueIndex := value]> fanOut
            else alter (fun s => (s + value)%Z) valueIndex fanOut)
         (indexed row) fanOut)
    (indexed matrix) (replicate (length matrix) 0%Z).

Definition setCoreSize (result : Result) : Result :=
  if from_option (fun d => eqb d (Num 0)) false (firstOrderDensity result)
  then with_coreSize (Num 0) result
  else
    let visibilityMatrix := default [] (visibilityMatrix result) in
    let fanIn := sum_row <$> visibilityMatrix in
    let fanOut := accumulate_fanOut visibilityMatrix in
    let boundaries_fanIn := getMedian fanIn in
    let boundaries_fanOut := getMedian fanOut in
    let coreSize :=
      fold_left
        (fun coreSize index =>
           if geb (from_option ofZ NaN (fanIn !! index)) boundaries_fanIn
              && geb (from_option ofZ NaN (fanOut !! index)) boundaries_fanOut
           then (coreSize + 1)%Z else coreSize)
        (seq 0 (length visibilityMatrix)) 0%Z in
    with_coreSize (percentify coreSize (Z.of_nat (length visibilityMatrix))) result.

(** ** Project averages *)

(** [report[key]]; an absent field reads [undefined] and the sum becomes
    [NaN]. *)
Definition key_of (get : ModuleReport -> option number) (report : ModuleReport)
    : number :=
  default NaN (get report).

Definition calculateAverages (result : Result) : Result :=
  let divisor :=
    if (length (reports result) =? 0)%nat then 1%Z
    else Z.of_nat (length (reports result)) in
  let average (get : ModuleReport -> option number) : number :=
    div (fold_left (fun sum report => add sum (key_of get report))
           (reports result) (Num 0))
        (ofZ divisor) in
  {| reports := reports result;
     adjacencyMatrix := adjacencyMatrix result;
     firstOrderDensity := firstOrderDensity result;
     visibilityMatrix := visibilityMatrix result;
     changeCost := changeCost result;
     coreSize := coreSize result;
     result_cyclomatic := Some (average report_cyclomatic);
     result_effort := Some (average report_effort);
     result_loc := Some (average report_loc);
     result_maintainability := Some (average maintainability);
     result_params := Some (average report_params) |}.

(** ** Path ordering, dependency matching and the adjacency matrix *)

Section WithPath.

Variable pathlib : PathModule.

Definition comparePaths (lhs rhs : string) : Z :=
  let lsplit := split (sep pathlib) lhs in
  let rsplit := split (sep pathlib) rhs in
  if (length lsplit <? length rsplit)%nat
     || ((length lsplit =? length rsplit)%nat && String.ltb lhs rhs)
  then -1
  else if (length rsplit <? length lsplit)%nat
          || ((length lsplit =? length rsplit)%nat && String.ltb rhs lhs)
  then 1
  else 0.

Definition isCommonJSDependency (dependency : Dependency) : bool :=
  String.eqb (dep_type dependency) "CommonJS".

(** [s[i] === c] for a character [c]; [s[i]] is [undefined] past the end. *)
Definition char_is (s : string) (i : nat) (c : ascii) : bool :=
  match String.get i s with
  | Some c' => Ascii.eqb c' c
  | None => false
  end.

Definition isInternalCommonJSDependency (dependency : Dependency) : bool :=
  char_is (dep_path dependency) 0 "."%char
  && (char_is (dep_path dependency) 1 (sep pathlib)
      || (char_is (dep_path dependency) 1 "."%char
          && char_is (dep_path dependency) 2 (sep pathlib))).

Definition isDependency (from : string) (dependency : Dependency)
    (to : string) : bool :=
  let dependencyPath := dep_path dependency in
  let fromFileAbsolutePath := resolve pathlib [from] in
  let toFileAbsolutePath := resolve pathlib [to] in
  let dependencyAbsolutePath :=
    resolve pathlib [dirname pathlib fromFileAbsolutePath; dependencyPath] in
  if String.eqb (extname pathlib dependencyPath) EmptyString then
    let index := join pathlib [dependencyAbsolutePath; "index.js"] in
    if String.eqb index toFileAbsolutePath then true
    else
      String.eqb (dependencyAbsolutePath ++ extname pathlib to)%string
        toFileAbsolutePath
  else String.eqb dependencyAbsolutePath toFileAbsolutePath.

Definition checkDependency (from : string) (dependency : Dependency)
    (to : string) : bool :=
  if isCommonJSDependency dependency then
    if isInternalCommonJSDependency dependency
    then isDependency from dependency to
    else false
  else isDependency from dependency to.

Definition doesDependencyExist (from to : ModuleReport) : bool :=
  fold_left
    (fun (result : bool) dependency =>
       if result then true
       else checkDependency (path from) dependency (path to))
    (dependencies from) false.

(** [x] and [y] index [reports]. *)
Definition getAdjacencyMatrixValue (reports : list ModuleReport) (x y : nat) : Z :=
  if (x =? y)%nat then 0
  else
    match reports !! x, reports !! y with
    | Some from, Some to => if doesDependencyExist from to then 1 else 0
    | _, _ => 0
    end.

(** The number of cells [createAdjacencyMatrix] counts as [density]. *)
Definition count_ones (matrix : list (list Z)) : Z :=
  fold_left
    (fun density row =>
       fold_left
         (fun density value => if (value =? 1)%Z then (density + 1)%Z else density)
         row density)
    matrix 0%Z.

Definition createAdjacencyMatrix (result : Result) : Result :=
  let reports :=
    sort (fun lhs rhs => comparePaths (path lhs) (path rhs)) (reports result) in
  let adjacencyMatrix :=
    imap (fun x _ => imap (fun y _ => getAdjacencyMatrixValue reports x y) reports)
      reports in
  {| reports := reports;
     adjacencyMatrix := Some adjacencyMatrix;
     firstOrderDensity :=
       Some (percentifyDensity (count_ones adjacencyMatrix) adjacencyMatrix);
     visibilityMatrix := visibilityMatrix result;
     changeCost := changeCost result;
     coreSize := coreSize result;
     result_cyclomatic := result_cyclomatic result;
     result_effort := result_effort result;
     result_loc := result_loc result;
     result_maintainability := result_maintainability result;
     result_params := result_params result |}.

Definition processResults (result : Result) (noCoreSize : bool) : Result :=
  let result := createAdjacencyMatrix result in
  let result :=
    if negb noCoreSize then setCoreSize (createVisibilityMatrix result)
    else result in
  calculateAverages result.

(** ** [analyse] *)

Context {Node : Type}.

Record ModuleInput := { input_ast : Ast Node; input_path : string }.

(** The options object: the module analyser's settings and the two
    switches of the project analyser. *)
Record Options := {
  settings : Settings;
  skipCalculation : bool;
  noCoreSize : bool
}.

Definition analyseModule (walker : Walker Node) (options : Options)
    (m : ModuleInput) : Error + ModuleReport :=
  if (String.length (input_path m) =? 0)%nat then inl (Err "Invalid path")
  else
    match EsModule.analyse (input_ast m) walker (Some (settings options)) with
    | inr report => inr (set_path (input_path m) report)
    | inl (Err message) =>
        inl (Err (input_path m ++ ": " ++ message)%string)
    end.

(** [modules.map]: the first error ends the call. *)
Fixpoint analyseModules (walker : Walker Node) (options : Options)
    (modules : list ModuleInput) : Error + list ModuleReport :=
  match modules with
  | [] => inr []
  | m :: modules' =>
      match analyseModule walker options m with
      | inl e => inl e
      | inr report =>
          match analyseModules walker options modules' with
          | inl e => inl e
          | inr reports => inr (report :: reports)
          end
      end
  end.

Definition analyse (modules : list ModuleInput) (walker : Walker Node)
    (options : Options) : Error + Result :=
  match analyseModules walker options modules with
  | inl e => inl e
  | inr reports =>
      if skipCalculation options then inr (unprocessed reports)
      else inr (processResults (unprocessed reports) (noCoreSize options))
  end.

End WithPath.

Arguments ModuleInput : clear implicits.

End EsProject.

(* ================================================================== *)
(** * Notions the properties of a walk are stated with *)
(* ================================================================== *)

Section WalkNotions.

Import EsModule.
Context {Node : Type}.

(** The bag of one metric in a report. *)
Definition bag (metric : Metric) (r : FunctionReport) : HalsteadItemState :=
  get_metric metric (halstead r).

(** The amount a counter descriptor stands for at a node. *)
Definition counter_amount (node : Node) (c : Counter Node) : Z :=
  match c with
  | CounterAbsent => 0
  | CounterNumber amount => amount
  | CounterFunction amount => amount node
  end.

Definition lloc_amount (node : Node) (syntax : Syntax Node) : Z :=
  counter_amount node (syntax_lloc syntax).

Definition cyclomatic_amount (node : Node) (syntax : Syntax Node) : Z :=
  counter_amount node (syntax_cyclomatic syntax).

(** The number of tokens of a metric a node contributes: the items of
    the descriptor whose filter is absent or accepts the node. *)
Definition tokens (metric : Metric) (node : Node) (syntax : Syntax Node) : Z :=
  match syntax_metric metric syntax with
  | Some items => Z.of_nat (length (List.filter (passes_filter node) items))
  | None => 0
  end.

(** What the nodes processed while no function was current amount to,
    along the calls made from state [st]. *)
Fixpoint topLevel (amount : Node -> Syntax Node -> Z)
    (calls : list (Callback Node)) (st : Analysis) : Z :=
  match calls with
  | [] => 0
  | c :: calls' =>
      (match c, currentReport st with
       | ProcessNode node syntax, None => amount node syntax
       | _, _ => 0
       end + topLevel amount calls' (callback st c))%Z
  end.

Definition metric_eqb (a b : Metric) : bool :=
  match a, b with
  | Operators, Operators | Operands, Operands => true
  | _, _ => false
  end.

(** The sum of a quantity over the function reports. *)
Definition sumOver (f : FunctionReport -> Z) (l : list FunctionReport) : Z :=
  fold_right (fun r acc => (f r + acc)%Z) 0%Z l.


(** The [clearFlag] arguments of [n] successive calls, the first of them
    made when the latch has the value [clear]. *)
Definition latchFlags (clear : bool) (n : nat) : list bool :=
  match n with
  | O => []
  | S n' => clear :: replicate n' false
  end.

(** The [syntax.dependencies] functions a walk reaches, in the order of
    the calls, each with the node it is called on. *)
Fixpoint dependencyFunctions (calls : list (Callback Node))
    : list (Node * (Node -> bool -> DependencyResult)) :=
  match calls with
  | [] => []
  | ProcessNode node syntax :: calls' =>
      match syntax_dependencies syntax with
      | Some f => (node, f) :: dependencyFunctions calls'
      | None => dependencyFunctions calls'
      end
  | _ :: calls' => dependencyFunctions calls'
  end.

(** The records a returned value adds to [report.dependencies]: an
    object itself, an array its elements, any other value nothing. *)
Definition recordsOf (r : DependencyResult) : list Dependency :=
  match r with
  | DependencyObject d => [d]
  | DependencyArray ds => ds
  | DependencyOther => []
  end.

(** A call that reaches a [syntax.dependencies] function. *)
Definition callsDependencies (c : Callback Node) : bool :=
  match c with
  | ProcessNode _ syntax =>
      match syntax_dependencies syntax with
      | Some _ => true
      | None => false
      end
  | _ => false
  end.

(** What [processNode] does to a report it attributes a node to. *)
Definition halsteadEffect (metric : Metric) (node : Node)
    (syntax : Syntax Node) (b : FunctionReport) : FunctionReport :=
  match syntax_metric metric syntax with
  | Some items =>
      fold_left
        (fun b s =>
           if passes_filter node s
           then incrementHalsteadItems b metric (identifier_of node s)
           else b)
        items b
  | None => b
  end.

Definition nodeEffect (node : Node) (syntax : Syntax Node)
    (b : FunctionReport) : FunctionReport :=
  halsteadEffect Operands node syntax
    (halsteadEffect Operators node syntax
       (with_cyclomatic (Z.add (cyclomatic_amount node syntax))
          (with_logical (Z.add (lloc_amount node syntax)) b))).

(** A write to both the aggregate and the current report. *)
Definition both (cur : option nat) (g : FunctionReport -> FunctionReport)
    (r : ModuleReport) : ModuleReport :=
  with_aggregate g (with_current cur g r).

(** The analyser's variables agree with each other: [currentReport] is
    the top of the scope stack, and the stack holds distinct references
    to existing function reports. *)
Definition consistent (st : Analysis) : Prop :=
  currentReport st = last (scopeStack st)
  /\ Forall (fun ref => (ref < length (functions (report st)))%nat) (scopeStack st)
  /\ NoDup (scopeStack st).

(** The fields of a function report that the walk maintains. *)
Definition sameCounters (a b : FunctionReport) : Prop :=
  cyclomatic a = cyclomatic b
  /\ operands (halstead a) = operands (halstead b)
  /\ operators (halstead a) = operators (halstead b)
  /\ name a = name b
  /\ params a = params b
  /\ sloc a = sloc b
  /\ line a = line b.

(** A Halstead bag counts what it holds: [distinct] is the number of
    recorded identifiers, it is at most [total], and it is positive once
    anything has been encountered. *)
Definition bagCounted (b : HalsteadItemState) : Prop :=
  distinct b = Z.of_nat (length (identifiers b))
  /\ (distinct b <= total b)%Z
  /\ (0 < total b -> 0 < distinct b)%Z.

Definition wellCounted (r : FunctionReport) : Prop :=
  (0 <= logical (sloc r))%Z
  /\ (1 <= cyclomatic r)%Z
  /\ bagCounted (operators (halstead r))
  /\ bagCounted (operands (halstead r)).

(** A call whose line and complexity amounts are not negative. *)
Definition nonnegative (c : Callback Node) : Prop :=
  match c with
  | ProcessNode node syntax =>
      (0 <= lloc_amount node syntax)%Z
      /\ (0 <= cyclomatic_amount node syntax)%Z
  | _ => True
  end.

(** Every report of the analysis is well counted. *)
Definition allCounted (st : Analysis) : Prop :=
  wellCounted (aggregate (report st))
  /\ Forall wellCounted (functions (report st)).

End WalkNotions.

(* ================================================================== *)
(** * Notions the properties of the finalisation are stated with *)
(* ================================================================== *)

Section MetricNotions.

Import EsModule.

(** The average cyclomatic complexity of a module as the specification
    words it: over the function reports, or over the aggregate alone
    when there are none. *)
Definition averageCyclomatic (r : ModuleReport) : number :=
  match functions r with
  | [] => Num (IZR (cyclomatic (aggregate r)) / 1)
  | fs => Num (IZR (sumOver cyclomatic fs) / IZR (Z.of_nat (length fs)))
  end.

(** A number within a closed interval of the reals. *)
Definition within (lo hi : R) (m : number) : Prop :=
  match m with
  | Num x => (lo <= x <= hi)%R
  | _ => False
  end.

End MetricNotions.

(* ================================================================== *)
(** * Notions the properties of the matrices are stated with *)
(* ================================================================== *)

Section GraphNotions.

(** The graph given by an adjacency matrix: an edge where the cell is 1. *)
Definition edge (A : list (list Z)) (i j : nat) : Prop :=
  cell A i j = Some 1%Z.

(** A directed path of one or more edges. *)
Inductive reachable (A : list (list Z)) : nat -> nat -> Prop :=
| reachable_edge i j : edge A i j -> reachable A i j
| reachable_step i m j : edge A i m -> reachable A m j -> reachable A i j.

(** A chain of edges from [i] to [j] through the vertices [via]. *)
Fixpoint chain (A : list (list Z)) (i : nat) (via : list nat) (j : nat) : Prop :=
  match via with
  | [] => edge A i j
  | m :: via' => edge A i m /\ chain A m via' j
  end.

(** A path whose intermediate vertices are all below [k]. *)
Definition reachableBelow (A : list (list Z)) (k i j : nat) : Prop :=
  exists via, chain A i via j /\ Forall (fun m => (m < k)%nat) via.

Definition square {T} (n : nat) (m : list (list T)) : Prop :=
  length m = n /\ Forall (fun row => length row = n) m.

(** Every cell is 0 or 1. *)
Definition binary (A : list (list Z)) : Prop :=
  Forall (Forall (fun v => v = 0%Z \/ v = 1%Z)) A.

(** The distance in a cell is less than [Infinity]. *)
Definition finiteAt (D : list (list distance)) (i j : nat) : Prop :=
  exists v, cell D i j = Some (Finite v).

(** Every finite cell of [D] is finite in [D']. *)
Definition below (D D' : list (list distance)) : Prop :=
  forall i j, finiteAt D i j -> finiteAt D' i j.

(** The loop over [j] of [createVisibilityMatrix], for fixed [k] and [i]
    and a matrix of length [n]. *)
Definition columns (n k i : nat) (D : list (list distance)) : list (list distance) :=
  fold_left (fun D j => EsProject.relax k i j D) (seq 0 n) D.

(** The loop over [i], for fixed [k]. *)
Definition rows (n k : nat) (D : list (list distance)) : list (list distance) :=
  fold_left (fun D i => columns n k i D) (seq 0 n) D.

(** A finite distance stands for a path, or lies on the diagonal. *)
Definition sound (A : list (list Z)) (D : list (list distance)) : Prop :=
  forall a b, finiteAt D a b -> a = b \/ reachable A a b.

(** Within a matrix of length [n], the diagonal and the paths through
    vertices below [k] have a finite distance. *)
Definition complete (A : list (list Z)) (n k : nat)
    (D : list (list distance)) : Prop :=
  forall a b, (a < n)%nat -> (b < n)%nat ->
    a = b \/ reachableBelow A k a b -> finiteAt D a b.

End GraphNotions.

(* ================================================================== *)
(** * Notions the properties of the project analyser are stated with *)
(* ================================================================== *)

Section ProjectNotions.

Import EsModule.

(** A path that begins, as text, with ["./"] or ["../"] for the
    separator [sep]. *)
Definition relativePath (sep : ascii) (p : string) : bool :=
  String.prefix (String "."%char (String sep EmptyString)) p
  || String.prefix (String "."%char (String "."%char (String sep EmptyString))) p.

(** The adjacency matrix [createAdjacencyMatrix] builds for reports that
    are sorted already. *)
Definition adjacencyOf (pathlib : PathModule) (reports : list ModuleReport)
    : list (list Z) :=
  imap
    (fun x _ =>
       imap (fun y _ => EsProject.getAdjacencyMatrixValue pathlib reports x y)
         reports)
    reports.

(** The reports in the order [createAdjacencyMatrix] leaves them in. *)
Definition sortedReports (pathlib : PathModule) (reports : list ModuleReport)
    : list ModuleReport :=
  sort (fun lhs rhs => EsProject.comparePaths pathlib (path lhs) (path rhs))
    reports.

(** A finished module report with the given path and dependencies. *)
Definition moduleReport (p : string) (deps : list Dependency) : ModuleReport :=
  {| aggregate := createFunctionReport None None 0;
     dependencies := deps;
     functions := [];
     maintainability := Some (Num 171);
     report_loc := Some (Num 0);
     report_cyclomatic := Some (Num 1);
     report_effort := Some (Num 0);
     report_params := Some (Num 0);
     path := p |}.

Definition commonJS (p : string) : Dependency :=
  {| dep_type := "CommonJS"; dep_path := p; dep_line := None |}.

End ProjectNotions.

(* ================================================================== *)
(** * Inputs of the examples *)
(* ================================================================== *)

Section ExampleInputs.

Import EsModule.

Definition emptyAst : Ast unit := {| loc := None; root := tt |}.

Definition noSyntax : Syntax unit :=
  {| syntax_lloc := CounterAbsent; syntax_cyclomatic := CounterAbsent;
     syntax_operators := None; syntax_operands := None;
     syntax_dependencies := None |}.

(** One function that is entered and left, with one statement in it. *)
Definition oneFunctionWalk : list (Callback unit) :=
  [ CreateScope (Some "f") None 0;
    ProcessNode tt
      {| syntax_lloc := CounterNumber 1; syntax_cyclomatic := CounterAbsent;
         syntax_operators := None; syntax_operands := None;
         syntax_dependencies := None |};
    PopScope ].

(** A descriptor whose [dependencies] function returns [result]. *)
Definition dependencySyntax (result : DependencyResult) : Syntax unit :=
  {| syntax_lloc := CounterAbsent; syntax_cyclomatic := CounterAbsent;
     syntax_operators := None; syntax_operands := None;
     syntax_dependencies := Some (fun _ _ => result) |}.

(** A descriptor with the given operator identifiers and one logical
    line. *)
Definition operatorSyntax (names : list string) : Syntax unit :=
  {| syntax_lloc := CounterNumber 1; syntax_cyclomatic := CounterNumber 1;
     syntax_operators :=
       Some ((fun s => {| identifier := IdentifierString s; filter := None |})
               <$> names);
     syntax_operands := None;
     syntax_dependencies := None |}.

(** A statement at the top level, a function with two statements, and a
    statement after it. *)
Definition mixedWalk : list (Callback unit) :=
  [ ProcessNode tt (operatorSyntax ["="]);
    CreateScope (Some "f") None 1;
    ProcessNode tt (operatorSyntax ["+"; "="]);
    ProcessNode tt (operatorSyntax ["+"]);
    PopScope;
    ProcessNode tt (operatorSyntax ["()"]) ].

Definition newmiSettings : Settings :=
  {| forin := false; logicalor := true; newmi := true;
     switchcase := true; trycatch := false |}.

(** A module without functions: ten million logical lines, one operator
    and one operand. *)
Definition longModuleWalk : list (Callback unit) :=
  [ ProcessNode tt
      {| syntax_lloc := CounterNumber 10000000;
         syntax_cyclomatic := CounterAbsent;
         syntax_operators :=
           Some [ {| identifier := IdentifierString "+"; filter := None |} ];
         syntax_operands :=
           Some [ {| identifier := IdentifierString "x"; filter := None |} ];
         syntax_dependencies := None |} ].

(** Modules in the working directory ["/"]. *)
Definition posixRoot : PathModule := Posix.posix "/".

Definition moduleA : ModuleReport := moduleReport "a.js" [commonJS "./b"].
Definition moduleB : ModuleReport := moduleReport "b.js" [].
Definition moduleZ : ModuleReport := moduleReport "z.js" [commonJS "./b"].

(** The chain of three modules [a.js -> b.js -> c.js]. *)
Definition chain3 : list ModuleReport :=
  [ moduleReport "c.js" [];
    moduleReport "a.js" [commonJS "./b"];
    moduleReport "b.js" [commonJS "./c"] ].

Definition allOptions (skip noCore : bool) : EsProject.Options :=
  {| EsProject.settings := defaultSettings;
     EsProject.skipCalculation := skip;
     EsProject.noCoreSize := noCore |}.

End ExampleInputs.

(* ================================================================== *)
(** * Notions for the further properties *)
(* ================================================================== *)

Section FurtherNotions.

Import EsModule.
Context {Node : Type}.

(** The name an identifier is recorded under: an own property name of
    [Object.prototype] gets one underscore in front. *)
Definition guarded (s : string) : string :=
  if hasOwnProperty s then ("_" ++ s)%string else s.

(** [s] is among [l], by string equality. *)
Definition member (s : string) (l : list string) : bool :=
  existsb (String.eqb s) l.

(** The distinct names of [ids] that are not in [seen], appended to
    [seen] in the order of their first occurrence. *)
Fixpoint firstSeen (seen ids : list string) : list string :=
  match ids with
  | [] => seen
  | s :: ids' =>
      if member s seen then firstSeen seen ids'
      else firstSeen (seen ++ [s]) ids'
  end.

(** A bag records what it counts: [distinct] is the number of recorded
    identifiers, these are pairwise different, none of them is an own
    property name of [Object.prototype], [distinct] is at most [total],
    and nothing is recorded only if nothing was encountered. *)
Definition bagSound (b : HalsteadItemState) : Prop :=
  distinct b = Z.of_nat (length (identifiers b))
  /\ NoDup (identifiers b)
  /\ Forall (fun s => hasOwnProperty s = false) (identifiers b)
  /\ (distinct b <= total b)%Z
  /\ (identifiers b = [] -> total b = 0%Z).

Definition bagsSound (r : FunctionReport) : Prop :=
  bagSound (operators (halstead r)) /\ bagSound (operands (halstead r)).

(** What [createScope] fixes of a function report. *)
Definition scopeFields (f : FunctionReport)
    : option string * Z * option Z * option Z :=
  (name f, params f, line f, physical (sloc f)).

(** The scopes a walk opens, in order: name, location and parameter
    count of each [createScope] call. *)
Fixpoint scopesOf (calls : list (Callback Node)) : list (option string * option Loc * Z) :=
  match calls with
  | [] => []
  | CreateScope name loc parameterCount :: calls' =>
      (name, loc, parameterCount) :: scopesOf calls'
  | _ :: calls' => scopesOf calls'
  end.

(** The dependency records a walk collects when the latch has the value
    [clear] at its start: what each [dependencies] function returns, in
    call order, an array contributing its elements and a value that is
    no object contributing nothing. *)
Fixpoint collected (clear : bool) (calls : list (Callback Node)) : list Dependency :=
  match calls with
  | [] => []
  | ProcessNode node syntax :: calls' =>
      match syntax_dependencies syntax with
      | Some f => concat_dependencies [] (f node clear) ++ collected false calls'
      | None => collected clear calls'
      end
  | _ :: calls' => collected clear calls'
  end.

(** A real number that is not negative. *)
Definition nonnegReal (a : number) : Prop :=
  match a with
  | Num x => (0 <= x)%R
  | _ => False
  end.

(** The Halstead scalars are there, and are real numbers that are not
    negative. *)
Definition finiteMetrics (h : Halstead) : Prop :=
  exists m,
    metrics h = Some m
    /\ h_length m = (total (operators h) + total (operands h))%Z
    /\ (0 <= vocabulary m)%Z
    /\ nonnegReal (difficulty m) /\ nonnegReal (volume m)
    /\ nonnegReal (effort m) /\ nonnegReal (bugs m) /\ nonnegReal (time m).

(** [(cyclomatic / logical) * 100] for a positive [cyclomatic] and a
    [logical] that is not negative. *)
Definition densityOf (cyclomatic logical : Z) : number :=
  if (logical =? 0)%Z then Infinity
  else Num (IZR cyclomatic / IZR logical * 100).

End FurtherNotions.

Section FurtherProjectNotions.

Import EsModule.

Variable pathlib : PathModule.

(** The number of segments of a path, as [comparePaths] counts them. *)
Definition depth (p : string) : nat := length (split (sep pathlib) p).

(** [lhs] may stand before [rhs] in the sorted reports. *)
Definition pathOrder (lhs rhs : ModuleReport) : Prop :=
  (EsProject.comparePaths pathlib (path lhs) (path rhs) <= 0)%Z.

(** The number of elements of [l] that satisfy [p]. *)
Definition countIf {T} (p : T -> bool) (l : list T) : Z :=
  Z.of_nat (length (List.filter p l)).

(** The number of cells of [m] that satisfy [p]. *)
Definition countCells {T} (p : T -> bool) (m : list (list T)) : Z :=
  fold_right (fun row n => (countIf p row + n)%Z) 0%Z m.

(** A percentage: a real number from 0 to 100. *)
Definition percentage (a : number) : Prop :=
  match a with
  | Num x => (0 <= x <= 100)%R
  | _ => False
  end.

(** The matrix of [n] rows and [n] columns that holds 0 everywhere. *)
Definition zeroMatrix (n : nat) : list (list Z) :=
  replicate n (replicate n 0%Z).

(** The keys [calculateAverages] sums: the field of a module report and
    the field of the result that holds its average. *)
Definition averageKeys
    : list ((ModuleReport -> option number)
            * (EsProject.Result -> option number)) :=
  [ (report_cyclomatic, EsProject.result_cyclomatic);
    (report_effort, EsProject.result_effort);
    (report_loc, EsProject.result_loc);
    (maintainability, EsProject.result_maintainability);
    (report_params, EsProject.result_params) ].

(** The real number a field holds; 0 when it holds none. *)
Definition realValue (o : option number) : R :=
  match o with
  | Some (Num x) => x
  | _ => 0%R
  end.

(** The sum of a field over the reports. *)
Definition realSum (get : ModuleReport -> option number)
    (l : list ModuleReport) : R :=
  fold_right (fun m s => (realValue (get m) + s)%R) 0%R l.

(** The sum of row [i] and the sum of column [j] of a matrix. *)
Definition rowSum (m : list (list Z)) (i : nat) : Z :=
  EsProject.sum_row (default [] (m !! i)).

Definition colSum (m : list (list Z)) (j : nat) : Z :=
  EsProject.sum_row ((fun row => default 0%Z (row !! j)) <$> m).

End FurtherProjectNotions.

Section FurtherExampleInputs.

Import EsModule.

(** Two source files, each analysed with the walk of one function. *)
Definition sourceA : EsProject.ModuleInput unit :=
  {| EsProject.input_ast := emptyAst; EsProject.input_path := "a.js" |}.

Definition sourceB : EsProject.ModuleInput unit :=
  {| EsProject.input_ast := emptyAst; EsProject.input_path := "b.js" |}.

Definition oneFunctionWalker : Walker unit := fun _ _ => oneFunctionWalk.

(** Two modules without a dependency between them: one requires
    itself, the other one requires a package. *)
Definition independentModules : list ModuleReport :=
  [ moduleReport "a.js" [commonJS "./a"];
    moduleReport "c.js" [commonJS "lodash"] ].

(** A result in which [a.js] depends on [b.js]. *)
Definition oneEdgeResult : EsProject.Result :=
  {| EsProject.reports := [moduleA; moduleB];
     EsProject.adjacencyMatrix := Some [[0; 1]; [0; 0]]%Z;
     EsProject.firstOrderDensity := Some (Num 25);
     EsProject.visibilityMatrix := Some [[0; 1]; [0; 0]]%Z;
     EsProject.changeCost := Some (Num 75);
     EsProject.coreSize := None;
     EsProject.result_cyclomatic := None;
     EsProject.result_effort := None;
     EsProject.result_loc := None;
     EsProject.result_maintainability := None;
     EsProject.result_params := None |}.

End FurtherExampleInputs.

Section FurtherModuleNotions.

Import EsModule.

(** The Halstead effort of a finalised report, as a real number. *)
Definition effortOf (f : FunctionReport) : R :=
  realValue (effort <$> metrics (halstead f)).

Definition realTotal (l : list R) : R := fold_right Rplus 0%R l.

End FurtherModuleNotions.

(* ================================================================== *)
(** * Properties of the Halstead accumulator *)
(* ================================================================== *)

Section HalsteadAccumulator.

Import EsModule.

Lemma existsb_eqb_In (s : string) (l : list string) :
  existsb (String.eqb s) l = true <-> In s l.
Proof.
  rewrite existsb_exists. split.
  - intros (x & Hin & Heq). apply String.eqb_eq in Heq. now subst.
  - intros Hin. exists s. split; [assumption | apply String.eqb_refl].
Qed.

Lemma hasOwnProperty_names (s : string) :
  hasOwnProperty s = true -> In s objectPrototypeNames.
Proof. apply existsb_eqb_In. Qed.

Lemma hasOwnProperty_prefixed (s : string) :
  hasOwnProperty s = true -> hasOwnProperty ("_" ++ s)%string = false.
Proof.
  intros H. apply hasOwnProperty_names in H.
  unfold objectPrototypeNames in H.
  repeat (destruct H as [<- | H]; [ vm_compute; reflexivity |]).
  destruct H.
Qed.

Lemma hasOwnProperty_length (s : string) :
  hasOwnProperty s = true -> (String.length s <= 20)%nat.
Proof.
  intros H. apply hasOwnProperty_names in H.
  unfold objectPrototypeNames in H.
  repeat (destruct H as [<- | H]; [ vm_compute; lia |]).
  destruct H.
Qed.

Lemma incrementDistinctHalsteadItems_rec_S fuel base metric id :
  incrementDistinctHalsteadItems_rec (S fuel) base metric id =
    if hasOwnProperty id then
      incrementDistinctHalsteadItems_rec fuel base metric ("_" ++ id)%string
    else if isHalsteadMetricDistinct base metric id then
      Some (incrementHalsteadMetric
              (recordDistinctHalsteadMetric base metric id) metric Distinct)
    else Some base.
Proof. reflexivity. Qed.

(** The recursion on the prefixed name always ends within the fuel. *)
Lemma incrementDistinctHalsteadItems_rec_Some fuel base metric id :
  (21 <= fuel + String.length id)%nat ->
  is_Some (incrementDistinctHalsteadItems_rec (S fuel) base metric id).
Proof.
  revert id. induction fuel as [|fuel IH]; intros id Hlen;
    rewrite incrementDistinctHalsteadItems_rec_S;
    destruct (hasOwnProperty id) eqn:Hown.
  - apply hasOwnProperty_length in Hown. lia.
  - destruct isHalsteadMetricDistinct; eauto.
  - apply IH. change ("_" ++ id)%string with (String "_" id).
    cbn [String.length]. lia.
  - destruct isHalsteadMetricDistinct; eauto.
Qed.

Lemma incrementDistinctHalsteadItems_total base metric id :
  is_Some (incrementDistinctHalsteadItems_rec guardFuel base metric id).
Proof. apply incrementDistinctHalsteadItems_rec_Some. lia. Qed.

Lemma incrementDistinctHalsteadItems_own base metric s :
  hasOwnProperty s = true ->
  incrementDistinctHalsteadItems base metric s =
    if isHalsteadMetricDistinct base metric ("_" ++ s)%string
    then incrementHalsteadMetric
           (recordDistinctHalsteadMetric base metric ("_" ++ s)%string)
           metric Distinct
    else base.
Proof.
  intros H. unfold incrementDistinctHalsteadItems.
  change guardFuel with (S (S 20)).
  rewrite !incrementDistinctHalsteadItems_rec_S, H, (hasOwnProperty_prefixed _ H).
  destruct isHalsteadMetricDistinct; reflexivity.
Qed.

Lemma incrementDistinctHalsteadItems_plain base metric s :
  hasOwnProperty s = false ->
  incrementDistinctHalsteadItems base metric s =
    if isHalsteadMetricDistinct base metric s
    then incrementHalsteadMetric
           (recordDistinctHalsteadMetric base metric s) metric Distinct
    else base.
Proof.
  intros H. unfold incrementDistinctHalsteadItems.
  change guardFuel with (S 21).
  rewrite incrementDistinctHalsteadItems_rec_S, H.
  destruct isHalsteadMetricDistinct; reflexivity.
Qed.

Lemma bag_with_metric metric f r :
  bag metric (with_halstead (with_metric metric f) r) = f (bag metric r).
Proof. destruct metric; reflexivity. Qed.

Lemma bag_incrementTotal metric r :
  bag metric (incrementTotalHalsteadItems r metric) =
    {| distinct := distinct (bag metric r);
       identifiers := identifiers (bag metric r);
       total := total (bag metric r) + 1 |}.
Proof.
  unfold incrementTotalHalsteadItems, incrementHalsteadMetric.
  now rewrite bag_with_metric.
Qed.

Lemma bag_record_distinct metric r s :
  bag metric (incrementHalsteadMetric
                (recordDistinctHalsteadMetric r metric s) metric Distinct) =
    {| distinct := distinct (bag metric r) + 1;
       identifiers := identifiers (bag metric r) ++ [s];
       total := total (bag metric r) |}.
Proof.
  unfold incrementHalsteadMetric, recordDistinctHalsteadMetric.
  now rewrite !bag_with_metric.
Qed.

(** C10: an own property name of [Object.prototype] and its prefixed form
    are counted as one identifier.  After [s] and then ["_" ++ s] are
    encountered, the second encounter has left [identifiers] and
    [distinct] as they were and added one to [total]; in a bag that was
    empty, [identifiers] is [["_" ++ s]], [distinct] is 1 and [total] is
    2, although the two raw identifiers differ. *)
Theorem builtin_guard_conflates (base : FunctionReport) (metric : Metric)
    (s : string) :
  hasOwnProperty s = true ->
  let once := incrementHalsteadItems base metric s in
  let twice := incrementHalsteadItems once metric ("_" ++ s)%string in
  ("_" ++ s)%string <> s
  /\ identifiers (bag metric twice) = identifiers (bag metric once)
  /\ distinct (bag metric twice) = distinct (bag metric once)
  /\ total (bag metric twice) = (total (bag metric once) + 1)%Z
  /\ (bag metric base = createInitialHalsteadItemState ->
      bag metric twice =
        {| distinct := 1; identifiers := ["_" ++ s]%string; total := 2 |}).
Proof.
  intros Hown once twice.
  assert (Hin : In ("_" ++ s)%string (identifiers (bag metric once))).
  { subst once. unfold incrementHalsteadItems.
    rewrite bag_incrementTotal. cbn [identifiers].
    rewrite (incrementDistinctHalsteadItems_own _ _ _ Hown).
    destruct (isHalsteadMetricDistinct base metric ("_" ++ s)%string) eqn:Hd.
    - rewrite bag_record_distinct. cbn [identifiers].
      apply in_or_app. right. now left.
    - unfold isHalsteadMetricDistinct in Hd.
      apply negb_false_iff, existsb_eqb_In in Hd. exact Hd. }
  assert (Htwice : bag metric twice =
            {| distinct := distinct (bag metric once);
               identifiers := identifiers (bag metric once);
               total := total (bag metric once) + 1 |}).
  { subst twice. unfold incrementHalsteadItems at 1.
    rewrite bag_incrementTotal.
    rewrite (incrementDistinctHalsteadItems_plain _ _ _
               (hasOwnProperty_prefixed _ Hown)).
    replace (isHalsteadMetricDistinct once metric ("_" ++ s)%string) with false.
    - reflexivity.
    - symmetry. unfold isHalsteadMetricDistinct.
      apply negb_false_iff, existsb_eqb_In. exact Hin. }
  rewrite Htwice. cbn [identifiers distinct total].
  split; [| repeat split].
  - intros Heq. apply (f_equal String.length) in Heq.
    change ("_" ++ s)%string with (String "_" s) in Heq.
    cbn [String.length] in Heq. lia.
  - intros Hbase. subst once. unfold incrementHalsteadItems.
    rewrite bag_incrementTotal. cbn [identifiers distinct total].
    rewrite (incrementDistinctHalsteadItems_own _ _ _ Hown).
    unfold isHalsteadMetricDistinct. fold (bag metric base).
    rewrite Hbase. cbn [identifiers createInitialHalsteadItemState existsb negb].
    rewrite bag_record_distinct, Hbase. reflexivity.
Qed.

Lemma builtin_guard_conflates_witness :
  hasOwnProperty "toString" = true
  /\ bag Operands
       (incrementHalsteadItems
          (incrementHalsteadItems (createFunctionReport None None 0)
             Operands "toString")
          Operands "_toString") =
     {| distinct := 1; identifiers := ["_toString"]; total := 2 |}.
Proof.
  split; [reflexivity |].
  apply (builtin_guard_conflates (createFunctionReport None None 0)
           Operands "toString"); reflexivity.
Defined.

End HalsteadAccumulator.

(* ================================================================== *)
(** * Properties of a walk *)
(* ================================================================== *)

Section WalkProperties.

Import EsModule.
Context {Node : Type}.

Implicit Types (st : @Analysis) (c : Callback Node) (calls : list (Callback Node)).

Lemma walk_cons c calls st :
  walk (c :: calls) st = walk calls (callback st c).
Proof. reflexivity. Qed.

Lemma walk_app calls1 calls2 st :
  walk (calls1 ++ calls2) st = walk calls2 (walk calls1 st).
Proof. unfold walk. apply fold_left_app. Qed.

(** *** The shape of [processNode] *)

Lemma both_compose cur f g r :
  both cur g (both cur f r) = both cur (fun b => g (f b)) r.
Proof.
  destruct r, cur; unfold both, with_aggregate, with_current, with_function,
    with_functions; cbn; f_equal.
  apply (list_alter_alter_eq g f).
Qed.

Lemma both_id cur r : both cur (fun b => b) r = r.
Proof.
  destruct r, cur; unfold both, with_aggregate, with_current, with_function,
    with_functions; cbn; f_equal.
  apply list_alter_id. reflexivity.
Qed.

Lemma both_ext cur f g r :
  (forall b, f b = g b) -> both cur f r = both cur g r.
Proof.
  intros Hfg.
  destruct r, cur; unfold both, with_aggregate, with_current, with_function,
    with_functions; cbn; f_equal; auto.
  apply list_alter_ext; auto.
Qed.

Lemma incrementLogicalSloc_both r cur amount :
  incrementLogicalSloc r cur amount = both cur (with_logical (Z.add amount)) r.
Proof. destruct r, cur; reflexivity. Qed.

Lemma incrementCyclomatic_both r cur amount :
  incrementCyclomatic r cur amount = both cur (with_cyclomatic (Z.add amount)) r.
Proof. destruct r, cur; reflexivity. Qed.

Lemma processLloc_both (node : Node) syntax r cur :
  processLloc node syntax r cur =
    both cur (with_logical (Z.add (lloc_amount node syntax))) r.
Proof.
  unfold processLloc, incrementCounter, lloc_amount, counter_amount.
  destruct (syntax_lloc syntax); rewrite ?incrementLogicalSloc_both; try reflexivity.
  rewrite <- (both_id cur r) at 1. apply both_ext.
  intros [? ? ? ? [] ? ?]; reflexivity.
Qed.

Lemma processCyclomatic_both (node : Node) syntax r cur :
  processCyclomatic node syntax r cur =
    both cur (with_cyclomatic (Z.add (cyclomatic_amount node syntax))) r.
Proof.
  unfold processCyclomatic, incrementCounter, cyclomatic_amount, counter_amount.
  destruct (syntax_cyclomatic syntax); rewrite ?incrementCyclomatic_both;
    try reflexivity.
  rewrite <- (both_id cur r) at 1. apply both_ext.
  intros []; reflexivity.
Qed.

Lemma processHalsteadMetric_both (node : Node) syntax metric r cur :
  processHalsteadMetric node syntax metric r cur =
    both cur (halsteadEffect metric node syntax) r.
Proof.
  unfold processHalsteadMetric, halsteadEffect.
  destruct (syntax_metric metric syntax) as [items|]; [| now rewrite both_id].
  revert r. induction items as [|s items IH]; intros r.
  - now rewrite both_id.
  - cbn [fold_left]. rewrite IH.
    destruct (passes_filter node s); [| reflexivity].
    unfold halsteadItemEncountered.
    fold (both cur (fun b => incrementHalsteadItems b metric (identifier_of node s)) r).
    now rewrite both_compose.
Qed.

Lemma with_dependencies_both f cur g r :
  with_dependencies f (both cur g r) = both cur g (with_dependencies f r).
Proof. destruct r, cur; reflexivity. Qed.

(** [processNode] applies one and the same update to the aggregate and
    to the current report, and touches nothing else but the
    dependencies. *)
Lemma processNode_report st (node : Node) syntax :
  exists deps,
    report (processNode st node syntax) =
      with_dependencies deps
        (both (currentReport st) (nodeEffect node syntax) (report st)).
Proof.
  unfold processNode, processDependencies, callDependencies, processOperands,
    processOperators.
  rewrite processLloc_both, processCyclomatic_both,
    !processHalsteadMetric_both, !both_compose.
  destruct (syntax_dependencies syntax) as [f|]; cbn [report].
  - eexists. reflexivity.
  - exists (fun ds => ds).
    now destruct (both _ _ _).
Qed.

(** *** What an encounter changes in a report *)

Lemma incrementDistinctHalsteadItems_cases base metric id :
  incrementDistinctHalsteadItems base metric id = base
  \/ exists id',
       incrementDistinctHalsteadItems base metric id =
         incrementHalsteadMetric
           (recordDistinctHalsteadMetric base metric id') metric Distinct.
Proof.
  unfold incrementDistinctHalsteadItems. generalize guardFuel as fuel.
  intros fuel. revert id. induction fuel as [|fuel IH]; intros id.
  - now left.
  - rewrite incrementDistinctHalsteadItems_rec_S.
    destruct (hasOwnProperty id); [apply IH |].
    destruct isHalsteadMetricDistinct; [right; eauto | now left].
Qed.


Lemma incrementHalsteadItems_frame b metric id :
  let b' := incrementHalsteadItems b metric id in
  cyclomatic b' = cyclomatic b /\ sloc b' = sloc b /\ name b' = name b
  /\ params b' = params b /\ line b' = line b
  /\ cyclomaticDensity b' = cyclomaticDensity b
  /\ metrics (halstead b') = metrics (halstead b).
Proof.
  unfold incrementHalsteadItems.
  destruct (incrementDistinctHalsteadItems_cases b metric id) as [-> | [id' ->]];
    destruct metric; cbn; repeat split; reflexivity.
Qed.


Lemma halsteadEffect_frame metric (node : Node) syntax b :
  let b' := halsteadEffect metric node syntax b in
  cyclomatic b' = cyclomatic b /\ sloc b' = sloc b /\ name b' = name b
  /\ params b' = params b /\ line b' = line b
  /\ cyclomaticDensity b' = cyclomaticDensity b
  /\ metrics (halstead b') = metrics (halstead b).
Proof.
  unfold halsteadEffect.
  destruct (syntax_metric metric syntax) as [items|]; [| cbn; tauto].
  revert b. induction items as [|s items IH]; intros b.
  - cbn; tauto.
  - cbn [fold_left]. cbv zeta in IH |- *.
    destruct (passes_filter node s); [| apply IH].
    destruct (IH (incrementHalsteadItems b metric (identifier_of node s)))
      as (-> & -> & -> & -> & -> & -> & ->).
    apply incrementHalsteadItems_frame.
Qed.





(** *** The analyser's variables stay consistent *)

Lemma functions_both cur g r :
  functions (both cur g r) =
    match cur with
    | Some ref => alter g ref (functions r)
    | None => functions r
    end.
Proof. destruct r, cur; reflexivity. Qed.

Lemma aggregate_both cur g r :
  aggregate (both cur g r) = g (aggregate r).
Proof. destruct r, cur; reflexivity. Qed.

Lemma functions_processNode st (node : Node) syntax :
  functions (report (processNode st node syntax)) =
    match currentReport st with
    | Some ref => alter (nodeEffect node syntax) ref (functions (report st))
    | None => functions (report st)
    end.
Proof.
  destruct (processNode_report st node syntax) as [deps ->].
  rewrite <- functions_both. now destruct (both _ _ _).
Qed.

Lemma aggregate_processNode st (node : Node) syntax :
  aggregate (report (processNode st node syntax)) =
    nodeEffect node syntax (aggregate (report st)).
Proof.
  destruct (processNode_report st node syntax) as [deps ->].
  rewrite <- aggregate_both with (cur := currentReport st).
  now destruct (both _ _ _).
Qed.

Lemma processNode_stack st (node : Node) syntax :
  scopeStack (processNode st node syntax) = scopeStack st
  /\ currentReport (processNode st node syntax) = currentReport st.
Proof.
  unfold processNode. destruct (processDependencies _ _ _ _) as [[? ?] ?].
  split; reflexivity.
Qed.

Lemma length_functions_processNode st (node : Node) syntax :
  length (functions (report (processNode st node syntax))) =
    length (functions (report st)).
Proof.
  rewrite functions_processNode.
  destruct (currentReport st); [apply length_alter | reflexivity].
Qed.

Lemma functions_pushScope st name loc parameterCount :
  functions (report (pushScope st name loc parameterCount)) =
    functions (report st) ++ [createFunctionReport name loc parameterCount].
Proof. reflexivity. Qed.

Lemma removelast_cases {A} (l : list A) :
  l = [] /\ removelast l = []
  \/ exists x, l = removelast l ++ [x].
Proof.
  destruct l as [|a l] using rev_ind; [now left | right].
  exists a. now rewrite removelast_last.
Qed.

Lemma consistent_initial (ast : Ast Node) : consistent (initial ast).
Proof. repeat split; constructor. Qed.

Lemma consistent_callback st c :
  consistent st -> consistent (callback st c).
Proof.
  intros (Hcur & Hrefs & Hnodup). destruct c as [name loc n | | node syntax].
  - unfold consistent. cbn [callback]. rewrite functions_pushScope.
    cbn [currentReport scopeStack pushScope]. split; [| split].
    + now rewrite last_snoc.
    + rewrite Forall_app, length_app. cbn [length]. split.
      * eapply Forall_impl; [exact Hrefs |]. cbn. intros; lia.
      * constructor; [lia | constructor].
    + apply NoDup_app. split; [assumption |]. split.
      * intros x Hx Hin. apply list_elem_of_singleton in Hin. subst x.
        rewrite Forall_forall in Hrefs. apply Hrefs in Hx. lia.
      * apply NoDup_singleton.
  - unfold consistent. cbn [callback popScope currentReport scopeStack report].
    split; [reflexivity |].
    destruct (removelast_cases (scopeStack st)) as [[_ ->] | [x Hx]].
    + split; constructor.
    + rewrite Hx in Hrefs, Hnodup.
      apply Forall_app in Hrefs as [Hrefs _].
      apply NoDup_app in Hnodup as [Hnodup _]. now split.
  - unfold consistent. cbn [callback].
    destruct (processNode_stack st node syntax) as [-> ->].
    rewrite length_functions_processNode. now repeat split.
Qed.

Lemma consistent_walk calls st :
  consistent st -> consistent (walk calls st).
Proof.
  revert st. induction calls as [|c calls IH]; intros st Hst; [exact Hst |].
  rewrite walk_cons. apply IH, consistent_callback, Hst.
Qed.


(** *** The aggregate against the function reports *)

Lemma sumOver_app f l1 l2 :
  sumOver f (l1 ++ l2) = (sumOver f l1 + sumOver f l2)%Z.
Proof.
  unfold sumOver. induction l1 as [|x l1 IH]; cbn [app fold_right]; lia.
Qed.


Section Measure.

(** A quantity of a function report that a node adds [amount] to, that
    is zero in a new report and that the parameter count is no part
    of. *)
Variable measure : FunctionReport -> Z.
Variable amount : Node -> Syntax Node -> Z.
Hypothesis measure_node :
  forall node syntax b,
    measure (nodeEffect node syntax b) = (measure b + amount node syntax)%Z.
Hypothesis measure_new :
  forall name loc n, measure (createFunctionReport name loc n) = 0%Z.
Hypothesis measure_params :
  forall f b, measure (with_params f b) = measure b.



End Measure.


(** *** The dependency latch *)

Lemma processNode_latch st (node : Node) syntax :
  let st' := processNode st node syntax in
  match syntax_dependencies syntax with
  | Some _ =>
      dependencyCalls st' = dependencyCalls st ++ [clearDependencies st]
      /\ clearDependencies st' = false
  | None =>
      dependencyCalls st' = dependencyCalls st
      /\ clearDependencies st' = clearDependencies st
  end.
Proof.
  unfold processNode, processDependencies, callDependencies.
  destruct (syntax_dependencies syntax); cbn; [tauto |].
  now rewrite app_nil_r.
Qed.

Lemma latch_walk calls st :
  let n := length (List.filter callsDependencies calls) in
  dependencyCalls (walk calls st) =
    dependencyCalls st ++ latchFlags (clearDependencies st) n
  /\ clearDependencies (walk calls st) =
       match n with O => clearDependencies st | S _ => false end.
Proof.
  revert st. induction calls as [|c calls IH]; intros st.
  - cbn. now rewrite app_nil_r.
  - rewrite walk_cons. cbv zeta in IH |- *.
    destruct (IH (callback st c)) as [-> ->]. clear IH.
    destruct c as [name loc k | | node syntax]; cbn [List.filter callsDependencies].
    1,2: split; reflexivity.
    pose proof (processNode_latch st node syntax) as H. cbv zeta in H.
    cbn [callback].
    destruct (syntax_dependencies syntax); destruct H as [-> ->].
    + cbn [length latchFlags]. rewrite <- app_assoc. split.
      * f_equal. cbn [app]. f_equal.
        now destruct (length (List.filter callsDependencies calls)).
      * now destruct (length (List.filter callsDependencies calls)).
    + split; reflexivity.
Qed.

Lemma concat_dependencies_app (ds : list Dependency) (r : DependencyResult) :
  concat_dependencies ds r = ds ++ concat_dependencies [] r.
Proof. destruct r; cbn; now rewrite ?app_nil_r. Qed.

Lemma dependencies_both cur g r : dependencies (both cur g r) = dependencies r.
Proof. destruct r, cur; reflexivity. Qed.

Lemma dependencies_processNode st (node : Node) syntax :
  dependencies (report (processNode st node syntax)) =
    match syntax_dependencies syntax with
    | Some f =>
        dependencies (report st)
        ++ concat_dependencies [] (f node (clearDependencies st))
    | None => dependencies (report st)
    end.
Proof.
  unfold processNode, processDependencies, callDependencies, processOperands,
    processOperators.
  rewrite processLloc_both, processCyclomatic_both,
    !processHalsteadMetric_both, !both_compose.
  destruct (syntax_dependencies syntax) as [f|]; cbn [report].
  - destruct (report st), (currentReport st);
      cbn [both with_aggregate with_current with_function with_functions
           with_dependencies dependencies];
      apply concat_dependencies_app.
  - apply dependencies_both.
Qed.

Lemma collected_walk calls st :
  dependencies (report (walk calls st)) =
    dependencies (report st) ++ collected (clearDependencies st) calls.
Proof.
  revert st. induction calls as [|c calls IH]; intros st.
  - cbn. now rewrite app_nil_r.
  - rewrite walk_cons, IH. destruct c as [name loc n | | node syntax];
      cbn [callback collected].
    + cbn [pushScope report clearDependencies]. now destruct (report st).
    + reflexivity.
    + rewrite dependencies_processNode.
      pose proof (processNode_latch st node syntax) as H. cbv zeta in H.
      destruct (syntax_dependencies syntax); destruct H as [_ ->].
      * now rewrite <- app_assoc.
      * reflexivity.
Qed.

Lemma collected_flags (clear : bool) calls :
  collected clear calls =
    concat
      (imap (fun k '(node, f) =>
               recordsOf (f node (if (k =? 0)%nat then clear else false)))
         (dependencyFunctions calls)).
Proof.
  revert clear. induction calls as [|c calls IH]; intros clear; [reflexivity |].
  destruct c as [name loc n | | node syntax];
    cbn [collected dependencyFunctions]; try apply IH.
  destruct (syntax_dependencies syntax) as [f|]; [| apply IH].
  cbn [imap concat Nat.eqb]. rewrite IH.
  assert (Hfirst : concat_dependencies [] (f node clear)
                   = recordsOf (f node clear))
    by now destruct (f node clear).
  rewrite Hfirst. do 2 f_equal.
  apply imap_ext. intros k [node' f'] _. cbn [compose Nat.eqb].
  now destruct (k =? 0)%nat.
Qed.

(** C7: in one walk the [clearFlag] handed to a [dependencies] function
    is [true] at the first call made to any such function and [false] at
    every later call, whatever the functions return.  The flags of the
    [n] calls of the walk are [true] followed by [n - 1] times [false];
    the latch is still set after the walk only if no call was made; and
    what the walk leaves in [report.dependencies] is, for the functions
    reached in call order, what the first returns for the flag [true]
    and each later one for the flag [false]. *)
Theorem clearFlag_first_call_only (ast : Ast Node) calls :
  let n := length (List.filter callsDependencies calls) in
  dependencyCalls (walk calls (initial ast)) =
    match n with
    | O => []
    | S n' => true :: replicate n' false
    end
  /\ clearDependencies (walk calls (initial ast)) = (n =? 0)%nat
  /\ dependencies (report (walk calls (initial ast))) =
       concat
         (imap (fun k '(node, f) => recordsOf (f node (k =? 0)%nat))
            (dependencyFunctions calls)).
Proof.
  cbv zeta. destruct (latch_walk calls (initial ast)) as [-> ->].
  split; [reflexivity |].
  split; [now destruct (length (List.filter callsDependencies calls)) |].
  rewrite collected_walk, collected_flags. cbn [initial report createReport
    dependencies clearDependencies app].
  f_equal. apply imap_ext. intros k [node f] _.
  now destruct (k =? 0)%nat.
Qed.

(** *** Function reports off the top of the stack *)

Lemma callback_frame st c idx fr :
  consistent st ->
  functions (report st) !! idx = Some fr ->
  last (scopeStack st) <> Some idx ->
  functions (report (callback st c)) !! idx = Some fr.
Proof.
  intros Hst Hfr Htop. destruct c as [name loc n | | node syntax].
  - cbn [callback]. rewrite functions_pushScope.
    now apply lookup_app_l_Some.
  - exact Hfr.
  - cbn [callback]. rewrite functions_processNode.
    destruct Hst as (Hcur & _). rewrite Hcur.
    destruct (last (scopeStack st)) as [ref|]; [| exact Hfr].
    rewrite list_lookup_alter_ne; [exact Hfr | congruence].
Qed.

Lemma popped_callback st c idx :
  consistent st ->
  (idx < length (functions (report st)))%nat ->
  idx ∉ scopeStack st ->
  idx ∉ scopeStack (callback st c).
Proof.
  intros Hst Hidx Hout. destruct c as [name loc n | | node syntax].
  - cbn [callback pushScope scopeStack]. rewrite not_elem_of_app.
    split; [exact Hout |]. rewrite list_elem_of_singleton. lia.
  - cbn [callback popScope scopeStack].
    destruct (removelast_cases (scopeStack st)) as [[_ ->] | [x Hx]].
    + apply not_elem_of_nil.
    + rewrite Hx in Hout. now apply not_elem_of_app in Hout.
  - cbn [callback]. now destruct (processNode_stack st node syntax) as [-> _].
Qed.

Lemma popped_walk calls st idx fr :
  consistent st ->
  functions (report st) !! idx = Some fr ->
  idx ∉ scopeStack st ->
  functions (report (walk calls st)) !! idx = Some fr.
Proof.
  revert st. induction calls as [|c calls IH]; intros st Hst Hfr Hout.
  - exact Hfr.
  - rewrite walk_cons. apply IH.
    + now apply consistent_callback.
    + apply callback_frame; auto.
      intros Htop. apply Hout. apply last_Some in Htop as [l' ->].
      apply elem_of_app. right. now apply list_elem_of_singleton.
    + apply popped_callback; auto. now apply lookup_lt_Some in Hfr.
Qed.

(** [popScope] takes the top reference off the stack for good. *)
Lemma popScope_removes st idx :
  consistent st ->
  last (scopeStack st) = Some idx ->
  idx ∉ scopeStack (popScope st).
Proof.
  intros (_ & _ & Hnodup) Htop. cbn [popScope scopeStack].
  apply last_Some in Htop as [l' Hl']. rewrite Hl' in *.
  rewrite removelast_last. apply NoDup_app in Hnodup as (_ & Hdisj & _).
  intros Hin. apply (Hdisj idx Hin). now apply list_elem_of_singleton.
Qed.

End WalkProperties.

(* ================================================================== *)
(** * The counters of a walk are well formed *)
(* ================================================================== *)

Section Counted.

Import EsModule.
Context {Node : Type}.

Implicit Types (st : @Analysis) (c : Callback Node) (calls : list (Callback Node)).

Lemma incrementDistinctHalsteadItems_rec_cases fuel base metric id r :
  incrementDistinctHalsteadItems_rec fuel base metric id = Some r ->
  (r = base /\ identifiers (bag metric base) <> [])
  \/ exists id',
       r = incrementHalsteadMetric
             (recordDistinctHalsteadMetric base metric id') metric Distinct.
Proof.
  revert id. induction fuel as [|fuel IH]; intros id; [discriminate |].
  rewrite incrementDistinctHalsteadItems_rec_S.
  destruct (hasOwnProperty id); [apply IH |].
  destruct (isHalsteadMetricDistinct base metric id) eqn:Hd; intros [= <-].
  - right. eauto.
  - left. split; [reflexivity |].
    unfold isHalsteadMetricDistinct in Hd.
    apply negb_false_iff, existsb_eqb_In in Hd.
    unfold bag. intros Hnil. rewrite Hnil in Hd. destruct Hd.
Qed.

Lemma incrementDistinctHalsteadItems_counted base metric id :
  let r := incrementDistinctHalsteadItems base metric id in
  (r = base /\ identifiers (bag metric base) <> [])
  \/ exists id',
       r = incrementHalsteadMetric
             (recordDistinctHalsteadMetric base metric id') metric Distinct.
Proof.
  cbv zeta. unfold incrementDistinctHalsteadItems.
  destruct (incrementDistinctHalsteadItems_total base metric id) as [r Hr].
  rewrite Hr. cbn. eapply incrementDistinctHalsteadItems_rec_cases, Hr.
Qed.

Lemma bagCounted_encounter (b : HalsteadItemState) :
  bagCounted b -> identifiers b <> [] ->
  bagCounted {| distinct := distinct b; identifiers := identifiers b;
                total := total b + 1 |}.
Proof.
  intros (Hd & Hle & Hpos) Hne. unfold bagCounted.
  cbn [distinct identifiers total].
  destruct (identifiers b); [contradiction |]. cbn [length] in *. lia.
Qed.

Lemma bagCounted_record (b : HalsteadItemState) id :
  bagCounted b ->
  bagCounted {| distinct := distinct b + 1; identifiers := identifiers b ++ [id];
                total := total b + 1 |}.
Proof.
  intros (Hd & Hle & Hpos). unfold bagCounted.
  cbn [distinct identifiers total].
  rewrite length_app. cbn [length]. lia.
Qed.

Lemma wellCounted_incrementHalsteadItems b metric id :
  wellCounted b -> wellCounted (incrementHalsteadItems b metric id).
Proof.
  intros (Hl & Hc & Hops & Hopnds). unfold incrementHalsteadItems.
  destruct (incrementDistinctHalsteadItems_counted b metric id)
    as [[-> Hne] | [id' ->]]; destruct metric; unfold wellCounted; cbn;
    repeat split; auto;
    solve [ apply bagCounted_encounter; auto
          | apply bagCounted_record; auto
          | apply Hops | apply Hopnds ].
Qed.

Lemma wellCounted_halsteadEffect metric (node : Node) syntax b :
  wellCounted b -> wellCounted (halsteadEffect metric node syntax b).
Proof.
  unfold halsteadEffect.
  destruct (syntax_metric metric syntax) as [items|]; [| auto].
  revert b. induction items as [|s items IH]; intros b Hb; [exact Hb |].
  cbn [fold_left]. apply IH.
  destruct (passes_filter node s); [| exact Hb].
  now apply wellCounted_incrementHalsteadItems.
Qed.

Lemma wellCounted_nodeEffect (node : Node) syntax b :
  nonnegative (ProcessNode node syntax) ->
  wellCounted b -> wellCounted (nodeEffect node syntax b).
Proof.
  intros [Hl Hc] (Hbl & Hbc & Hops & Hopnds). unfold nodeEffect.
  do 2 apply wellCounted_halsteadEffect.
  destruct b as [? ? ? ? [] ? ?]. unfold wellCounted in *. cbn in *.
  repeat split; try apply Hops; try apply Hopnds; lia.
Qed.

Lemma wellCounted_new name loc n :
  wellCounted (createFunctionReport name loc n).
Proof. unfold wellCounted, bagCounted. cbn. lia. Qed.

Lemma allCounted_callback st c :
  nonnegative c -> allCounted st -> allCounted (callback st c).
Proof.
  intros Hc [Hagg Hfs]. destruct c as [name loc n | | node syntax].
  - split.
    + cbn. destruct (aggregate (report st)). exact Hagg.
    + cbn [callback]. rewrite functions_pushScope.
      apply Forall_app. split; [exact Hfs |].
      constructor; [apply wellCounted_new | constructor].
  - now split.
  - split; cbn [callback].
    + rewrite aggregate_processNode. now apply wellCounted_nodeEffect.
    + rewrite functions_processNode.
      destruct (currentReport st) as [ref|]; [| exact Hfs].
      apply Forall_alter; [exact Hfs |].
      intros fr _. now apply wellCounted_nodeEffect.
Qed.

Lemma allCounted_walk calls st :
  Forall nonnegative calls -> allCounted st -> allCounted (walk calls st).
Proof.
  revert st. induction calls as [|c calls IH]; intros st Hcalls Hst; [exact Hst |].
  apply Forall_cons in Hcalls as [Hc Hcalls].
  rewrite walk_cons. apply IH; [exact Hcalls |]. now apply allCounted_callback.
Qed.

Lemma allCounted_initial (ast : Ast Node) : allCounted (initial ast).
Proof. split; [apply wellCounted_new | constructor]. Qed.

End Counted.

(* ================================================================== *)
(** * Properties of JavaScript numbers *)
(* ================================================================== *)

Section NumberFacts.

Lemma div_Num (x y : R) : y <> 0%R -> div (Num x) (Num y) = Num (x / y).
Proof. intros Hy. unfold div. now destruct (Req_dec_T y 0). Qed.

Lemma eqb_Num (x y : R) : eqb (Num x) (Num y) = true <-> x = y.
Proof.
  unfold eqb. destruct (Req_dec_T x y); split; intros; congruence.
Qed.

Lemma eqb_zero (a : number) : eqb a (Num 0) = true <-> a = Num 0.
Proof.
  destruct a; cbn; try (split; intros; congruence).
  destruct (Req_dec_T r 0); split; intros; congruence.
Qed.

Lemma ltb_Num (x y : R) : ltb (Num x) (Num y) = true <-> (x < y)%R.
Proof.
  unfold ltb. destruct (Rlt_dec x y); split; intros; auto; congruence.
Qed.

Lemma Rsign_pos (x : R) : (0 < x)%R -> Rsign x = Gt.
Proof. intros H. unfold Rsign. now destruct (Rlt_dec 0 x). Qed.

Lemma Rsign_zero : Rsign 0 = Eq.
Proof.
  unfold Rsign. destruct (Rlt_dec 0 0); [lra |]. destruct (Rlt_dec 0 0); [lra |].
  reflexivity.
Qed.

Lemma log_pos (x : R) : (0 < x)%R -> log (Num x) = Num (ln x).
Proof. intros H. unfold log. now rewrite Rsign_pos. Qed.

Lemma log_zero : log (Num 0) = NegInfinity.
Proof. unfold log. now rewrite Rsign_zero. Qed.

Lemma add_Num (x y : R) : add (Num x) (Num y) = Num (x + y).
Proof. reflexivity. Qed.

Lemma mul_Num (x y : R) : mul (Num x) (Num y) = Num (x * y).
Proof. reflexivity. Qed.

Lemma sub_Num (x y : R) : sub (Num x) (Num y) = Num (x + - y).
Proof. reflexivity. Qed.

Lemma gtb_Num_false (x y : R) : (x <= y)%R -> gtb (Num x) (Num y) = false.
Proof.
  intros H. unfold gtb, ltb. destruct (Rlt_dec y x); [lra | reflexivity].
Qed.

Lemma gtb_Num_true (x y : R) : (y < x)%R -> gtb (Num x) (Num y) = true.
Proof.
  intros H. unfold gtb, ltb. destruct (Rlt_dec y x); [reflexivity | lra].
Qed.

Lemma eqb_Num_false (x y : R) : x <> y -> eqb (Num x) (Num y) = false.
Proof. intros H. unfold eqb. now destruct (Req_dec_T x y). Qed.

Lemma geb_ofZ (a b : Z) : geb (ofZ a) (ofZ b) = (b <=? a)%Z.
Proof.
  unfold geb, gtb, ltb, eqb, ofZ.
  destruct (Rlt_dec (IZR b) (IZR a)) as [Hlt | Hnlt];
    destruct (Req_dec_T (IZR a) (IZR b)) as [Heq | Hne];
    destruct (Z.leb_spec b a) as [Hle | Hgt]; cbn; try reflexivity.
  - apply lt_IZR in Hlt. lia.
  - apply lt_IZR in Hlt. lia.
  - apply eq_IZR in Heq. lia.
  - exfalso. apply Hnlt. apply IZR_lt.
    assert (a <> b) by (intros ->; now apply Hne). lia.
Qed.

Lemma IZR_of_nat_pos (n : nat) : (0 < n)%nat -> (0 < IZR (Z.of_nat n))%R.
Proof. intros H. apply IZR_lt. lia. Qed.

End NumberFacts.

(* ================================================================== *)
(** * Properties of the finalisation *)
(* ================================================================== *)

Section MetricProperties.

Import EsModule.

Lemma finalise_sameCounters (f : FunctionReport) : sameCounters f (finalise f).
Proof. destruct f as [? [] ? ? ? ? ?]. repeat split. Qed.

Lemma finalise_changes (f : FunctionReport) :
  cyclomaticDensity f = None -> finalise f <> f.
Proof. intros H Heq. rewrite <- Heq in H. discriminate H. Qed.

Lemma sumMaintainabilityMetrics_four a b c d data :
  sumMaintainabilityMetrics [a; b; c; d] data =
    [ add a (ofZ (logical (sloc data))); add b (ofZ (cyclomatic data));
      add c (halstead_effort data); add d (ofZ (params data)) ].
Proof. reflexivity. Qed.

(** The effort [calculateHalsteadMetrics] stores for a report. *)
Lemma halstead_effort_finalise (data : FunctionReport) :
  let h := halstead data in
  let length := (total (operators h) + total (operands h))%Z in
  halstead_effort (finalise data) =
    if (length =? 0)%Z then Num 0
    else
      mul (mul (div (ofZ (distinct (operators h))) (Num 2))
               (if (distinct (operands h) =? 0)%Z then Num 1
                else div (ofZ (total (operands h)))
                         (ofZ (distinct (operands h)))))
          (mul (ofZ length)
               (div (log (ofZ (distinct (operators h) + distinct (operands h))))
                    (log (Num 2)))).
Proof.
  destruct data as [? h ? ? ? ? ?]. cbn [halstead].
  unfold halstead_effort, finalise, calculateHalsteadMetrics. cbn.
  now destruct (total (operators h) + total (operands h) =? 0)%Z.
Qed.

Lemma finalise_fields (data : FunctionReport) :
  cyclomatic (finalise data) = cyclomatic data
  /\ sloc (finalise data) = sloc data
  /\ params (finalise data) = params data.
Proof. now destruct data. Qed.

Lemma moduleAverages_no_functions (r : ModuleReport) :
  functions r = [] ->
  moduleAverages r =
    [ div (add (Num 0) (ofZ (logical (sloc (aggregate r))))) (ofZ 1);
      div (add (Num 0) (ofZ (cyclomatic (aggregate r)))) (ofZ 1);
      div (add (Num 0) (halstead_effort (finalise (aggregate r)))) (ofZ 1);
      div (add (Num 0) (ofZ (params (aggregate r)))) (ofZ 1) ].
Proof.
  intros Hfs. unfold moduleAverages. rewrite Hfs.
  cbn [length Nat.eqb fmap list_fmap fold_left].
  rewrite sumMaintainabilityMetrics_four.
  destruct (finalise_fields (aggregate r)) as (-> & -> & ->).
  reflexivity.
Qed.

Lemma sumMaintainabilityMetrics_cyclomatic sums data b :
  sums !! indices_cyclomatic = Some (Num b) ->
  sumMaintainabilityMetrics sums data !! indices_cyclomatic =
    Some (Num (b + IZR (cyclomatic data))).
Proof.
  intros H. unfold sumMaintainabilityMetrics.
  rewrite list_lookup_alter_ne by discriminate.
  rewrite list_lookup_alter_ne by discriminate.
  rewrite list_lookup_alter_eq.
  rewrite list_lookup_alter_ne by discriminate.
  now rewrite H.
Qed.

Lemma sums_cyclomatic (l : list FunctionReport) sums b :
  sums !! indices_cyclomatic = Some (Num b) ->
  fold_left sumMaintainabilityMetrics l sums !! indices_cyclomatic =
    Some (Num (b + IZR (sumOver cyclomatic l))).
Proof.
  revert sums b. induction l as [|f l IH]; intros sums b H.
  - cbn. rewrite H. do 2 f_equal. lra.
  - cbn [fold_left].
    rewrite (IH _ _ (sumMaintainabilityMetrics_cyclomatic sums f b H)).
    unfold sumOver. cbn [fold_right]. rewrite plus_IZR. do 2 f_equal. lra.
Qed.

Lemma sumOver_cyclomatic_finalise (l : list FunctionReport) :
  sumOver cyclomatic (finalise <$> l) = sumOver cyclomatic l.
Proof.
  unfold sumOver. induction l as [|f l IH]; [reflexivity |].
  cbn [fmap list_fmap fold_right]. cbn [fmap] in IH. rewrite IH.
  now destruct f.
Qed.

(** The average [calculateMetrics] takes the logarithm of is the one the
    specification describes. *)
Lemma moduleAverages_cyclomatic (r : ModuleReport) :
  average_at (moduleAverages r) indices_cyclomatic = averageCyclomatic r.
Proof.
  unfold average_at, moduleAverages, averageCyclomatic.
  destruct (functions r) as [|f fs] eqn:Hfs.
  - cbn [length Nat.eqb fmap list_fmap fold_left].
    rewrite list_lookup_fmap.
    rewrite (sumMaintainabilityMetrics_cyclomatic _ _ 0) by reflexivity.
    cbv [fmap option_fmap option_map from_option Datatypes.id]. unfold ofZ.
    change (Z.of_nat 1) with 1%Z. rewrite div_Num by lra.
    replace (cyclomatic (finalise (aggregate r))) with (cyclomatic (aggregate r))
      by now destruct (aggregate r).
    f_equal. lra.
  - set (l := f :: fs).
    change (length l =? 0)%nat with false. cbv iota.
    rewrite list_lookup_fmap.
    rewrite (sums_cyclomatic _ _ 0) by reflexivity.
    cbv [fmap option_fmap option_map from_option Datatypes.id]. unfold ofZ.
    rewrite sumOver_cyclomatic_finalise.
    rewrite div_Num.
    + f_equal. now rewrite Rplus_0_l.
    + apply not_0_IZR. subst l. cbn [length]. lia.
Qed.

(** The index without [newmi] for positive averages, when the clamp does
    not apply. *)
Lemma calculateMaintainabilityIndex_positive (e c l : R) :
  (0 < e)%R -> (0 < c)%R -> (0 < l)%R ->
  (171 - 3.42 * ln e - 0.23 * ln c - 16.2 * ln l <= 171)%R ->
  calculateMaintainabilityIndex (Num e) (Num c) (Num l) false =
    inr (Num (171 - 3.42 * ln e - 0.23 * ln c - 16.2 * ln l)).
Proof.
  intros He Hc Hl Hraw. unfold calculateMaintainabilityIndex.
  rewrite eqb_Num_false by lra.
  rewrite !log_pos by assumption.
  rewrite !mul_Num, !sub_Num.
  rewrite gtb_Num_false by lra.
  reflexivity.
Qed.

Lemma calculateMaintainabilityIndex_cases e c l newmi :
  c = Num 0
  /\ calculateMaintainabilityIndex e c l newmi = inl (Err zeroCyclomaticMessage)
  \/ c <> Num 0
     /\ exists m, calculateMaintainabilityIndex e c l newmi = inr m.
Proof.
  unfold calculateMaintainabilityIndex.
  destruct (eqb c (Num 0)) eqn:Hc.
  - apply eqb_zero in Hc. now left.
  - right. split; [| eauto].
    intros Heq. apply eqb_zero in Heq. congruence.
Qed.

(** C5: [calculateMetrics] raises the cyclomatic-complexity-zero error
    exactly when the average cyclomatic complexity (over the function
    reports, or of the aggregate alone when there are none) is 0, and on
    every other report it returns a report that carries a maintainability
    value. *)
Theorem calculateMetrics_raises_iff_zero_average (settings : Settings)
    (r : ModuleReport) :
  (calculateMetrics settings r = inl (Err zeroCyclomaticMessage)
   <-> averageCyclomatic r = Num 0)
  /\ (calculateMetrics settings r = inl (Err zeroCyclomaticMessage)
      \/ exists r' m,
           calculateMetrics settings r = inr r'
           /\ maintainability r' = Some m).
Proof.
  unfold calculateMetrics. rewrite moduleAverages_cyclomatic.
  destruct (calculateMaintainabilityIndex_cases
              (average_at (moduleAverages r) indices_effort)
              (averageCyclomatic r)
              (average_at (moduleAverages r) indices_loc)
              (newmi settings)) as [[Hz ->] | [Hnz [m ->]]].
  - split; [tauto | now left].
  - split; [| right; eauto].
    split; [discriminate | intros; contradiction].
Qed.

End MetricProperties.

(* ================================================================== *)
(** * Function reports after [popScope] *)
(* ================================================================== *)

Section PoppedReports.

Import EsModule.
Context {Node : Type}.

Implicit Types (c : Callback Node) (calls : list (Callback Node))
  (walker : Walker Node).

Lemma calculateMetrics_inr settings (r r' : ModuleReport) :
  calculateMetrics settings r = inr r' ->
  functions r' = finalise <$> functions r
  /\ aggregate r' = finalise (aggregate r)
  /\ dependencies r' = dependencies r
  /\ exists m,
       maintainability r' = Some m
       /\ calculateMaintainabilityIndex
            (average_at (moduleAverages r) indices_effort)
            (average_at (moduleAverages r) indices_cyclomatic)
            (average_at (moduleAverages r) indices_loc)
            (newmi settings) = inr m.
Proof.
  unfold calculateMetrics.
  destruct (calculateMaintainabilityIndex _ _ _ _) as [e | m]; [discriminate |].
  intros [= <-]. cbn. repeat split. eauto.
Qed.

Lemma calculateMetrics_returns settings (r : ModuleReport) :
  averageCyclomatic r <> Num 0 ->
  exists r', calculateMetrics settings r = inr r'.
Proof.
  intros Hnz. unfold calculateMetrics. rewrite moduleAverages_cyclomatic.
  destruct (calculateMaintainabilityIndex_cases
              (average_at (moduleAverages r) indices_effort)
              (averageCyclomatic r)
              (average_at (moduleAverages r) indices_loc)
              (newmi settings)) as [[Hz _] | [_ [m ->]]];
    [contradiction | eauto].
Qed.

(** C4, as the code has it: while the walker drives the callbacks, a
    callback leaves every function report other than the top of the
    scope stack as it is; [popScope] takes the top reference off the
    stack for good; and a report that is off the stack keeps its value
    through all further callbacks.  After the walk [calculateMetrics]
    replaces every function report, popped or not, by its finalised
    form, which adds the derived fields and keeps the counters. *)
Theorem function_report_frame (ast : Ast Node) :
  (forall calls c idx fr,
      let st := walk calls (initial ast) in
      functions (report st) !! idx = Some fr ->
      last (scopeStack st) <> Some idx ->
      functions (report (callback st c)) !! idx = Some fr)
  /\ (forall calls idx,
        let st := walk calls (initial ast) in
        last (scopeStack st) = Some idx ->
        idx ∉ scopeStack (popScope st))
  /\ (forall calls1 calls2 idx fr,
        let st := walk calls1 (initial ast) in
        functions (report st) !! idx = Some fr ->
        idx ∉ scopeStack st ->
        functions (report (walk (calls1 ++ calls2) (initial ast))) !! idx
          = Some fr)
  /\ (forall walker options r,
        analyse ast walker options = inr r ->
        functions r =
          finalise <$>
            functions
              (report (walk (walker ast (default defaultSettings options))
                         (initial ast))))
  /\ (forall fr, sameCounters fr (finalise fr)).
Proof.
  pose proof (consistent_initial ast) as Hinit.
  repeat apply conj.
  - intros calls c idx fr st. apply callback_frame.
    now apply consistent_walk.
  - intros calls idx st. apply popScope_removes. now apply consistent_walk.
  - intros calls1 calls2 idx fr st Hfr Hout. rewrite walk_app.
    apply popped_walk; auto. now apply consistent_walk.
  - intros walker options r Hr. unfold analyse in Hr.
    now apply calculateMetrics_inr in Hr as [-> _].
  - apply finalise_sameCounters.
Qed.

End PoppedReports.

Section PoppedReportsExamples.

Import EsModule.

Lemma function_report_frame_witness :
  functions
    (report (walk (oneFunctionWalk ++ [ProcessNode tt noSyntax])
               (initial emptyAst))) !! 0%nat
  = functions (report (walk oneFunctionWalk (initial emptyAst))) !! 0%nat.
Proof.
  apply (proj1 (proj2 (proj2 (function_report_frame emptyAst)))).
  - reflexivity.
  - vm_compute. apply not_elem_of_nil.
Defined.

(** C4 as stated fails: the function report of [f] has been popped when
    the walk ends and has no derived fields then; in the report
    [analyse] returns, the same function report carries a cyclomatic
    density and the Halstead scalars, which [calculateMetrics] has
    added. *)
Lemma popped_report_changed_by_calculateMetrics :
  let st := walk oneFunctionWalk (initial emptyAst) in
  scopeStack st = []
  /\ exists fr fr' r,
       functions (report st) !! 0%nat = Some fr
       /\ analyse emptyAst (fun _ _ => oneFunctionWalk) None = inr r
       /\ functions r !! 0%nat = Some fr'
       /\ cyclomaticDensity fr = None
       /\ metrics (halstead fr) = None
       /\ is_Some (cyclomaticDensity fr')
       /\ is_Some (metrics (halstead fr'))
       /\ fr' <> fr.
Proof.
  intros st.
  set (fr := {| cyclomatic := 1; halstead := createInitialHalsteadState;
                name := Some "f"; params := 0;
                sloc := {| logical := 1; physical := None |};
                line := None; cyclomaticDensity := None |}).
  assert (Hfs : functions (report st) = [fr]) by reflexivity.
  split; [reflexivity |].
  destruct (calculateMetrics_returns defaultSettings (report st)) as [r Hr].
  { unfold averageCyclomatic. rewrite Hfs.
    unfold sumOver. cbn [fold_right cyclomatic length Z.of_nat fr].
    intros [= H].
    change (IZR (1 + 0) / IZR (Z.of_nat 1))%R with (1 / 1)%R in H. lra. }
  exists fr, (finalise fr), r.
  split; [now rewrite Hfs |]. split; [exact Hr |].
  apply calculateMetrics_inr in Hr as [-> _]. rewrite Hfs.
  repeat split; try (cbn; eauto; fail).
  all: now apply finalise_changes.
Qed.

End PoppedReportsExamples.

(* ================================================================== *)
(** * The range of the maintainability index *)
(* ================================================================== *)

Section MaintainabilityRange.

Import EsModule.
Context {Node : Type}.

Lemma ln_nonneg (x : R) : (1 <= x)%R -> (0 <= ln x)%R.
Proof.
  intros [Hlt | <-]; [| rewrite ln_1; lra].
  rewrite <- ln_1. left. apply ln_increasing; lra.
Qed.

Lemma Rdiv_nonneg (x y : R) : (0 <= x)%R -> (0 < y)%R -> (0 <= x / y)%R.
Proof.
  intros Hx Hy. unfold Rdiv. apply Rmult_le_pos; [exact Hx |].
  left. now apply Rinv_0_lt_compat.
Qed.

(** The effort of a well-counted report is a real number that is not
    negative. *)
Lemma effort_nonneg (data : FunctionReport) :
  wellCounted data ->
  exists e, halstead_effort (finalise data) = Num e /\ (0 <= e)%R.
Proof.
  intros (_ & _ & (Hd1 & Hle1 & Hpos1) & (Hd2 & Hle2 & Hpos2)).
  rewrite halstead_effort_finalise. cbv zeta.
  set (h := halstead data) in *.
  destruct (total (operators h) + total (operands h) =? 0)%Z eqn:Hlen.
  { exists 0%R. split; [reflexivity | lra]. }
  apply Z.eqb_neq in Hlen.
  assert (Hvoc : (1 <= distinct (operators h) + distinct (operands h))%Z) by lia.
  assert (Hdo : (0 <= IZR (distinct (operators h)))%R) by (apply IZR_le; lia).
  assert (Hlog : (0 <= ln (IZR (distinct (operators h) + distinct (operands h)))
                       / ln 2)%R).
  { apply Rdiv_nonneg; [| pose proof ln_lt_2; lra].
    apply ln_nonneg. apply IZR_le. lia. }
  assert (Hl : (0 <= IZR (total (operators h) + total (operands h)))%R)
    by (apply IZR_le; lia).
  unfold ofZ. rewrite !log_pos; [| lra | apply IZR_lt; lia].
  rewrite (div_Num _ 2) by lra.
  rewrite (div_Num _ (ln 2)) by (pose proof ln_lt_2; lra).
  rewrite (mul_Num (IZR _) (_ / ln 2)).
  destruct (distinct (operands h) =? 0)%Z eqn:Hdn.
  - rewrite !mul_Num. eexists. split; [reflexivity |].
    apply Rmult_le_pos; [lra | apply Rmult_le_pos; [lra | exact Hlog]].
  - apply Z.eqb_neq in Hdn.
    rewrite div_Num by (apply not_0_IZR; exact Hdn).
    rewrite !mul_Num. eexists. split; [reflexivity |].
    apply Rmult_le_pos;
      [apply Rmult_le_pos; [lra |] | apply Rmult_le_pos; [lra | exact Hlog]].
    apply Rdiv_nonneg; [apply IZR_le; lia | apply IZR_lt; lia].
Qed.

(** The sums of [calculateMetrics] over well-counted reports. *)
Lemma sums_counted (l : list FunctionReport) (a b c d : R) :
  Forall wellCounted l ->
  exists a' b' c' d',
    fold_left sumMaintainabilityMetrics (finalise <$> l)
      [Num a; Num b; Num c; Num d] = [Num a'; Num b'; Num c'; Num d']
    /\ (a <= a')%R /\ (b + INR (length l) <= b')%R /\ (c <= c')%R.
Proof.
  revert a b c d. induction l as [|f l IH]; intros a b c d Hl.
  - exists a, b, c, d. cbn. repeat split; lra.
  - apply Forall_cons in Hl as [Hf Hl].
    destruct (effort_nonneg f Hf) as (e & He & Hepos).
    destruct Hf as (Hlog & Hcyc & _).
    cbn [fmap list_fmap fold_left]. rewrite sumMaintainabilityMetrics_four.
    destruct (finalise_fields f) as (-> & -> & ->). rewrite He.
    unfold ofZ. rewrite !add_Num.
    destruct (IH (a + IZR (logical (sloc f)))%R (b + IZR (cyclomatic f))%R
                (c + e)%R (d + IZR (params f))%R Hl)
      as (a' & b' & c' & d' & Heq & Ha & Hb & Hc).
    exists a', b', c', d'. split; [exact Heq |].
    apply IZR_le in Hlog, Hcyc. cbn [length]. rewrite S_INR.
    repeat split; lra.
Qed.

(** The three averages the maintainability index is computed from. *)
Lemma moduleAverages_counted (r : ModuleReport) :
  wellCounted (aggregate r) -> Forall wellCounted (functions r) ->
  exists e c l,
    average_at (moduleAverages r) indices_effort = Num e
    /\ average_at (moduleAverages r) indices_cyclomatic = Num c
    /\ average_at (moduleAverages r) indices_loc = Num l
    /\ (0 <= e)%R /\ (0 < c)%R /\ (0 <= l)%R.
Proof.
  intros Hagg Hfs. destruct (functions r) as [|f fs] eqn:Hr.
  - rewrite moduleAverages_no_functions by exact Hr.
    destruct (effort_nonneg _ Hagg) as (e & -> & He).
    destruct Hagg as (Hl & Hc & _). apply IZR_le in Hl, Hc.
    unfold ofZ. rewrite !add_Num, !div_Num by lra.
    eexists _, _, _. repeat split; try reflexivity.
    + apply Rdiv_nonneg; lra.
    + apply Rdiv_lt_0_compat; lra.
    + apply Rdiv_nonneg; lra.
  - unfold moduleAverages. rewrite Hr.
    change (length (f :: fs) =? 0)%nat with false. cbv iota.
    destruct (sums_counted (f :: fs) 0 0 0 0 Hfs)
      as (a' & b' & c' & d' & -> & Ha & Hb & Hc).
    assert (Hn : (0 < IZR (Z.of_nat (length (f :: fs))))%R).
    { apply IZR_lt. cbn [length]. lia. }
    assert (Hn' : (1 <= INR (length (f :: fs)))%R).
    { cbn [length]. rewrite S_INR. pose proof (pos_INR (length fs)). lra. }
    cbn [fmap list_fmap]. unfold ofZ. rewrite !div_Num by lra.
    eexists _, _, _. repeat split; try reflexivity.
    + apply Rdiv_nonneg; lra.
    + apply Rdiv_lt_0_compat; lra.
    + apply Rdiv_nonneg; lra.
Qed.

Lemma log_nonneg_cases (x : R) :
  (0 <= x)%R ->
  log (Num x) = NegInfinity \/ exists y, log (Num x) = Num y.
Proof.
  intros [Hpos | <-].
  - right. rewrite log_pos by exact Hpos. eauto.
  - left. apply log_zero.
Qed.

Lemma mul_pos_NegInfinity (k : R) :
  (0 < k)%R -> mul (Num k) NegInfinity = NegInfinity.
Proof. intros Hk. unfold mul. now rewrite Rsign_pos. Qed.

(** The clamp and the [newmi] scaling, on a raw index that is a real
    number or [Infinity]. *)
Lemma clamp_range (raw : number) (newmi : bool) :
  raw = Infinity \/ (exists x, raw = Num x) ->
  let maintainability :=
    if gtb raw (Num 171) then Num 171 else raw in
  let maintainability :=
    if newmi then max (Num 0) (div (mul maintainability (Num 100)) (Num 171))
    else maintainability in
  exists x,
    maintainability = Num x /\ (x <= 171)%R
    /\ (newmi = true -> (0 <= x <= 100)%R).
Proof.
  intros Hraw. cbv zeta.
  assert (Hclamp : exists y,
             (if gtb raw (Num 171) then Num 171 else raw) = Num y
             /\ (y <= 171)%R).
  { destruct Hraw as [-> | [x ->]].
    - exists 171%R. split; [reflexivity | lra].
    - unfold gtb, ltb. destruct (Rlt_dec 171 x).
      + exists 171%R. split; [reflexivity | lra].
      + exists x. split; [reflexivity | lra]. }
  destruct Hclamp as (y & -> & Hy). destruct newmi.
  - rewrite mul_Num, div_Num by lra. unfold max, ltb.
    destruct (Rlt_dec 0 (y * 100 / 171)).
    + eexists. split; [reflexivity |]. split; [lra |]. intros _. lra.
    + exists 0%R. split; [reflexivity |]. split; [lra |]. intros _. lra.
  - exists y. split; [reflexivity |]. split; [exact Hy | discriminate].
Qed.

Lemma calculateMaintainabilityIndex_range (e c l : R) (newmi : bool) :
  (0 <= e)%R -> (0 < c)%R -> (0 <= l)%R ->
  exists x,
    calculateMaintainabilityIndex (Num e) (Num c) (Num l) newmi = inr (Num x)
    /\ (x <= 171)%R
    /\ (newmi = true -> (0 <= x <= 100)%R).
Proof.
  intros He Hc Hl. unfold calculateMaintainabilityIndex.
  rewrite eqb_Num_false by lra.
  match goal with
  | |- context [if gtb ?raw (Num 171) then _ else _] =>
      destruct (clamp_range raw newmi) as (x & Hx & Hrange)
  end.
  - rewrite (log_pos c) by exact Hc. rewrite (mul_Num _ (ln c)).
    destruct (log_nonneg_cases e He) as [-> | [y ->]];
      destruct (log_nonneg_cases l Hl) as [-> | [z ->]];
      rewrite ?mul_pos_NegInfinity by lra; rewrite ?mul_Num;
      cbn [sub add neg]; eauto.
  - cbv zeta in Hx. rewrite Hx. eauto.
Qed.

(** Whatever the averages are, the index is never above 171. *)
Lemma calculateMaintainabilityIndex_upper (e c l : number) (newmi : bool)
    (m : number) :
  calculateMaintainabilityIndex e c l newmi = inr m ->
  gtb m (Num 171) = false.
Proof.
  unfold calculateMaintainabilityIndex.
  destruct (eqb c (Num 0)); [discriminate |].
  match goal with
  | |- context [if gtb ?raw (Num 171) then _ else _] => set (r := raw)
  end.
  set (clamped := if gtb r (Num 171) then Num 171 else r).
  assert (Hclamp : gtb clamped (Num 171) = false).
  { subst clamped.
    destruct (gtb r (Num 171)) eqn:Hr; [apply gtb_Num_false; lra | exact Hr]. }
  clearbody clamped. clear r.
  destruct newmi; intros [= <-]; [| exact Hclamp].
  destruct clamped as [| | |x].
  - reflexivity.
  - unfold mul. rewrite Rsign_pos by lra. cbn [signed div].
    destruct (Rlt_dec 171 0); [lra |]. cbn. destruct (Rlt_dec 171 0); [lra |].
    reflexivity.
  - discriminate Hclamp.
  - rewrite mul_Num, div_Num by lra.
    assert (Hx : (x <= 171)%R).
    { unfold gtb, ltb in Hclamp. destruct (Rlt_dec 171 x); [discriminate | lra]. }
    unfold max, ltb. destruct (Rlt_dec 0 (x * 100 / 171));
      apply gtb_Num_false; lra.
Qed.

(** C3, as the code has it: for a walk whose line and complexity amounts
    are not negative, the maintainability of the report [analyse]
    returns is a real number that is at most 171, and it lies in
    [[0, 100]] when [newmi] is set.  No lower bound holds without
    [newmi]. *)
Theorem maintainability_range (ast : Ast Node) (walker : Walker Node)
    (options : option Settings) (r : ModuleReport) :
  Forall nonnegative (walker ast (default defaultSettings options)) ->
  analyse ast walker options = inr r ->
  exists x,
    maintainability r = Some (Num x)
    /\ (x <= 171)%R
    /\ (newmi (default defaultSettings options) = true -> within 0 100 (Num x)).
Proof.
  intros Hcalls Hr. unfold analyse in Hr.
  set (settings := default defaultSettings options) in *.
  destruct (allCounted_walk (walker ast settings) (initial ast) Hcalls
              (allCounted_initial ast)) as [Hagg Hfs].
  apply calculateMetrics_inr in Hr as (_ & _ & _ & m & Hm & Hmi).
  destruct (moduleAverages_counted _ Hagg Hfs)
    as (e & c & l & He & Hc & Hl & Hepos & Hcpos & Hlpos).
  rewrite He, Hc, Hl in Hmi.
  destruct (calculateMaintainabilityIndex_range e c l (newmi settings)
              Hepos Hcpos Hlpos) as (x & Hx & Hle & Hnew).
  rewrite Hx in Hmi. injection Hmi as <-.
  exists x. repeat split; auto; now apply Hnew.
Qed.

End MaintainabilityRange.

Section MaintainabilityExamples.

Import EsModule.

Lemma maintainability_range_witness :
  exists r x,
    analyse emptyAst (fun _ _ => oneFunctionWalk) (Some newmiSettings) = inr r
    /\ maintainability r = Some (Num x)
    /\ within 0 100 (Num x).
Proof.
  destruct (calculateMetrics_returns newmiSettings
              (report (walk oneFunctionWalk (initial emptyAst)))) as [r Hr].
  { intros [= H].
    change (IZR (1 + 0) / IZR (Z.of_nat 1))%R with (1 / 1)%R in H. lra. }
  destruct (maintainability_range emptyAst (fun _ _ => oneFunctionWalk)
              (Some newmiSettings) r) as (x & Hm & _ & Hnew).
  - repeat constructor; cbn; lia.
  - exact Hr.
  - exists r, x. split; [exact Hr |]. split; [exact Hm |].
    apply Hnew. reflexivity.
Defined.

Lemma ln_ten_million : (11 < ln 10000000)%R.
Proof.
  apply Rlt_trans with (ln (2 ^ 22)).
  - rewrite ln_pow by lra. pose proof ln_lt_2.
    change (INR 22) with (IZR (Z.of_nat 22)) || rewrite INR_IZR_INZ.
    change (Z.of_nat 22) with 22%Z. lra.
  - apply ln_increasing; [apply pow_lt; lra |].
    replace (2 ^ 22)%R with 4194304%R by (simpl; lra). lra.
Qed.

(** C3 as stated fails: with [newmi] off, [analyse] returns a negative
    maintainability for this module. *)
Lemma maintainability_negative :
  exists r x,
    analyse emptyAst (fun _ _ => longModuleWalk) None = inr r
    /\ maintainability r = Some (Num x)
    /\ (x < 0)%R.
Proof.
  unfold analyse.
  set (st := walk _ _).
  assert (Hr : report st =
    {| aggregate :=
         {| cyclomatic := 1;
            halstead :=
              {| operands := {| distinct := 1; identifiers := ["x"]; total := 1 |};
                 operators := {| distinct := 1; identifiers := ["+"]; total := 1 |};
                 metrics := None |};
            name := None; params := 0;
            sloc := {| logical := 10000000; physical := None |};
            line := None; cyclomaticDensity := None |};
       dependencies := []; functions := [];
       maintainability := None; report_loc := None;
       report_cyclomatic := None; report_effort := None;
       report_params := None; path := EmptyString |}) by (vm_compute; reflexivity).
  rewrite Hr. clear Hr st.
  pose proof ln_lt_2 as Hln2. pose proof ln_ten_million as Hln.
  set (r := {| aggregate := _ |}).
  assert (Heffort : halstead_effort (finalise (aggregate r)) = Num 1).
  { rewrite halstead_effort_finalise. cbv zeta.
    cbn [r aggregate halstead operators operands total distinct].
    change (1 + 1 =? 0)%Z with false. change (1 =? 0)%Z with false.
    change (1 + 1)%Z with 2%Z. unfold ofZ.
    rewrite !log_pos by lra.
    rewrite !div_Num by lra. rewrite !mul_Num. f_equal. field. lra. }
  assert (Havg : moduleAverages r = [Num 10000000; Num 1; Num 1; Num 0]).
  { rewrite moduleAverages_no_functions by reflexivity.
    rewrite Heffort. cbn [r aggregate sloc logical cyclomatic params].
    unfold ofZ. rewrite !add_Num, !div_Num by lra.
    repeat f_equal; lra. }
  unfold calculateMetrics. rewrite Havg.
  unfold average_at, indices_effort, indices_cyclomatic, indices_loc.
  cbn [lookup list_lookup from_option].
  change (newmi defaultSettings) with false. unfold Datatypes.id.
  rewrite calculateMaintainabilityIndex_positive by (rewrite ?ln_1; lra).
  eexists _, _. split; [reflexivity |]. split; [reflexivity |].
  rewrite ln_1. lra.
Qed.

End MaintainabilityExamples.

(* ================================================================== *)
(** * The visibility matrix is the transitive closure *)
(* ================================================================== *)

Section Matrices.

Lemma cell_Some {T} (m : list (list T)) (i j : nat) (v : T) :
  cell m i j = Some v <-> exists row, m !! i = Some row /\ row !! j = Some v.
Proof.
  unfold cell. destruct (m !! i) as [row|]; cbn.
  - split; [eauto | now intros (? & [= <-] & ?)].
  - split; [discriminate | now intros (? & [=] & _)].
Qed.

Lemma cell_square {T} (n : nat) (m : list (list T)) (i j : nat) :
  square n m -> (i < n)%nat -> (j < n)%nat -> is_Some (cell m i j).
Proof.
  intros [Hlen Hrows] Hi Hj.
  destruct (lookup_lt_is_Some_2 m i) as [row Hrow]; [lia |].
  rewrite Forall_lookup in Hrows. specialize (Hrows i row Hrow).
  destruct (lookup_lt_is_Some_2 row j) as [v Hv]; [lia |].
  exists v. apply cell_Some. eauto.
Qed.

Lemma cell_in_square {T} (n : nat) (m : list (list T)) (i j : nat) (v : T) :
  square n m -> cell m i j = Some v -> (i < n)%nat /\ (j < n)%nat.
Proof.
  intros [Hlen Hrows] Hc. apply cell_Some in Hc as (row & Hrow & Hv).
  rewrite Forall_lookup in Hrows. specialize (Hrows i row Hrow).
  apply lookup_lt_Some in Hrow, Hv. lia.
Qed.

Lemma cell_set_cell {T} (m : list (list T)) (i j a b : nat) (old v : T) :
  cell m i j = Some old ->
  cell (set_cell m i j v) a b =
    if decide (a = i /\ b = j) then Some v else cell m a b.
Proof.
  intros Hc. apply cell_Some in Hc as (row & Hrow & Hold).
  unfold cell, set_cell. destruct (decide (a = i)) as [-> | Hai].
  - rewrite list_lookup_alter_eq, Hrow. cbn.
    destruct (decide (b = j)) as [-> | Hbj].
    + rewrite list_lookup_insert_eq by (now apply lookup_lt_Some in Hold).
      now rewrite decide_True.
    + rewrite list_lookup_insert_ne by congruence.
      rewrite decide_False by tauto. reflexivity.
  - rewrite list_lookup_alter_ne by congruence.
    rewrite decide_False by tauto. reflexivity.
Qed.

Lemma square_set_cell {T} (n : nat) (m : list (list T)) (i j : nat) (v : T) :
  square n m -> square n (set_cell m i j v).
Proof.
  intros [Hlen Hrows]. unfold set_cell. split.
  - now rewrite length_alter.
  - apply Forall_alter; [exact Hrows |].
    intros row _ Hrow. now rewrite length_insert.
Qed.

Lemma cell_imap {T U} (f : nat -> nat -> T -> U) (m : list (list T)) (i j : nat) :
  cell (imap (fun i row => imap (f i) row) m) i j = f i j <$> cell m i j.
Proof.
  unfold cell. rewrite list_lookup_imap.
  destruct (m !! i) as [row|]; cbn; [| reflexivity].
  apply list_lookup_imap.
Qed.

Lemma square_imap {T U} (f : nat -> nat -> T -> U) (n : nat) (m : list (list T)) :
  square n m -> square n (imap (fun i row => imap (f i) row) m).
Proof.
  intros [Hlen Hrows]. split; [now rewrite length_imap |].
  apply Forall_lookup. intros i row' Hrow'.
  rewrite list_lookup_imap in Hrow'.
  destruct (m !! i) as [row|] eqn:Hrow; [| discriminate].
  injection Hrow' as <-. rewrite length_imap.
  rewrite Forall_lookup in Hrows. eauto.
Qed.

End Matrices.

Section FloydWarshall.

Import EsProject.

Variable A : list (list Z).
Variable n : nat.
Hypothesis A_square : square n A.
Hypothesis A_binary : binary A.

(** *** Paths *)

Lemma edge_range i j : edge A i j -> (i < n)%nat /\ (j < n)%nat.
Proof. apply cell_in_square, A_square. Qed.

Lemma reachable_trans i m j :
  reachable A i m -> reachable A m j -> reachable A i j.
Proof.
  intros Him Hmj. induction Him as [i m He | i m' m He _ IH].
  - now apply reachable_step with m.
  - apply reachable_step with m'; auto.
Qed.

Lemma reachableBelow_reachable k i j :
  reachableBelow A k i j -> reachable A i j.
Proof.
  intros (via & Hchain & _). revert i Hchain.
  induction via as [|m via IH]; intros i Hchain.
  - now apply reachable_edge.
  - destruct Hchain as [He Hchain]. apply reachable_step with m; auto.
Qed.

Lemma reachable_reachableBelow i j :
  reachable A i j -> reachableBelow A n i j.
Proof.
  induction 1 as [i j He | i m j He _ (via & Hchain & Hvia)].
  - exists []. split; [exact He | constructor].
  - exists (m :: via). split; [split; assumption |].
    constructor; [apply (edge_range i m He) | exact Hvia].
Qed.

Lemma reachableBelow_mono k i j :
  reachableBelow A k i j -> reachableBelow A (S k) i j.
Proof.
  intros (via & Hchain & Hvia). exists via. split; [exact Hchain |].
  eapply Forall_impl; [exact Hvia |]. cbn. intros; lia.
Qed.

Lemma reachableBelow_cons k i m j :
  edge A i m -> (m < k)%nat -> reachableBelow A k m j -> reachableBelow A k i j.
Proof.
  intros He Hm (via & Hchain & Hvia). exists (m :: via).
  split; [split; assumption | now constructor].
Qed.

(** A path through vertices below [k + 1] is a path through vertices
    below [k], or two of them joined at [k]. *)
Lemma reachableBelow_split k i j :
  reachableBelow A (S k) i j ->
  reachableBelow A k i j
  \/ (reachableBelow A k i k /\ reachableBelow A k k j).
Proof.
  intros (via & Hchain & Hvia). revert i Hchain.
  induction via as [|m via IH]; intros i Hchain.
  - left. exists []. split; [exact Hchain | constructor].
  - destruct Hchain as [He Hchain].
    apply Forall_cons in Hvia as [Hm Hvia].
    specialize (IH Hvia m Hchain).
    assert (Hedge : reachableBelow A k i m).
    { exists []. split; [exact He | constructor]. }
    destruct (decide (m = k)) as [-> | Hmk].
    + right. split; [exact Hedge |]. destruct IH as [H | [_ H]]; exact H.
    + assert (Hlt : (m < k)%nat) by lia.
      destruct IH as [H | [H1 H2]].
      * left. now apply reachableBelow_cons with m.
      * right. split; [| exact H2]. now apply reachableBelow_cons with m.
Qed.

(** *** One relaxation *)

Lemma relax_square k i j D : square n D -> square n (relax k i j D).
Proof.
  intros HD. unfold relax.
  destruct (cell D i j), (cell D i k), (cell D k j); try exact HD.
  destruct (distance_gtb _ _); [now apply square_set_cell | exact HD].
Qed.

Lemma relax_below k i j D : below D (relax k i j D).
Proof.
  intros a b [v Hv]. unfold relax.
  destruct (cell D i j) as [dij|] eqn:Hij; [| now exists v].
  destruct (cell D i k) as [dik|]; [| now exists v].
  destruct (cell D k j) as [dkj|]; [| now exists v].
  destruct (distance_gtb dij (distance_add dik dkj)) eqn:Hgt; [| now exists v].
  unfold finiteAt. rewrite (cell_set_cell _ _ _ _ _ dij) by exact Hij.
  destruct (decide (a = i /\ b = j)) as [[-> ->] | _]; [| now exists v].
  destruct dik, dkj; cbn in *; eauto; destruct dij; discriminate.
Qed.

(** A cell that a relaxation makes finite joins two finite cells. *)
Lemma relax_sound k i j D a b :
  finiteAt (relax k i j D) a b ->
  finiteAt D a b \/ (a = i /\ b = j /\ finiteAt D i k /\ finiteAt D k j).
Proof.
  unfold relax.
  destruct (cell D i j) as [dij|] eqn:Hij; [| now left].
  destruct (cell D i k) as [dik|] eqn:Hik; [| now left].
  destruct (cell D k j) as [dkj|] eqn:Hkj; [| now left].
  destruct (distance_gtb dij (distance_add dik dkj)) eqn:Hgt; [| now left].
  unfold finiteAt at 1. rewrite (cell_set_cell _ _ _ _ _ dij) by exact Hij.
  destruct (decide (a = i /\ b = j)) as [[-> ->] | _]; [| now left].
  intros [v Hv]. right. repeat split; unfold finiteAt.
  - destruct dik; [eauto | discriminate Hv].
  - destruct dik, dkj; try discriminate Hv. eauto.
Qed.

Lemma relax_joins k i j D :
  square n D -> (j < n)%nat ->
  finiteAt D i k -> finiteAt D k j -> finiteAt (relax k i j D) i j.
Proof.
  intros HD Hj [x Hik] [y Hkj].
  destruct (cell_in_square n D i k _ HD Hik) as [Hi _].
  destruct (cell_square n D i j HD Hi Hj) as [dij Hij].
  unfold relax. rewrite Hij, Hik, Hkj. cbn [distance_add].
  destruct (distance_gtb dij (Finite (x + y))) eqn:Hgt.
  - unfold finiteAt. rewrite (cell_set_cell _ _ _ _ _ dij) by exact Hij.
    rewrite decide_True by tauto. eauto.
  - destruct dij as [v|]; [| discriminate Hgt]. now exists v.
Qed.

(** *** The loops *)

Lemma below_refl D : below D D.
Proof. intros i j H. exact H. Qed.

Lemma below_trans D1 D2 D3 : below D1 D2 -> below D2 D3 -> below D1 D3.
Proof. intros H12 H23 i j H. apply H23, H12, H. Qed.

Lemma fold_left_below {X} (f : list (list distance) -> X -> list (list distance))
    (l : list X) D :
  (forall D x, below D (f D x)) -> below D (fold_left f l D).
Proof.
  intros Hf. revert D. induction l as [|x l IH]; intros D.
  - apply below_refl.
  - cbn [fold_left]. eapply below_trans; [apply Hf | apply IH].
Qed.

Lemma fold_left_square {X} (f : list (list distance) -> X -> list (list distance))
    (l : list X) D :
  (forall D x, square n D -> square n (f D x)) ->
  square n D -> square n (fold_left f l D).
Proof.
  intros Hf. revert D. induction l as [|x l IH]; intros D HD; [exact HD |].
  cbn [fold_left]. apply IH, Hf, HD.
Qed.

Lemma seq_split (b : nat) :
  (b < n)%nat -> seq 0 n = seq 0 b ++ b :: seq (S b) (n - S b).
Proof.
  intros Hb. replace n with (b + S (n - S b))%nat at 1 by lia.
  rewrite seq_app. cbn [seq]. reflexivity.
Qed.

Lemma columns_square k i D : square n D -> square n (columns n k i D).
Proof. apply fold_left_square. intros; now apply relax_square. Qed.

Lemma columns_below k i D : below D (columns n k i D).
Proof. apply fold_left_below. intros; apply relax_below. Qed.

Lemma rows_square k D : square n D -> square n (rows n k D).
Proof. apply fold_left_square. intros; now apply columns_square. Qed.

Lemma rows_below k D : below D (rows n k D).
Proof. apply fold_left_below. intros; apply columns_below. Qed.

Lemma columns_joins k i b D :
  square n D -> (b < n)%nat ->
  finiteAt D i k -> finiteAt D k b -> finiteAt (columns n k i D) i b.
Proof.
  intros HD Hb Hik Hkb. unfold columns.
  rewrite (seq_split b Hb), fold_left_app. cbn [fold_left].
  set (D1 := fold_left _ (seq 0 b) D).
  assert (H1 : below D D1) by (apply fold_left_below; intros; apply relax_below).
  assert (HD1 : square n D1)
    by (apply fold_left_square; [intros; now apply relax_square | exact HD]).
  apply (fold_left_below (fun D j => relax k i j D)).
  - intros; apply relax_below.
  - apply relax_joins; auto.
Qed.

Lemma rows_joins k a b D :
  square n D -> (a < n)%nat -> (b < n)%nat ->
  finiteAt D a k -> finiteAt D k b -> finiteAt (rows n k D) a b.
Proof.
  intros HD Ha Hb Hak Hkb. unfold rows.
  rewrite (seq_split a Ha), fold_left_app. cbn [fold_left].
  set (D1 := fold_left _ (seq 0 a) D).
  assert (H1 : below D D1) by (apply fold_left_below; intros; apply columns_below).
  assert (HD1 : square n D1)
    by (apply fold_left_square; [intros; now apply columns_square | exact HD]).
  apply (fold_left_below (fun D i => columns n k i D)).
  - intros; apply columns_below.
  - apply columns_joins; auto.
Qed.

(** *** The whole computation *)

Lemma floydWarshall_rows D :
  length D = n ->
  floydWarshall D = fold_left (fun D k => rows n k D) (seq 0 n) D.
Proof. intros Hlen. unfold floydWarshall. rewrite Hlen. reflexivity. Qed.

Lemma fold_left_invariant {X} (P : list (list distance) -> Prop)
    (f : list (list distance) -> X -> list (list distance)) (l : list X) D :
  (forall D x, P D -> P (f D x)) -> P D -> P (fold_left f l D).
Proof.
  intros Hf. revert D. induction l as [|x l IH]; intros D HD; [exact HD |].
  cbn [fold_left]. apply IH, Hf, HD.
Qed.

Lemma relax_sound_invariant k i j D : sound A D -> sound A (relax k i j D).
Proof.
  intros HD a b Hab.
  destruct (relax_sound k i j D a b Hab) as [H | (-> & -> & Hik & Hkj)].
  - now apply HD.
  - destruct (HD _ _ Hik) as [-> | Hik']; [now apply HD |].
    destruct (HD _ _ Hkj) as [<- | Hkj']; [now right |].
    right. now apply reachable_trans with k.
Qed.

Lemma floydWarshall_sound D :
  length D = n -> sound A D -> sound A (floydWarshall D).
Proof.
  intros Hlen HD. rewrite floydWarshall_rows by exact Hlen.
  apply fold_left_invariant; [| exact HD].
  intros D1 k. apply fold_left_invariant.
  intros D2 i. apply fold_left_invariant.
  intros D3 j. apply relax_sound_invariant.
Qed.

Lemma outer_loop D m :
  square n D -> complete A n 0 D -> (m <= n)%nat ->
  let Dm := fold_left (fun D k => rows n k D) (seq 0 m) D in
  square n Dm /\ complete A n m Dm.
Proof.
  intros HD H0. induction m as [|m IH]; intros Hm; cbv zeta.
  - split; assumption.
  - rewrite seq_S, fold_left_app. cbn [fold_left Nat.add].
    destruct IH as [Hsq Hc]; [lia |]. cbv zeta in Hsq, Hc.
    set (Dm := fold_left _ (seq 0 m) D) in *.
    split; [now apply rows_square |].
    intros a b Ha Hb [-> | Hab].
    + apply rows_below, Hc; auto.
    + destruct (reachableBelow_split m a b Hab) as [H | [H1 H2]].
      * apply rows_below, Hc; auto.
      * apply rows_joins; auto; apply Hc; auto; lia.
Qed.

(** *** From the adjacency matrix to the visibility matrix *)

Lemma cell_adjacencyToDistMatrix i j :
  cell (adjacencyToDistMatrix A) i j =
    (fun value =>
       if (i =? j)%nat then Finite 1
       else if (value =? 0)%Z then Infinite else Finite value)
    <$> cell A i j.
Proof. unfold adjacencyToDistMatrix. apply cell_imap. Qed.

Lemma square_adjacencyToDistMatrix : square n (adjacencyToDistMatrix A).
Proof. apply square_imap, A_square. Qed.

Lemma cell_binary i j v : cell A i j = Some v -> v = 0%Z \/ v = 1%Z.
Proof.
  intros Hc. apply cell_Some in Hc as (row & Hrow & Hv).
  unfold binary in A_binary. rewrite Forall_lookup in A_binary.
  specialize (A_binary i row Hrow). rewrite Forall_lookup in A_binary.
  exact (A_binary j v Hv).
Qed.

Lemma initial_finite a b :
  finiteAt (adjacencyToDistMatrix A) a b <->
  (a < n)%nat /\ (b < n)%nat /\ (a = b \/ edge A a b).
Proof.
  unfold finiteAt, edge. rewrite cell_adjacencyToDistMatrix. split.
  - intros [v Hv]. destruct (cell A a b) as [w|] eqn:Hw; [| discriminate].
    destruct (cell_in_square n A a b w A_square Hw) as [Ha Hb].
    split; [exact Ha |]. split; [exact Hb |].
    cbn in Hv. destruct (Nat.eqb_spec a b) as [-> | Hne]; [now left |].
    destruct (cell_binary a b w Hw) as [-> | ->];
      [discriminate Hv | now right].
  - intros (Ha & Hb & Hab).
    destruct (cell_square n A a b A_square Ha Hb) as [w Hw]. rewrite Hw. cbn.
    destruct (Nat.eqb_spec a b) as [-> | Hne]; [eauto |].
    destruct Hab as [-> | He]; [contradiction |].
    rewrite Hw in He. injection He as ->. cbn. eauto.
Qed.

Lemma floydWarshall_finite a b :
  (a < n)%nat -> (b < n)%nat ->
  finiteAt (floydWarshall (adjacencyToDistMatrix A)) a b
  <-> a = b \/ reachable A a b.
Proof.
  intros Ha Hb.
  pose proof square_adjacencyToDistMatrix as [Hlen Hrows].
  split.
  - apply floydWarshall_sound; [exact Hlen |].
    intros x y Hxy. apply initial_finite in Hxy as (_ & _ & [-> | He]);
      [now left | right; now apply reachable_edge].
  - intros Hab. rewrite floydWarshall_rows by exact Hlen.
    destruct (outer_loop (adjacencyToDistMatrix A) n) as [_ Hc].
    + split; assumption.
    + intros x y Hx Hy Hxy. apply initial_finite.
      split; [exact Hx |]. split; [exact Hy |].
      destruct Hxy as [-> | (via & Hchain & Hvia)]; [now left |].
      destruct via as [|m via]; [now right |].
      apply Forall_cons in Hvia as [Hm _]. lia.
    + lia.
    + apply Hc; auto. destruct Hab as [-> | Hab]; [now left |].
      right. now apply reachable_reachableBelow.
Qed.

Lemma floydWarshall_square : square n (floydWarshall (adjacencyToDistMatrix A)).
Proof.
  pose proof square_adjacencyToDistMatrix as HD.
  rewrite floydWarshall_rows by apply HD.
  apply fold_left_square; [| exact HD]. intros; now apply rows_square.
Qed.

(** The visibility matrix of a square 0/1 matrix is its transitive
    closure off the diagonal. *)
Lemma visibility_closure i j :
  (i < n)%nat -> (j < n)%nat ->
  let V := distToVisibility (floydWarshall (adjacencyToDistMatrix A)) in
  (cell V i j = Some 1%Z <-> i <> j /\ reachable A i j)
  /\ (cell V i j = Some 1%Z \/ cell V i j = Some 0%Z).
Proof.
  intros Hi Hj V. subst V. unfold distToVisibility. rewrite cell_imap.
  pose proof (floydWarshall_finite i j Hi Hj) as Hfin.
  destruct (cell_square n _ i j floydWarshall_square Hi Hj) as [d Hd].
  unfold finiteAt in Hfin. rewrite Hd in *. cbn [fmap option_fmap option_map].
  destruct (Nat.eqb_spec j i) as [-> | Hne].
  - rewrite andb_false_r. split; [| now right].
    split; [discriminate | intros [Hne _]; contradiction].
  - rewrite andb_true_r. destruct d as [v|]; cbn [is_finite].
    + split; [| now left]. split; [intros _ | reflexivity].
      split; [congruence |].
      destruct (proj1 Hfin (ex_intro _ v eq_refl)) as [-> | H];
        [contradiction | exact H].
    + split; [| now right]. split; [discriminate |].
      intros [_ Hreach]. destruct (proj2 Hfin (or_intror Hreach)) as [v Hv].
      discriminate Hv.
Qed.

End FloydWarshall.

(* ================================================================== *)
(** * Properties of the project analyser *)
(* ================================================================== *)

Section ProjectProperties.

Import EsModule EsProject.

Variable pathlib : PathModule.

(** *** The fields [processResults] sets *)

Lemma setCoreSize_fields (result : Result) :
  let r := setCoreSize result in
  reports r = reports result
  /\ adjacencyMatrix r = adjacencyMatrix result
  /\ firstOrderDensity r = firstOrderDensity result
  /\ visibilityMatrix r = visibilityMatrix result
  /\ changeCost r = changeCost result.
Proof.
  cbv zeta. unfold setCoreSize.
  destruct (from_option _ _ _); cbn; repeat split.
Qed.

Lemma processResults_adjacency (result : Result) (noCoreSize : bool) :
  let r := processResults pathlib result noCoreSize in
  let sorted := sortedReports pathlib (reports result) in
  let A := adjacencyOf pathlib sorted in
  reports r = sorted
  /\ adjacencyMatrix r = Some A
  /\ firstOrderDensity r = Some (percentifyDensity (count_ones A) A).
Proof.
  cbv zeta. unfold processResults. destruct noCoreSize; cbn [negb].
  - repeat split.
  - cbn [calculateAverages reports adjacencyMatrix firstOrderDensity].
    destruct (setCoreSize_fields (createVisibilityMatrix
                (createAdjacencyMatrix pathlib result)))
      as (-> & -> & -> & _).
    repeat split.
Qed.

Lemma processResults_visibility (result : Result) :
  let r := processResults pathlib result false in
  let A := adjacencyOf pathlib (sortedReports pathlib (reports result)) in
  let D := floydWarshall (adjacencyToDistMatrix A) in
  visibilityMatrix r = Some (distToVisibility D)
  /\ changeCost r =
       Some (percentifyDensity (count_finite D) (distToVisibility D)).
Proof.
  cbv zeta. unfold processResults. cbn [negb].
  cbn [calculateAverages visibilityMatrix changeCost].
  destruct (setCoreSize_fields (createVisibilityMatrix
              (createAdjacencyMatrix pathlib result)))
    as (_ & _ & _ & -> & ->).
  split; reflexivity.
Qed.

Lemma processResults_skips_visibility (result : Result) :
  let r := processResults pathlib result true in
  visibilityMatrix r = visibilityMatrix result
  /\ changeCost r = changeCost result
  /\ coreSize r = coreSize result.
Proof. repeat split. Qed.

(** *** Sorting *)

Lemma sort_insert_Permutation {T} (cmp : T -> T -> Z) (x : T) (l : list T) :
  sort_insert cmp x l ≡ₚ x :: l.
Proof.
  induction l as [|y l IH]; cbn [sort_insert]; [reflexivity |].
  destruct (cmp x y <=? 0)%Z; [reflexivity |].
  rewrite IH. apply Permutation_swap.
Qed.

(** The sort rearranges the reports and loses none. *)
Lemma sort_Permutation {T} (cmp : T -> T -> Z) (l : list T) :
  sort cmp l ≡ₚ l.
Proof.
  unfold sort. induction l as [|x l IH]; cbn [foldr]; [reflexivity |].
  now rewrite sort_insert_Permutation, IH.
Qed.

Lemma length_sortedReports (reports : list ModuleReport) :
  length (sortedReports pathlib reports) = length reports.
Proof. unfold sortedReports. now rewrite sort_Permutation. Qed.

(** *** The adjacency matrix *)

Lemma getAdjacencyMatrixValue_binary reports x y :
  getAdjacencyMatrixValue pathlib reports x y = 0%Z
  \/ getAdjacencyMatrixValue pathlib reports x y = 1%Z.
Proof.
  unfold getAdjacencyMatrixValue.
  destruct (x =? y)%nat; [now left |].
  destruct (reports !! x), (reports !! y); try now left.
  destruct (doesDependencyExist _ _ _); [now right | now left].
Qed.

Lemma cell_adjacencyOf reports x y :
  (x < length reports)%nat -> (y < length reports)%nat ->
  cell (adjacencyOf pathlib reports) x y =
    Some (getAdjacencyMatrixValue pathlib reports x y).
Proof.
  intros Hx Hy. unfold cell, adjacencyOf. rewrite list_lookup_imap.
  destruct (lookup_lt_is_Some_2 reports x Hx) as [rx ->]. cbn.
  rewrite list_lookup_imap.
  destruct (lookup_lt_is_Some_2 reports y Hy) as [ry ->]. reflexivity.
Qed.

Lemma square_adjacencyOf reports :
  square (length reports) (adjacencyOf pathlib reports).
Proof.
  unfold adjacencyOf. split; [now rewrite length_imap |].
  apply Forall_lookup. intros x row Hrow.
  rewrite list_lookup_imap in Hrow.
  destruct (reports !! x); [| discriminate].
  injection Hrow as <-. now rewrite length_imap.
Qed.

Lemma binary_adjacencyOf reports : binary (adjacencyOf pathlib reports).
Proof.
  unfold binary, adjacencyOf.
  apply Forall_lookup. intros x row Hrow.
  rewrite list_lookup_imap in Hrow.
  destruct (reports !! x); [| discriminate].
  injection Hrow as <-.
  apply Forall_lookup. intros y v Hv. rewrite list_lookup_imap in Hv.
  destruct (reports !! y); [| discriminate].
  injection Hv as <-. apply getAdjacencyMatrixValue_binary.
Qed.

(** C1: in the result of [processResults] with [noCoreSize] false, for
    all indices [i] and [j] of the sorted reports, the cell [i], [j] of
    the visibility matrix is 1 exactly when [i] and [j] differ and the
    graph of the adjacency matrix has a directed path of one or more
    edges from [i] to [j]; every other cell is 0. *)
Theorem visibility_is_transitive_closure (result : Result) (i j : nat) :
  let r := processResults pathlib result false in
  (i < length (reports r))%nat ->
  (j < length (reports r))%nat ->
  exists A V,
    adjacencyMatrix r = Some A
    /\ visibilityMatrix r = Some V
    /\ (cell V i j = Some 1%Z <-> i <> j /\ reachable A i j)
    /\ (cell V i j = Some 1%Z \/ cell V i j = Some 0%Z).
Proof.
  intros r.
  destruct (processResults_adjacency result false) as (Hrep & HA & _).
  destruct (processResults_visibility result) as (HV & _).
  fold r in Hrep, HA, HV. rewrite Hrep. intros Hi Hj.
  eexists _, _. split; [exact HA |]. split; [exact HV |].
  apply visibility_closure with (n := length (sortedReports pathlib (reports result)));
    auto using square_adjacencyOf, binary_adjacencyOf.
Qed.

(** *** Dependency matching *)

Lemma isInternalCommonJSDependency_relative (d : Dependency) :
  isInternalCommonJSDependency pathlib d =
    relativePath (sep pathlib) (dep_path d).
Proof.
  unfold isInternalCommonJSDependency, relativePath, char_is.
  destruct (dep_path d) as [|c0 [|c1 [|c2 s]]]; cbn [String.get String.prefix];
    repeat match goal with
      | |- context [Ascii.eqb ?a ?b] => destruct (Ascii.eqb_spec a b); subst
      | |- context [ascii_dec ?a ?b] => destruct (ascii_dec a b); subst
      end; cbn; try reflexivity; try congruence;
    now destruct s.
Qed.

Lemma doesDependencyExist_existsb (from to : ModuleReport) :
  doesDependencyExist pathlib from to =
    existsb (fun d => checkDependency pathlib (path from) d (path to))
      (dependencies from).
Proof.
  unfold doesDependencyExist.
  change (existsb ?f ?l) with (false || existsb f l).
  generalize false as result. generalize (dependencies from) as deps.
  induction deps as [|d deps IH]; intros result; cbn [fold_left existsb].
  - now rewrite orb_false_r.
  - rewrite IH. destruct result; [reflexivity |]. cbn [orb]. reflexivity.
Qed.

Lemma checkDependency_gate (d : Dependency) (from to : string) :
  checkDependency pathlib from d to =
    if isCommonJSDependency d && negb (relativePath (sep pathlib) (dep_path d))
    then false
    else isDependency pathlib from d to.
Proof.
  unfold checkDependency. rewrite isInternalCommonJSDependency_relative.
  destruct (isCommonJSDependency d), (relativePath _ _); reflexivity.
Qed.

(** C8: a CommonJS record whose path does not begin with ["./"] or
    ["../"] resolves to no module: [checkDependency] is false for it
    whatever the two module paths are, it can be taken out of any
    dependency list without changing [doesDependencyExist], and a module
    whose only dependency it is gets the value 0 in every cell of its row
    of the adjacency matrix.
    A record of another type is not gated: for it [checkDependency] is
    [isDependency]. *)
Theorem nonrelative_commonjs_gives_no_edge (d : Dependency) :
  dep_type d = "CommonJS" ->
  relativePath (sep pathlib) (dep_path d) = false ->
  (forall from to, checkDependency pathlib from d to = false)
  /\ (forall (r to : ModuleReport) before after,
        doesDependencyExist pathlib
          (with_dependencies (fun _ => before ++ d :: after) r) to =
        doesDependencyExist pathlib
          (with_dependencies (fun _ => before ++ after) r) to)
  /\ (forall reports x y from,
        reports !! x = Some from ->
        dependencies from = [d] ->
        getAdjacencyMatrixValue pathlib reports x y = 0%Z)
  /\ (forall d' from to,
        dep_type d' <> "CommonJS" ->
        checkDependency pathlib from d' to = isDependency pathlib from d' to).
Proof.
  intros Htype Hrel.
  assert (Hcheck : forall from to, checkDependency pathlib from d to = false).
  { intros from to. rewrite checkDependency_gate.
    unfold isCommonJSDependency. rewrite Htype, Hrel. reflexivity. }
  split; [exact Hcheck |]. split; [| split].
  - intros r to before after. rewrite !doesDependencyExist_existsb.
    destruct r; cbn [with_dependencies dependencies path].
    rewrite !existsb_app. cbn [existsb]. now rewrite Hcheck.
  - intros reports x y from Hx Hdeps. unfold getAdjacencyMatrixValue.
    destruct (x =? y)%nat; [reflexivity |]. rewrite Hx.
    destruct (reports !! y) as [to|]; [| reflexivity].
    rewrite doesDependencyExist_existsb, Hdeps. cbn [existsb].
    now rewrite Hcheck.
  - intros d' from to Hne. rewrite checkDependency_gate.
    unfold isCommonJSDependency.
    destruct (String.eqb_spec (dep_type d') "CommonJS"); [contradiction |].
    reflexivity.
Qed.

(** *** Two modules *)

Lemma ltb_asym (a b : string) : String.ltb a b = true -> String.ltb b a = false.
Proof.
  unfold String.ltb. rewrite (String.compare_antisym a b).
  now destruct (String.compare b a).
Qed.

Lemma comparePaths_antisym (a b : string) :
  comparePaths pathlib a b = (-1)%Z -> comparePaths pathlib b a = 1%Z.
Proof.
  unfold comparePaths.
  set (la := length (split (sep pathlib) a)).
  set (lb := length (split (sep pathlib) b)).
  rewrite (Nat.eqb_sym lb la).
  destruct (Nat.ltb_spec la lb) as [Hlt | Hge];
    destruct (Nat.eqb_spec la lb) as [Heq | Hne];
    destruct (Nat.ltb_spec lb la) as [Hlt' | Hge']; try lia;
    cbn [orb andb]; try reflexivity; try discriminate.
  destruct (String.ltb a b) eqn:Hab.
  - now rewrite (ltb_asym a b Hab).
  - destruct (String.ltb b a); discriminate.
Qed.

Lemma percentify_quarter : percentify 1 4 = Num 25.
Proof.
  unfold percentify. cbn [Z.eqb]. unfold ofZ.
  rewrite div_Num by lra. rewrite mul_Num. f_equal. lra.
Qed.

Lemma percentify_three_quarters : percentify 3 4 = Num 75.
Proof.
  unfold percentify. cbn [Z.eqb]. unfold ofZ.
  rewrite div_Num by lra. rewrite mul_Num. f_equal. lra.
Qed.

(** C6, as the code has it: for two modules [a] and [b], given in either
    order, where [a] sorts before [b] by path, [a] has a dependency that
    resolves to [b] and [b] has none, [processResults] with [noCoreSize]
    false puts [a] at index 0 and yields the adjacency matrix
    [[0,1],[0,0]], first-order density 25, the same matrix as visibility
    matrix, and change cost 75. *)
Theorem two_modules_one_edge (result : Result) (a b : ModuleReport) :
  reports result = [a; b] \/ reports result = [b; a] ->
  comparePaths pathlib (path a) (path b) = (-1)%Z ->
  doesDependencyExist pathlib a b = true ->
  dependencies b = [] ->
  let r := processResults pathlib result false in
  reports r = [a; b]
  /\ adjacencyMatrix r = Some [[0; 1]; [0; 0]]%Z
  /\ firstOrderDensity r = Some (Num 25)
  /\ visibilityMatrix r = Some [[0; 1]; [0; 0]]%Z
  /\ changeCost r = Some (Num 75).
Proof.
  intros Hreports Hcmp Hdep Hnone r.
  destruct (processResults_adjacency result false) as (Hrep & HA & Hdensity).
  destruct (processResults_visibility result) as (HV & Hcost).
  fold r in Hrep, HA, Hdensity, HV, Hcost.
  assert (Hsorted : sortedReports pathlib (reports result) = [a; b]).
  { unfold sortedReports, sort.
    destruct Hreports as [-> | ->]; cbn [foldr sort_insert].
    - now rewrite Hcmp.
    - now rewrite (comparePaths_antisym _ _ Hcmp). }
  rewrite Hsorted in *.
  assert (Hadj : adjacencyOf pathlib [a; b] = [[0; 1]; [0; 0]]%Z).
  { unfold adjacencyOf. cbn [imap]. unfold getAdjacencyMatrixValue.
    cbn [Nat.eqb lookup list_lookup compose]. rewrite Hdep.
    rewrite (doesDependencyExist_existsb b a), Hnone. reflexivity. }
  rewrite Hadj in *.
  repeat split; try assumption.
  - rewrite Hdensity. f_equal. apply percentify_quarter.
  - rewrite Hcost. f_equal. apply percentify_three_quarters.
Qed.

(** *** The empty project *)

Lemma percentify_zero_limit (value : Z) : percentify value 0 = Num 0.
Proof. reflexivity. Qed.

Context {Node : Type}.

(** C9, as the code has it: for an empty list of modules, with
    [skipCalculation] and [noCoreSize] both false, [analyse] returns
    empty matrices and the value 0 for [firstOrderDensity],
    [changeCost], [coreSize] and the five averages. *)
Theorem empty_project_is_all_zero (walker : Walker Node) (options : Options) :
  skipCalculation options = false ->
  noCoreSize options = false ->
  analyse pathlib [] walker options =
    inr {| reports := [];
           adjacencyMatrix := Some [];
           firstOrderDensity := Some (Num 0);
           visibilityMatrix := Some [];
           changeCost := Some (Num 0);
           coreSize := Some (Num 0);
           result_cyclomatic := Some (Num 0);
           result_effort := Some (Num 0);
           result_loc := Some (Num 0);
           result_maintainability := Some (Num 0);
           result_params := Some (Num 0) |}.
Proof.
  intros Hskip Hcore. unfold analyse. cbn [analyseModules].
  rewrite Hskip, Hcore. f_equal.
  unfold processResults. cbn [negb].
  change (createAdjacencyMatrix pathlib (unprocessed []))
    with {| reports := []; adjacencyMatrix := Some [];
            firstOrderDensity := Some (Num 0);
            visibilityMatrix := None; changeCost := None; coreSize := None;
            result_cyclomatic := None; result_effort := None;
            result_loc := None; result_maintainability := None;
            result_params := None |}.
  unfold createVisibilityMatrix.
  cbn [adjacencyMatrix from_option Datatypes.id].
  change (floydWarshall (adjacencyToDistMatrix [])) with (@nil (list distance)).
  change (distToVisibility []) with (@nil (list Z)).
  change (percentifyDensity (count_finite []) []) with (Num 0).
  unfold setCoreSize, with_visibility. cbn [firstOrderDensity from_option].
  replace (eqb (Num 0) (Num 0)) with true by (symmetry; now apply eqb_Num).
  unfold calculateAverages, with_coreSize.
  cbn [reports length Nat.eqb fold_left adjacencyMatrix firstOrderDensity
       visibilityMatrix changeCost coreSize].
  unfold ofZ. rewrite div_Num by lra.
  replace (0 / 1)%R with 0%R by lra. reflexivity.
Qed.

End ProjectProperties.

(* ================================================================== *)
(** * Examples on POSIX paths *)
(* ================================================================== *)

Section ProjectExamples.

Import EsModule EsProject.

(** A module without functions and without tokens: the logarithm of the
    zero effort is [-Infinity], the raw index is [Infinity], and the
    clamp gives 171. *)
Example empty_module_maintainability :
  exists r,
    EsModule.analyse emptyAst (fun _ _ => []) None = inr r
    /\ maintainability r = Some (Num 171).
Proof.
  unfold EsModule.analyse. cbn [walk fold_left from_option].
  set (r := report (initial emptyAst)).
  assert (Heffort : halstead_effort (finalise (aggregate r)) = Num 0).
  { rewrite halstead_effort_finalise. reflexivity. }
  assert (Havg : moduleAverages r = [Num 0; Num 1; Num 0; Num 0]).
  { rewrite moduleAverages_no_functions by reflexivity.
    rewrite Heffort. cbn [r initial report createReport aggregate
      createFunctionReport sloc logical cyclomatic params].
    unfold ofZ. rewrite !add_Num, !div_Num by lra.
    repeat f_equal; lra. }
  unfold calculateMetrics. rewrite Havg.
  unfold average_at, indices_effort, indices_cyclomatic, indices_loc.
  cbn [lookup list_lookup from_option]. unfold Datatypes.id.
  unfold calculateMaintainabilityIndex.
  rewrite eqb_Num_false by lra.
  rewrite log_zero, (log_pos 1) by lra.
  rewrite !mul_pos_NegInfinity by lra. rewrite mul_Num.
  cbn [sub add neg gtb ltb newmi defaultSettings].
  eexists. split; reflexivity.
Qed.

Example latch_three_calls :
  dependencyCalls
    (walk [ ProcessNode tt (dependencySyntax DependencyOther);
            ProcessNode tt noSyntax;
            ProcessNode tt (dependencySyntax (DependencyObject (commonJS "./b")));
            ProcessNode tt (dependencySyntax (DependencyArray [])) ]
       (initial emptyAst))
  = [true; false; false].
Proof. reflexivity. Qed.

Example mixedWalk_totals :
  let st := walk mixedWalk (initial emptyAst) in
  total (operators (halstead (aggregate (report st)))) = 5%Z
  /\ sumOver (fun f => total (operators (halstead f))) (functions (report st)) = 3%Z
  /\ topLevel (tokens Operators) mixedWalk (initial emptyAst) = 2%Z
  /\ cyclomatic (aggregate (report st)) = 5%Z
  /\ (cyclomatic <$> functions (report st)) = [3%Z].
Proof. vm_compute. repeat split. Qed.

Lemma visibility_is_transitive_closure_witness :
  let r := processResults posixRoot (unprocessed chain3) false in
  exists A V,
    adjacencyMatrix r = Some A
    /\ visibilityMatrix r = Some V
    /\ (cell V 0 2 = Some 1%Z <-> 0%nat <> 2%nat /\ reachable A 0 2)
    /\ (cell V 0 2 = Some 1%Z \/ cell V 0 2 = Some 0%Z).
Proof.
  assert (Hlen : length (reports (processResults posixRoot (unprocessed chain3) false))
                 = 3%nat).
  { destruct (processResults_adjacency posixRoot (unprocessed chain3) false)
      as (-> & _).
    reflexivity. }
  apply (visibility_is_transitive_closure posixRoot (unprocessed chain3) 0 2);
    rewrite Hlen; lia.
Defined.

Example chain3_matrices :
  let r := processResults posixRoot (unprocessed chain3) false in
  adjacencyMatrix r = Some [[0; 1; 0]; [0; 0; 1]; [0; 0; 0]]%Z
  /\ visibilityMatrix r = Some [[0; 1; 1]; [0; 0; 1]; [0; 0; 0]]%Z.
Proof.
  cbv zeta.
  destruct (processResults_adjacency posixRoot (unprocessed chain3) false)
    as (_ & -> & _).
  destruct (processResults_visibility posixRoot (unprocessed chain3)) as (-> & _).
  split; lazy; reflexivity.
Qed.

(** In the chain only [b.js] has both sums at or above the medians. *)
Example chain3_coreSize :
  coreSize (processResults posixRoot (unprocessed chain3) false)
  = Some (Num (100 / 3)).
Proof.
  unfold processResults. cbn [negb calculateAverages coreSize].
  set (r1 := createVisibilityMatrix _).
  assert (HV : visibilityMatrix r1 = Some [[0; 1; 1]; [0; 0; 1]; [0; 0; 0]]%Z)
    by reflexivity.
  assert (Hd : firstOrderDensity r1 = Some (percentify 2 9)) by reflexivity.
  unfold setCoreSize. rewrite Hd, HV. cbn [from_option Datatypes.id].
  replace (eqb (percentify 2 9) (Num 0)) with false.
  2:{ unfold percentify. cbn [Z.eqb]. unfold ofZ.
      rewrite div_Num by lra. rewrite mul_Num.
      symmetry. apply eqb_Num_false. lra. }
  change (sum_row <$> [[0; 1; 1]; [0; 0; 1]; [0; 0; 0]]%Z) with [2; 1; 0]%Z.
  change (accumulate_fanOut [[0; 1; 1]; [0; 0; 1]; [0; 0; 0]]%Z)
    with [0; 1; 2]%Z.
  change (getMedian [2; 1; 0]%Z) with (ofZ 1).
  change (getMedian [0; 1; 2]%Z) with (ofZ 1).
  cbn [length seq fold_left lookup list_lookup from_option coreSize
       with_coreSize].
  rewrite !geb_ofZ.
  cbn [Z.leb Z.compare Pos.compare Pos.compare_cont andb Z.add Pos.add
       Z.of_nat Pos.of_succ_nat Pos.succ].
  change (Z.of_nat 3) with 3%Z. change (0 + 1)%Z with 1%Z.
  unfold percentify. cbn [Z.eqb]. unfold ofZ.
  rewrite div_Num by lra. rewrite mul_Num. do 2 f_equal. lra.
Qed.

Lemma two_modules_one_edge_witness :
  comparePaths posixRoot (path moduleA) (path moduleB) = (-1)%Z
  /\ adjacencyMatrix
       (processResults posixRoot (unprocessed [moduleB; moduleA]) false)
     = Some [[0; 1]; [0; 0]]%Z.
Proof.
  split; [reflexivity |].
  apply (two_modules_one_edge posixRoot (unprocessed [moduleB; moduleA])
           moduleA moduleB).
  - right. reflexivity.
  - reflexivity.
  - reflexivity.
  - reflexivity.
Defined.

(** C6 as stated fails.  [z.js] requires ["./b"], which resolves to
    [b.js], and [b.js] has no dependencies; but [b.js] sorts first, so
    the edge is in row 1 of the adjacency matrix.  And with [noCoreSize]
    set there is no visibility matrix and no change cost. *)
Lemma dependent_module_sorted_last :
  doesDependencyExist posixRoot moduleZ moduleB = true
  /\ dependencies moduleB = []
  /\ adjacencyMatrix
       (processResults posixRoot (unprocessed [moduleZ; moduleB]) false)
     = Some [[0; 0]; [1; 0]]%Z
  /\ visibilityMatrix
       (processResults posixRoot (unprocessed [moduleA; moduleB]) true) = None
  /\ changeCost
       (processResults posixRoot (unprocessed [moduleA; moduleB]) true) = None.
Proof.
  split; [reflexivity |]. split; [reflexivity |]. split; [| split].
  - destruct (processResults_adjacency posixRoot (unprocessed [moduleZ; moduleB])
                false) as (_ & -> & _).
    lazy. reflexivity.
  - reflexivity.
  - reflexivity.
Qed.

Lemma nonrelative_commonjs_gives_no_edge_witness :
  isDependency posixRoot "a.js" (commonJS "lodash") "lodash.js" = true
  /\ checkDependency posixRoot "a.js" (commonJS "lodash") "lodash.js" = false.
Proof.
  split; [reflexivity |].
  apply (nonrelative_commonjs_gives_no_edge posixRoot (commonJS "lodash"));
    reflexivity.
Defined.

Lemma empty_project_is_all_zero_witness :
  exists r,
    analyse posixRoot [] (fun (_ : Ast unit) _ => []) (allOptions false false) = inr r
    /\ changeCost r = Some (Num 0)
    /\ coreSize r = Some (Num 0).
Proof.
  eexists. split.
  - apply (empty_project_is_all_zero posixRoot (fun (_ : Ast unit) _ => [])
             (allOptions false false)); reflexivity.
  - split; reflexivity.
Defined.

(** C9 as stated fails: with [skipCalculation] false and [noCoreSize]
    set, the result for an empty project has no visibility matrix, no
    change cost and no core size. *)
Lemma empty_project_without_core_size :
  exists r,
    analyse posixRoot [] (fun (_ : Ast unit) _ => []) (allOptions false true) = inr r
    /\ visibilityMatrix r = None
    /\ changeCost r = None
    /\ coreSize r = None.
Proof.
  eexists. split; [reflexivity |]. repeat split.
Qed.

End ProjectExamples.

(* ================================================================== *)
(** * Further properties of the module analyser *)
(* ================================================================== *)

Section AccumulatorProperties.

Import EsModule.

Lemma guarded_not_own (s : string) : hasOwnProperty (guarded s) = false.
Proof.
  unfold guarded. destruct (hasOwnProperty s) eqn:H; [| exact H].
  now apply hasOwnProperty_prefixed.
Qed.

(** One encounter, in terms of the recorded name. *)
Lemma incrementHalsteadItems_bag (b : FunctionReport) (metric : Metric)
    (s : string) :
  bag metric (incrementHalsteadItems b metric s) =
    if member (guarded s) (identifiers (bag metric b)) then
      {| distinct := distinct (bag metric b);
         identifiers := identifiers (bag metric b);
         total := total (bag metric b) + 1 |}
    else
      {| distinct := distinct (bag metric b) + 1;
         identifiers := identifiers (bag metric b) ++ [guarded s];
         total := total (bag metric b) + 1 |}.
Proof.
  unfold incrementHalsteadItems. rewrite bag_incrementTotal.
  assert (H : incrementDistinctHalsteadItems b metric s =
              if isHalsteadMetricDistinct b metric (guarded s)
              then incrementHalsteadMetric
                     (recordDistinctHalsteadMetric b metric (guarded s))
                     metric Distinct
              else b).
  { unfold guarded. destruct (hasOwnProperty s) eqn:Hown.
    - now apply incrementDistinctHalsteadItems_own.
    - now apply incrementDistinctHalsteadItems_plain. }
  rewrite H. unfold isHalsteadMetricDistinct, member. fold (bag metric b).
  destruct (existsb _ _); cbn [negb]; [reflexivity |].
  now rewrite bag_record_distinct.
Qed.

Lemma incrementHalsteadItems_other_bag (b : FunctionReport)
    (metric metric' : Metric) (s : string) :
  metric_eqb metric metric' = false ->
  bag metric' (incrementHalsteadItems b metric s) = bag metric' b.
Proof.
  intros Hne. unfold incrementHalsteadItems.
  destruct (incrementDistinctHalsteadItems_cases b metric s) as [-> | [id' ->]];
    destruct metric, metric'; try discriminate Hne;
    destruct b as [? [[] []] ? ? ? ? ?]; reflexivity.
Qed.

Lemma length_firstSeen_ge (seen ids : list string) :
  (length seen <= length (firstSeen seen ids))%nat.
Proof.
  revert seen. induction ids as [|s ids IH]; intros seen; cbn [firstSeen]; [lia |].
  destruct (member s seen); [apply IH |].
  specialize (IH (seen ++ [s])). rewrite length_app in IH. cbn in IH. lia.
Qed.

(** X1: the accumulator for a sequence of encounters of one metric.  The
    identifiers are the ones the bag held, followed by the new recorded
    names in the order of their first occurrence; [distinct] grows by
    the number of names added and [total] by the number of encounters.
    From an empty bag: [identifiers] are the distinct recorded names in
    first-seen order, [distinct] is their number and [total] the number
    of encounters. *)
Theorem encounters_first_seen (b : FunctionReport) (metric : Metric)
    (ids : list string) :
  let b' := fold_left (fun b s => incrementHalsteadItems b metric s) ids b in
  let names := firstSeen (identifiers (bag metric b)) (guarded <$> ids) in
  identifiers (bag metric b') = names
  /\ distinct (bag metric b') =
       (distinct (bag metric b)
        + Z.of_nat (length names - length (identifiers (bag metric b))))%Z
  /\ total (bag metric b') = (total (bag metric b) + Z.of_nat (length ids))%Z.
Proof.
  cbv zeta. revert b. induction ids as [|s ids IH]; intros b.
  - cbn. rewrite Nat.sub_diag. repeat split; lia.
  - cbn [fold_left fmap list_fmap firstSeen].
    destruct (IH (incrementHalsteadItems b metric s)) as (Hids & Hd & Ht).
    rewrite Hids, Hd, Ht. clear IH Hids Hd Ht.
    rewrite incrementHalsteadItems_bag.
    change (list_fmap string string guarded ids) with (guarded <$> ids).
    destruct (member (guarded s) (identifiers (bag metric b)));
      cbn [identifiers distinct total length].
    + repeat split; lia.
    + pose proof (length_firstSeen_ge
                    (identifiers (bag metric b) ++ [guarded s]) (guarded <$> ids)) as Hge.
      rewrite length_app in *. cbn [length] in *.
      repeat split; lia.
Qed.

Lemma member_In (s : string) (l : list string) : member s l = true <-> In s l.
Proof. apply existsb_eqb_In. Qed.

Lemma bagSound_encounter (b : FunctionReport) (metric : Metric) (s : string) :
  bagSound (bag metric b) ->
  bagSound (bag metric (incrementHalsteadItems b metric s)).
Proof.
  intros (Hd & Hnodup & Hown & Hle & Hempty).
  rewrite incrementHalsteadItems_bag.
  destruct (member (guarded s) (identifiers (bag metric b))) eqn:Hmem;
    unfold bagSound; cbn [distinct identifiers total].
  - apply member_In in Hmem. repeat split; auto; try lia.
    intros Hnil. rewrite Hnil in Hmem. destruct Hmem.
  - assert (Hnotin : ~ In (guarded s) (identifiers (bag metric b))).
    { intros Hin. apply member_In in Hin. congruence. }
    repeat split.
    + rewrite length_app. cbn [length]. lia.
    + apply NoDup_app. split; [exact Hnodup |]. split.
      * intros x Hx Hx'. apply list_elem_of_singleton in Hx'. subst x.
        apply Hnotin. now apply list_elem_of_In.
      * apply NoDup_singleton.
    + apply Forall_app. split; [exact Hown |].
      constructor; [apply guarded_not_own | constructor].
    + lia.
    + intros Hnil. now apply app_eq_nil in Hnil as [_ Hnil].
Qed.

Lemma bagsSound_encounter (b : FunctionReport) (metric : Metric) (s : string) :
  bagsSound b -> bagsSound (incrementHalsteadItems b metric s).
Proof.
  intros [Hops Hopnds]. unfold bagsSound.
  change (operators (halstead ?r)) with (bag Operators r) in *.
  change (operands (halstead ?r)) with (bag Operands r) in *.
  destruct metric.
  - split; [now apply bagSound_encounter |].
    now rewrite incrementHalsteadItems_other_bag.
  - split; [| now apply bagSound_encounter].
    now rewrite incrementHalsteadItems_other_bag.
Qed.

End AccumulatorProperties.

Section FurtherWalkProperties.

Import EsModule.
Context {Node : Type}.

Implicit Types (st : @Analysis) (c : Callback Node) (calls : list (Callback Node)).

(** *** A property of the reports that every node keeps *)

Section ReportInvariant.

Variable P : FunctionReport -> Prop.
Hypothesis P_node : forall (node : Node) syntax b, P b -> P (nodeEffect node syntax b).
Hypothesis P_new : forall name loc n, P (createFunctionReport name loc n).
Hypothesis P_params : forall f b, P b -> P (with_params f b).

Lemma reports_callback st c :
  P (aggregate (report st)) /\ Forall P (functions (report st)) ->
  P (aggregate (report (callback st c)))
  /\ Forall P (functions (report (callback st c))).
Proof.
  intros [Hagg Hfs]. destruct c as [name loc n | | node syntax].
  - split.
    + cbn. now apply P_params.
    + cbn [callback]. rewrite functions_pushScope.
      apply Forall_app. split; [exact Hfs |].
      constructor; [apply P_new | constructor].
  - now split.
  - split; cbn [callback].
    + rewrite aggregate_processNode. now apply P_node.
    + rewrite functions_processNode.
      destruct (currentReport st) as [ref|]; [| exact Hfs].
      apply Forall_alter; [exact Hfs |]. intros fr _. apply P_node.
Qed.

Lemma reports_walk calls st :
  P (aggregate (report st)) /\ Forall P (functions (report st)) ->
  P (aggregate (report (walk calls st)))
  /\ Forall P (functions (report (walk calls st))).
Proof.
  revert st. induction calls as [|c calls IH]; intros st Hst; [exact Hst |].
  rewrite walk_cons. apply IH, reports_callback, Hst.
Qed.

End ReportInvariant.

Lemma bagsSound_halsteadEffect metric (node : Node) syntax b :
  bagsSound b -> bagsSound (halsteadEffect metric node syntax b).
Proof.
  unfold halsteadEffect.
  destruct (syntax_metric metric syntax) as [items|]; [| auto].
  revert b. induction items as [|s items IH]; intros b Hb; [exact Hb |].
  cbn [fold_left]. apply IH.
  destruct (passes_filter node s); [| exact Hb].
  now apply bagsSound_encounter.
Qed.

Lemma bagsSound_nodeEffect (node : Node) syntax b :
  bagsSound b -> bagsSound (nodeEffect node syntax b).
Proof.
  intros Hb. unfold nodeEffect. do 2 apply bagsSound_halsteadEffect.
  now destruct b as [? ? ? ? [] ? ?].
Qed.

Lemma bagsSound_new name loc n : bagsSound (createFunctionReport name loc n).
Proof.
  split; (split; [reflexivity |]); (split; [apply NoDup_nil_2 |]);
    (split; [apply Forall_nil_2 |]); split; cbn; first [lia | reflexivity].
Qed.

Lemma bagsSound_finalise b : bagsSound b -> bagsSound (finalise b).
Proof. now destruct b as [? [] ? ? ? ? ?]. Qed.

(** X2: after any sequence of callbacks, and in the report [analyse]
    returns, both Halstead bags of the aggregate and of every function
    report are sound: [distinct] is the number of identifiers, the
    identifiers are pairwise different, none is an own property name of
    [Object.prototype], [distinct] is at most [total], and an empty bag
    has [total] 0. *)
Theorem bags_sound (ast : Ast Node) :
  (forall calls,
      let r := report (walk calls (initial ast)) in
      bagsSound (aggregate r) /\ Forall bagsSound (functions r))
  /\ (forall walker options r,
        analyse ast walker options = inr r ->
        bagsSound (aggregate r) /\ Forall bagsSound (functions r)).
Proof.
  assert (Hwalk : forall calls,
             let r := report (walk calls (initial ast)) in
             bagsSound (aggregate r) /\ Forall bagsSound (functions r)).
  { intros calls. apply reports_walk.
    - intros; now apply bagsSound_nodeEffect.
    - apply bagsSound_new.
    - intros f b Hb. now destruct b.
    - split; [apply bagsSound_new | constructor]. }
  split; [exact Hwalk |].
  intros walker options r Hr. unfold analyse in Hr.
  apply calculateMetrics_inr in Hr as (-> & -> & _).
  destruct (Hwalk (walker ast (default defaultSettings options))) as [Hagg Hfs].
  split; [now apply bagsSound_finalise |].
  rewrite Forall_fmap. eapply Forall_impl; [exact Hfs |].
  intros b. apply bagsSound_finalise.
Qed.

(** *** Scopes *)

Lemma nodeEffect_scopeFields (node : Node) syntax b :
  scopeFields (nodeEffect node syntax b) = scopeFields b.
Proof.
  unfold nodeEffect, scopeFields.
  destruct (halsteadEffect_frame Operands node syntax
              (halsteadEffect Operators node syntax
                 (with_cyclomatic (Z.add (cyclomatic_amount node syntax))
                    (with_logical (Z.add (lloc_amount node syntax)) b))))
    as (_ & -> & -> & -> & -> & _).
  destruct (halsteadEffect_frame Operators node syntax
              (with_cyclomatic (Z.add (cyclomatic_amount node syntax))
                 (with_logical (Z.add (lloc_amount node syntax)) b)))
    as (_ & -> & -> & -> & -> & _).
  now destruct b as [? ? ? ? [] ? ?].
Qed.

Lemma fmap_alter_same {A B} (g : A -> B) (f : A -> A) (i : nat) (l : list A) :
  (forall x, g (f x) = g x) -> g <$> alter f i l = g <$> l.
Proof.
  intros Hg. revert i. induction l as [|x l IH]; intros i; [reflexivity |].
  destruct i as [|i]; cbn.
  - now rewrite Hg.
  - f_equal. apply IH.
Qed.

Lemma scopes_walk calls st :
  scopeFields <$> functions (report (walk calls st)) =
    (scopeFields <$> functions (report st))
    ++ ((fun '(name, loc, n) => scopeFields (createFunctionReport name loc n))
          <$> scopesOf calls).
Proof.
  revert st. induction calls as [|c calls IH]; intros st.
  - cbn. now rewrite app_nil_r.
  - rewrite walk_cons, IH. destruct c as [name loc n | | node syntax];
      cbn [callback scopesOf].
    + rewrite functions_pushScope, fmap_app, <- app_assoc. reflexivity.
    + reflexivity.
    + rewrite functions_processNode.
      destruct (currentReport st); [| reflexivity].
      rewrite fmap_alter_same; [reflexivity |].
      intros; apply nodeEffect_scopeFields.
Qed.

(** X3: the function reports are the scopes of the walk in the order
    [createScope] was called, each with the name and parameter count it
    was given, the start line of its location and the number of lines
    the location spans; a scope without location has neither [line] nor
    [sloc.physical].  Processing nodes and leaving scopes changes none
    of these fields. *)
Theorem functions_are_the_scopes (ast : Ast Node) calls :
  (fun f => (name f, params f, line f, physical (sloc f)))
    <$> functions (report (walk calls (initial ast))) =
  (fun '(name, loc, n) =>
     (name, n, start_line <$> loc,
      (fun l => end_line l - start_line l + 1)%Z <$> loc))
    <$> scopesOf calls.
Proof.
  pose proof (scopes_walk calls (initial ast)) as H.
  cbn [initial report createReport functions fmap list_fmap app] in H.
  unfold scopeFields in H. rewrite H.
  apply list_fmap_ext. now intros ? [[name loc] n].
Qed.

Lemma nodeEffect_params (node : Node) syntax b :
  params (nodeEffect node syntax b) = params b.
Proof.
  pose proof (nodeEffect_scopeFields node syntax b) as H.
  unfold scopeFields in H. congruence.
Qed.

Lemma sumOver_alter_same (f : FunctionReport -> Z) g (ref : nat) l :
  (forall b, f (g b) = f b) -> sumOver f (alter g ref l) = sumOver f l.
Proof.
  intros Hg. unfold sumOver. revert ref.
  induction l as [|x l IH]; intros ref; [reflexivity |].
  destruct ref as [|ref]; cbn.
  - now rewrite Hg.
  - f_equal. apply IH.
Qed.

(** X4: the aggregate's parameter count is the sum of the parameter
    counts of the function reports, which is the sum of the counts
    passed to [createScope]. *)
Theorem aggregate_params_sum (ast : Ast Node) calls :
  let r := report (walk calls (initial ast)) in
  params (aggregate r) = sumOver params (functions r)
  /\ params (aggregate r) =
       fold_right (fun '(_, _, n) acc => (n + acc)%Z) 0%Z (scopesOf calls).
Proof.
  cbv zeta.
  assert (H : forall calls st,
             params (aggregate (report (walk calls st))) =
               (params (aggregate (report st))
                + fold_right (fun '(_, _, n) acc => (n + acc)%Z) 0%Z (scopesOf calls))%Z
             /\ sumOver params (functions (report (walk calls st))) =
                  (sumOver params (functions (report st))
                   + fold_right (fun '(_, _, n) acc => (n + acc)%Z) 0%Z
                       (scopesOf calls))%Z).
  { clear calls. intros calls.
    induction calls as [|c calls IH]; intros st.
    - cbn. lia.
    - rewrite walk_cons. destruct (IH (callback st c)) as [-> ->]. clear IH.
      destruct c as [name loc n | | node syntax]; cbn [callback scopesOf fold_right].
      + rewrite functions_pushScope, sumOver_app.
        cbn [pushScope report]. destruct (report st); cbn. lia.
      + cbn [popScope report]. lia.
      + rewrite aggregate_processNode, functions_processNode, nodeEffect_params.
        split; [lia |].
        destruct (currentReport st) as [ref|]; [| lia].
        rewrite sumOver_alter_same by (intros; apply nodeEffect_params). lia. }
  destruct (H calls (initial ast)) as [Hagg Hsum].
  cbn in Hagg, Hsum. split; lia.
Qed.

(** *** Entering and leaving a scope *)

(** X5: from any state a walk reaches, entering a scope and leaving it
    at once restores the scope stack, the current report and the latch,
    and leaves behind only the new function report and its parameter
    count in the aggregate; and [popScope] on the empty stack changes
    nothing. *)
Theorem popScope_undoes_pushScope (ast : Ast Node) calls name loc n :
  let st := walk calls (initial ast) in
  let st' := popScope (pushScope st name loc n) in
  scopeStack st' = scopeStack st
  /\ currentReport st' = currentReport st
  /\ clearDependencies st' = clearDependencies st
  /\ functions (report st') =
       functions (report st) ++ [createFunctionReport name loc n]
  /\ dependencies (report st') = dependencies (report st)
  /\ aggregate (report st') =
       with_params (fun p => p + n)%Z (aggregate (report st))
  /\ (scopeStack st = [] -> popScope st = st).
Proof.
  intros st st'.
  destruct (consistent_walk calls (initial ast) (consistent_initial ast))
    as (Hcur & _). fold st in Hcur.
  assert (Hstack : scopeStack st' = scopeStack st).
  { subst st'. cbn [popScope pushScope scopeStack]. apply removelast_last. }
  split; [exact Hstack |].
  split.
  { subst st'. cbn [popScope pushScope scopeStack currentReport].
    rewrite removelast_last. now rewrite Hcur. }
  split; [reflexivity |].
  split; [reflexivity |].
  split; [subst st'; cbn; now destruct (report st) |].
  split; [subst st'; cbn; now destruct (report st) |].
  intros Hempty. clearbody st. destruct st as [r cur clear stack log].
  cbn in *. subst stack. cbn in *. now subst cur.
Qed.

(** *** The dependencies collected *)

(** X6: the dependencies of the module are exactly what the
    [dependencies] functions of the walk returned, in call order: an
    object contributes itself, an array its elements, any other value
    nothing; the first function called gets [clearFlag] true and the
    later ones false.  Scopes and nodes without such a function
    contribute nothing, and [analyse] returns the list unchanged. *)
Theorem dependencies_are_collected (ast : Ast Node) :
  (forall calls,
      dependencies (report (walk calls (initial ast))) = collected true calls)
  /\ (forall walker options r,
        analyse ast walker options = inr r ->
        dependencies r =
          collected true (walker ast (default defaultSettings options))).
Proof.
  assert (H : forall calls,
             dependencies (report (walk calls (initial ast)))
             = collected true calls).
  { intros calls. now rewrite collected_walk. }
  split; [exact H |].
  intros walker options r Hr. unfold analyse in Hr.
  apply calculateMetrics_inr in Hr as (_ & _ & -> & _). apply H.
Qed.

End FurtherWalkProperties.

Section FinalisationProperties.

Import EsModule.
Context {Node : Type}.

Lemma Rdiv_ge_1 (a b : R) : (0 < b)%R -> (b <= a)%R -> (1 <= a / b)%R.
Proof.
  intros Hb Hab. replace (a / b)%R with (1 + (a - b) / b)%R by (field; lra).
  pose proof (Rdiv_nonneg (a - b) b ltac:(lra) Hb). lra.
Qed.

Lemma Rdiv_le_1 (a b : R) : (0 < b)%R -> (a <= b)%R -> (a / b <= 1)%R.
Proof.
  intros Hb Hab. replace (a / b)%R with (1 - (b - a) / b)%R by (field; lra).
  pose proof (Rdiv_nonneg (b - a) b ltac:(lra) Hb). lra.
Qed.

Lemma sumOver_cyclomatic_ge (l : list FunctionReport) :
  Forall wellCounted l -> (Z.of_nat (length l) <= sumOver cyclomatic l)%Z.
Proof.
  unfold sumOver. induction 1 as [|f l (_ & Hc & _) _ IH]; cbn [length fold_right]; lia.
Qed.

Lemma averageCyclomatic_ge_1 (r : ModuleReport) :
  wellCounted (aggregate r) -> Forall wellCounted (functions r) ->
  exists c, averageCyclomatic r = Num c /\ (1 <= c)%R.
Proof.
  intros (_ & Hagg & _) Hfs. unfold averageCyclomatic.
  destruct (functions r) as [|f fs] eqn:Hr.
  - eexists. split; [reflexivity |]. apply IZR_le in Hagg. lra.
  - eexists. split; [reflexivity |].
    apply sumOver_cyclomatic_ge in Hfs.
    apply Rdiv_ge_1; [apply IZR_lt; cbn [length]; lia | now apply IZR_le].
Qed.

(** X7: after any sequence of callbacks whose line and complexity
    amounts are not negative, [calculateMetrics] does not raise the
    cyclomatic-complexity-zero error: it completes the report, with
    averages that are real numbers, the average cyclomatic complexity
    at least 1 and the average logical lines and effort not
    negative. *)
Theorem calculateMetrics_returns_after_walk (ast : Ast Node)
    (calls : list (Callback Node)) (settings : Settings) :
  Forall nonnegative calls ->
  exists r c l e,
    calculateMetrics settings (report (walk calls (initial ast))) = inr r
    /\ report_cyclomatic r = Some (Num c) /\ (1 <= c)%R
    /\ report_loc r = Some (Num l) /\ (0 <= l)%R
    /\ report_effort r = Some (Num e) /\ (0 <= e)%R.
Proof.
  intros Hcalls.
  set (r0 := report (walk calls (initial ast))).
  destruct (allCounted_walk calls (initial ast) Hcalls
              (allCounted_initial ast)) as [Hagg Hfs]. fold r0 in Hagg, Hfs.
  destruct (moduleAverages_counted r0 Hagg Hfs)
    as (e & c & l & He & Hc & Hl & Hepos & _ & Hlpos).
  destruct (averageCyclomatic_ge_1 r0 Hagg Hfs) as (c' & Hc' & Hge).
  rewrite moduleAverages_cyclomatic in Hc.
  assert (c' = c) by congruence. subst c'.
  destruct (calculateMetrics_returns settings r0) as [r Hr].
  { rewrite Hc'. intros [= H0]. lra. }
  exists r, c, l, e. split; [exact Hr |].
  unfold calculateMetrics in Hr.
  destruct (calculateMaintainabilityIndex _ _ _ _); [discriminate |].
  injection Hr as <-. cbn.
  rewrite moduleAverages_cyclomatic, Hc', He, Hl. repeat split; assumption.
Qed.

Lemma analyse_calculateMetrics (ast : Ast Node) (walker : Walker Node)
    (settings : Settings) :
  analyse ast walker (Some settings)
  = calculateMetrics settings (report (walk (walker ast settings) (initial ast))).
Proof. reflexivity. Qed.

Lemma calculateMetrics_counted (ast : Ast Node) (calls : list (Callback Node))
    (settings : Settings) :
  Forall nonnegative calls ->
  exists r, calculateMetrics settings (report (walk calls (initial ast))) = inr r.
Proof.
  intros Hcalls.
  destruct (allCounted_walk calls (initial ast) Hcalls
              (allCounted_initial ast)) as [Hagg Hfs].
  destruct (averageCyclomatic_ge_1 _ Hagg Hfs) as (c & Hc & Hge).
  apply calculateMetrics_returns. rewrite Hc. intros [= H0]. lra.
Qed.

Lemma finiteMetrics_calculate (h : Halstead) :
  bagSound (operators h) -> bagSound (operands h) ->
  finiteMetrics (calculateHalsteadMetrics h).
Proof.
  intros (Hd1 & _ & _ & Hle1 & Hnil1) (Hd2 & _ & _ & Hle2 & Hnil2).
  unfold finiteMetrics, calculateHalsteadMetrics. cbv zeta.
  eexists. split; [reflexivity |].
  destruct (total (operators h) + total (operands h) =? 0)%Z eqn:Hlen.
  { cbn. repeat split; first [lia | lra]. }
  apply Z.eqb_neq in Hlen. cbn [h_length vocabulary difficulty volume effort bugs time].
  assert (Hvoc : (1 <= distinct (operators h) + distinct (operands h))%Z).
  { destruct (identifiers (operators h)) as [|s l] eqn:H1;
      destruct (identifiers (operands h)) as [|s' l'] eqn:H2;
      cbn [length] in Hd1, Hd2; try lia.
    specialize (Hnil1 eq_refl). specialize (Hnil2 eq_refl). lia. }
  assert (Hdo : (0 <= IZR (distinct (operators h)))%R) by (apply IZR_le; lia).
  assert (Hlog : (0 <= ln (IZR (distinct (operators h) + distinct (operands h)))
                       / ln 2)%R).
  { apply Rdiv_nonneg; [| pose proof ln_lt_2; lra].
    apply ln_nonneg. apply IZR_le. lia. }
  assert (Hl : (0 <= IZR (total (operators h) + total (operands h)))%R)
    by (apply IZR_le; lia).
  assert (Hvol : (0 <= IZR (total (operators h) + total (operands h))
                       * (ln (IZR (distinct (operators h) + distinct (operands h)))
                          / ln 2))%R)
    by (apply Rmult_le_pos; [exact Hl | exact Hlog]).
  unfold ofZ. rewrite !log_pos; [| lra | apply IZR_lt; lia].
  rewrite (div_Num _ 2) by lra.
  rewrite (div_Num _ (ln 2)) by (pose proof ln_lt_2; lra).
  rewrite (mul_Num (IZR _) (_ / ln 2)).
  assert (Hdiff : exists d,
             (if (distinct (operands h) =? 0)%Z then Num 1
              else div (Num (IZR (total (operands h))))
                       (Num (IZR (distinct (operands h))))) = Num d
             /\ (0 <= d)%R).
  { destruct (distinct (operands h) =? 0)%Z eqn:Hdn.
    - exists 1%R. split; [reflexivity | lra].
    - apply Z.eqb_neq in Hdn.
      rewrite div_Num by (apply not_0_IZR; exact Hdn).
      eexists. split; [reflexivity |].
      apply Rdiv_nonneg; [apply IZR_le; lia | apply IZR_lt; lia]. }
  destruct Hdiff as (d & -> & Hd).
  rewrite !mul_Num, !div_Num by lra.
  assert (Hdd : (0 <= IZR (distinct (operators h)) / 2 * d)%R)
    by (apply Rmult_le_pos; [lra | exact Hd]).
  split; [reflexivity |]. split; [lia |]. cbn [nonnegReal].
  split; [exact Hdd |]. split; [exact Hvol |].
  split; [apply Rmult_le_pos; [exact Hdd | exact Hvol] |].
  split; [apply Rdiv_nonneg; [exact Hvol | lra] |].
  apply Rdiv_nonneg; [apply Rmult_le_pos; [exact Hdd | exact Hvol] | lra].
Qed.

Lemma finiteMetrics_finalise (f : FunctionReport) :
  bagsSound f -> finiteMetrics (halstead (finalise f)).
Proof.
  intros [H1 H2]. destruct f as [? h ? ? ? ? ?]. cbn in *.
  now apply finiteMetrics_calculate.
Qed.

(** X8: in every report [analyse] returns, whatever the walker does, the
    Halstead scalars of the aggregate and of every function report are
    set: [length] is the sum of the two totals, [vocabulary] is not
    negative, and difficulty, volume, effort, bugs and time are real
    numbers that are not negative (never [NaN] or infinite). *)
Theorem halstead_metrics_finite (ast : Ast Node) (walker : Walker Node)
    (options : option Settings) (r : ModuleReport) :
  analyse ast walker options = inr r ->
  finiteMetrics (halstead (aggregate r))
  /\ Forall (fun f => finiteMetrics (halstead f)) (functions r).
Proof.
  intros Hr. unfold analyse in Hr.
  apply calculateMetrics_inr in Hr as (-> & -> & _).
  set (calls := walker ast (default defaultSettings options)).
  assert (Hwalk : bagsSound (aggregate (report (walk calls (initial ast))))
                  /\ Forall bagsSound (functions (report (walk calls (initial ast))))).
  { apply reports_walk.
    - intros; now apply bagsSound_nodeEffect.
    - apply bagsSound_new.
    - intros f b Hb. now destruct b.
    - split; [apply bagsSound_new | constructor]. }
  destruct Hwalk as [Hagg Hfs].
  split; [now apply finiteMetrics_finalise |].
  rewrite Forall_fmap. eapply Forall_impl; [exact Hfs |].
  intros f. apply finiteMetrics_finalise.
Qed.

Lemma density_finalise (f : FunctionReport) :
  wellCounted f ->
  cyclomaticDensity (finalise f)
    = Some (densityOf (cyclomatic f) (logical (sloc f))).
Proof.
  intros (Hl & Hc & _). destruct f as [c h nm p [lg ph] ln dens].
  cbn [logical sloc cyclomatic] in *.
  change (Some (mul (div (ofZ c) (ofZ lg)) (Num 100))
          = Some (densityOf c lg)).
  f_equal. unfold densityOf, ofZ.
  destruct (lg =? 0)%Z eqn:Hz.
  - apply Z.eqb_eq in Hz. subst lg. unfold div.
    destruct (Req_dec_T 0 0) as [_ | Hne]; [| now contradiction Hne].
    rewrite Rsign_pos by (apply IZR_lt; lia). cbn.
    rewrite Rsign_pos by lra. reflexivity.
  - apply Z.eqb_neq in Hz. rewrite div_Num by (now apply not_0_IZR).
    reflexivity.
Qed.

(** X9: for a walk whose line and complexity amounts are not negative,
    the cyclomatic density of the aggregate and of every function report
    that [analyse] returns is [Infinity] when the report has no logical
    lines, and [cyclomatic / logical * 100] otherwise; it is never
    [NaN]. *)
Theorem density_of_empty_function (ast : Ast Node) (walker : Walker Node)
    (options : option Settings) (r : ModuleReport) :
  Forall nonnegative (walker ast (default defaultSettings options)) ->
  analyse ast walker options = inr r ->
  Forall (fun f =>
            cyclomaticDensity f
              = Some (densityOf (cyclomatic f) (logical (sloc f))))
         (aggregate r :: functions r).
Proof.
  intros Hcalls Hr. unfold analyse in Hr.
  apply calculateMetrics_inr in Hr as (-> & -> & _).
  destruct (allCounted_walk _ (initial ast) Hcalls (allCounted_initial ast))
    as [Hagg Hfs].
  assert (Hfin : forall f, wellCounted f ->
             cyclomaticDensity (finalise f)
               = Some (densityOf (cyclomatic (finalise f))
                                 (logical (sloc (finalise f))))).
  { intros f Hf. destruct (finalise_fields f) as (-> & -> & _).
    now apply density_finalise. }
  constructor; [now apply Hfin |].
  rewrite Forall_fmap. eapply Forall_impl; [exact Hfs |]. exact Hfin.
Qed.

Lemma bagsSound_walk (ast : Ast Node) (calls : list (Callback Node)) :
  bagsSound (aggregate (report (walk calls (initial ast))))
  /\ Forall bagsSound (functions (report (walk calls (initial ast)))).
Proof.
  apply reports_walk.
  - intros; now apply bagsSound_nodeEffect.
  - apply bagsSound_new.
  - intros f b Hb. now destruct b.
  - split; [apply bagsSound_new | constructor].
Qed.

Lemma finiteMetrics_effort (f : FunctionReport) :
  finiteMetrics (halstead f) -> halstead_effort f = Num (effortOf f).
Proof.
  intros (m & Hm & _ & _ & _ & _ & He & _).
  unfold halstead_effort, effortOf. rewrite Hm. cbn.
  destruct (effort m); cbn in He; try contradiction. reflexivity.
Qed.

(** The sums of [calculateMetrics] over finalised reports. *)
Lemma sums_exact (l : list FunctionReport) (a b c d : R) :
  Forall (fun f => finiteMetrics (halstead f)) l ->
  fold_left sumMaintainabilityMetrics l [Num a; Num b; Num c; Num d]
  = [ Num (a + IZR (sumOver (fun f => logical (sloc f)) l));
      Num (b + IZR (sumOver cyclomatic l));
      Num (c + realTotal (effortOf <$> l));
      Num (d + IZR (sumOver params l)) ].
Proof.
  intros Hl. revert a b c d.
  induction Hl as [|f l Hf _ IH]; intros a b c d;
    cbn [fold_left sumOver fold_right fmap list_fmap realTotal].
  - repeat (apply f_equal2; [f_equal; lra |]); reflexivity.
  - rewrite sumMaintainabilityMetrics_four, (finiteMetrics_effort f Hf).
    unfold ofZ. rewrite !add_Num, IH.
    fold (sumOver (fun f => logical (sloc f)) l). fold (sumOver cyclomatic l).
    fold (sumOver params l). fold (realTotal (effortOf <$> l)).
    rewrite !plus_IZR.
    repeat (apply f_equal2; [f_equal; lra |]); reflexivity.
Qed.

(** X24: the four module values [loc], [cyclomatic], [effort] and
    [params] of a report [analyse] returns are averages per function:
    the sum of the field over the function reports divided by their
    number.  Only for a module without functions they are the values of
    the aggregate. *)
Theorem module_values_are_function_averages (ast : Ast Node)
    (walker : Walker Node) (options : option Settings) (r : ModuleReport) :
  analyse ast walker options = inr r ->
  let fs := functions r in
  let count := IZR (Z.of_nat (length fs)) in
  (fs <> [] ->
   report_loc r = Some (Num (IZR (sumOver (fun f => logical (sloc f)) fs) / count))
   /\ report_cyclomatic r = Some (Num (IZR (sumOver cyclomatic fs) / count))
   /\ report_effort r = Some (Num (realTotal (effortOf <$> fs) / count))
   /\ report_params r = Some (Num (IZR (sumOver params fs) / count)))
  /\ (fs = [] ->
      report_loc r = Some (Num (IZR (logical (sloc (aggregate r)))))
      /\ report_cyclomatic r = Some (Num (IZR (cyclomatic (aggregate r))))
      /\ report_effort r = Some (Num (effortOf (aggregate r)))
      /\ report_params r = Some (Num (IZR (params (aggregate r))))).
Proof.
  intros Hr. unfold analyse in Hr.
  set (r0 := report (walk (walker ast (default defaultSettings options))
                       (initial ast))) in Hr.
  destruct (bagsSound_walk ast (walker ast (default defaultSettings options)))
    as [Hagg Hfs]. fold r0 in Hagg, Hfs.
  assert (Hfin : Forall (fun f => finiteMetrics (halstead f))
                   (finalise <$> functions r0)).
  { rewrite Forall_fmap. eapply Forall_impl; [exact Hfs |].
    intros f. apply finiteMetrics_finalise. }
  pose proof (finiteMetrics_finalise _ Hagg) as Hfinagg.
  unfold calculateMetrics in Hr.
  destruct (calculateMaintainabilityIndex _ _ _ _); [discriminate |].
  injection Hr as <-.
  cbn [functions aggregate report_loc report_cyclomatic report_effort report_params].
  unfold moduleAverages. rewrite (sums_exact _ 0 0 0 0 Hfin).
  rewrite length_fmap.
  destruct (functions r0) as [|f fs] eqn:Hr0.
  - split; [intros H; now contradiction H |]. intros _.
    cbn [length Nat.eqb fmap list_fmap sumOver fold_right realTotal].
    rewrite sumMaintainabilityMetrics_four, (finiteMetrics_effort _ Hfinagg).
    unfold ofZ. rewrite !add_Num.
    unfold average_at, indices_loc, indices_cyclomatic, indices_effort,
      indices_params.
    cbn [fmap list_fmap lookup list_lookup default from_option].
    unfold Datatypes.id. change (Z.of_nat 1) with 1%Z.
    rewrite !div_Num by lra.
    repeat split; do 2 f_equal; lra.
  - split; [intros _ | discriminate].
    set (l := f :: fs) in *.
    assert (Hcount : IZR (Z.of_nat (length l)) <> 0%R)
      by (apply not_0_IZR; subst l; cbn [length]; lia).
    change (length l =? 0)%nat with false. cbv iota.
    unfold average_at, indices_loc, indices_cyclomatic, indices_effort,
      indices_params.
    cbn [fmap list_fmap lookup list_lookup default from_option].
    unfold Datatypes.id, ofZ.
    rewrite !div_Num by exact Hcount.
    repeat split; do 2 f_equal; lra.
Qed.

End FinalisationProperties.

(* ================================================================== *)
(** * Further properties of the project analyser *)
(* ================================================================== *)

Section PathOrder.

Import EsModule EsProject.

Variable pathlib : PathModule.

Lemma ascii_compare_refl (a : ascii) : Ascii.compare a a = Eq.
Proof. unfold Ascii.compare. apply N.compare_refl. Qed.

Lemma ascii_compare_trans (a b c : ascii) :
  Ascii.compare a b = Lt -> Ascii.compare b c = Lt -> Ascii.compare a c = Lt.
Proof.
  unfold Ascii.compare. rewrite !N.compare_lt_iff. lia.
Qed.

Lemma string_compare_refl (s : string) : String.compare s s = Eq.
Proof.
  induction s as [|c s IH]; cbn [String.compare]; [reflexivity |].
  now rewrite ascii_compare_refl.
Qed.

Lemma string_compare_trans (a b c : string) :
  String.compare a b = Lt -> String.compare b c = Lt -> String.compare a c = Lt.
Proof.
  revert b c. induction a as [|x a IH]; intros [|y b] [|z c];
    cbn [String.compare]; try discriminate; try reflexivity.
  destruct (Ascii.compare x y) eqn:Hxy; try discriminate;
    destruct (Ascii.compare y z) eqn:Hyz; try discriminate; intros Hab Hbc.
  - apply Ascii.compare_eq_iff in Hxy, Hyz. subst.
    rewrite ascii_compare_refl. now apply IH with b.
  - apply Ascii.compare_eq_iff in Hxy. subst. now rewrite Hyz.
  - apply Ascii.compare_eq_iff in Hyz. subst. now rewrite Hxy.
  - now rewrite (ascii_compare_trans x y z).
Qed.

Lemma ltb_irrefl (a : string) : String.ltb a a = false.
Proof. unfold String.ltb. now rewrite string_compare_refl. Qed.

Lemma ltb_trans (a b c : string) :
  String.ltb a b = true -> String.ltb b c = true -> String.ltb a c = true.
Proof.
  unfold String.ltb.
  destruct (String.compare a b) eqn:Hab; try discriminate.
  destruct (String.compare b c) eqn:Hbc; try discriminate.
  now rewrite (string_compare_trans a b c).
Qed.

Lemma ltb_total (a b : string) :
  String.ltb a b = false -> String.ltb b a = false -> a = b.
Proof.
  unfold String.ltb. rewrite (String.compare_antisym a b).
  destruct (String.compare b a) eqn:Hba; cbn; try discriminate.
  intros _ _. symmetry. now apply String.compare_eq_iff.
Qed.

(** [comparePaths] by cases: fewer segments first, then the order of the
    strings. *)
Lemma comparePaths_cases (a b : string) :
  (comparePaths pathlib a b = (-1)%Z
   /\ ((depth pathlib a < depth pathlib b)%nat
       \/ depth pathlib a = depth pathlib b /\ String.ltb a b = true))
  \/ (comparePaths pathlib a b = 1%Z
      /\ ((depth pathlib b < depth pathlib a)%nat
          \/ depth pathlib a = depth pathlib b /\ String.ltb b a = true))
  \/ (comparePaths pathlib a b = 0%Z /\ a = b).
Proof.
  unfold comparePaths, depth.
  set (la := length (split (sep pathlib) a)).
  set (lb := length (split (sep pathlib) b)).
  destruct (Nat.ltb_spec la lb) as [Hlt | Hge]; cbn [orb].
  { left. split; [reflexivity | now left]. }
  destruct (Nat.eqb_spec la lb) as [Heq | Hne]; cbn [andb].
  - destruct (String.ltb a b) eqn:Hab.
    { left. split; [reflexivity | now right]. }
    destruct (Nat.ltb_spec lb la) as [Hlt' | _]; [lia |]. cbn [orb].
    destruct (String.ltb b a) eqn:Hba.
    + right; left. split; [reflexivity | now right].
    + right; right. split; [reflexivity | now apply ltb_total].
  - destruct (Nat.ltb_spec lb la) as [Hlt' | Hge']; [| lia]. cbn [orb].
    right; left. split; [reflexivity | now left].
Qed.

Lemma comparePaths_refl (a : string) : comparePaths pathlib a a = 0%Z.
Proof.
  unfold comparePaths. rewrite Nat.ltb_irrefl, ltb_irrefl.
  now rewrite andb_false_r.
Qed.

Lemma comparePaths_opp (a b : string) :
  comparePaths pathlib b a = (- comparePaths pathlib a b)%Z.
Proof.
  destruct (comparePaths_cases a b) as [[Hab H] | [[Hab H] | [Hab ->]]].
  - rewrite Hab. now apply comparePaths_antisym.
  - rewrite Hab.
    destruct (comparePaths_cases b a) as [[-> _] | [[_ H'] | [_ ->]]];
      [reflexivity | |].
    + destruct H as [H | [He H]], H' as [H' | [He' H']]; try lia.
      now rewrite (ltb_asym _ _ H) in H'.
    + destruct H as [H | [_ H]]; [lia | now rewrite ltb_irrefl in H].
  - now rewrite comparePaths_refl.
Qed.

Lemma comparePaths_le (a b : string) :
  (comparePaths pathlib a b <= 0)%Z <->
  (depth pathlib a < depth pathlib b)%nat
  \/ depth pathlib a = depth pathlib b /\ (String.ltb a b = true \/ a = b).
Proof.
  destruct (comparePaths_cases a b) as [[-> H] | [[-> H] | [-> ->]]].
  - split; [intros _ | lia]. destruct H as [H | [He H]]; auto.
  - split; [lia |]. intros [H' | [He [H' | ->]]].
    + destruct H as [H | [He H]]; lia.
    + destruct H as [H | [_ H]]; [lia |].
      now rewrite (ltb_asym _ _ H) in H'.
    + destruct H as [H | [_ H]]; [lia | now rewrite ltb_irrefl in H].
  - split; [intros _ | lia]. right. auto.
Qed.

Lemma comparePaths_trans (a b c : string) :
  (comparePaths pathlib a b <= 0)%Z -> (comparePaths pathlib b c <= 0)%Z ->
  (comparePaths pathlib a c <= 0)%Z.
Proof.
  rewrite !comparePaths_le.
  intros [H1 | [He1 H1]] [H2 | [He2 H2]]; try (left; lia).
  right. split; [lia |].
  destruct H1 as [H1 | ->], H2 as [H2 | ->]; auto.
  left. now apply ltb_trans with b.
Qed.

(** X10: [comparePaths] is a total order on paths: it returns -1, 0 or
    1, it returns 0 exactly for equal paths, swapping the arguments
    negates the result, "not after" is transitive, and a path of fewer
    segments stands before a path of more segments whatever the
    strings are. *)
Theorem comparePaths_total_order (a b c : string) :
  (comparePaths pathlib a b = (-1)%Z \/ comparePaths pathlib a b = 0%Z
   \/ comparePaths pathlib a b = 1%Z)
  /\ (comparePaths pathlib a b = 0%Z <-> a = b)
  /\ comparePaths pathlib b a = (- comparePaths pathlib a b)%Z
  /\ ((comparePaths pathlib a b <= 0)%Z -> (comparePaths pathlib b c <= 0)%Z ->
      (comparePaths pathlib a c <= 0)%Z)
  /\ ((depth pathlib a < depth pathlib b)%nat ->
      comparePaths pathlib a b = (-1)%Z).
Proof.
  split; [| split; [| split; [| split]]].
  - destruct (comparePaths_cases a b) as [[-> _] | [[-> _] | [-> _]]]; auto.
  - split; [| intros ->; apply comparePaths_refl].
    destruct (comparePaths_cases a b) as [[-> _] | [[-> _] | [_ ->]]];
      try discriminate; reflexivity.
  - apply comparePaths_opp.
  - apply comparePaths_trans.
  - intros Hlt.
    destruct (comparePaths_cases a b) as [[-> _] | [[_ H] | [_ ->]]];
      [reflexivity | | lia].
    destruct H as [H | [He _]]; lia.
Qed.

End PathOrder.

Section SortedReports.

Import EsModule EsProject.

Variable pathlib : PathModule.

#[local] Instance pathOrder_trans : Transitive (pathOrder pathlib).
Proof. intros a b c. apply comparePaths_trans. Qed.

Lemma pathOrder_total (a b : ModuleReport) :
  (comparePaths pathlib (path a) (path b) <=? 0)%Z = false ->
  pathOrder pathlib b a.
Proof.
  intros H. apply Z.leb_gt in H. unfold pathOrder.
  rewrite comparePaths_opp. lia.
Qed.

Lemma pathOrder_antisym (a b : ModuleReport) :
  pathOrder pathlib a b -> pathOrder pathlib b a -> path a = path b.
Proof.
  unfold pathOrder. rewrite (comparePaths_opp pathlib (path a) (path b)).
  intros H1 H2.
  destruct (comparePaths_cases pathlib (path a) (path b))
    as [[H _] | [[H _] | [_ H]]]; [lia | lia | exact H].
Qed.

Lemma HdRel_sort_insert (x y : ModuleReport) (l : list ModuleReport) :
  pathOrder pathlib y x -> HdRel (pathOrder pathlib) y l ->
  HdRel (pathOrder pathlib) y
    (sort_insert (fun lhs rhs => comparePaths pathlib (path lhs) (path rhs)) x l).
Proof.
  intros Hyx Hl. destruct l as [|z l]; cbn [sort_insert].
  - now constructor.
  - destruct (_ <=? 0)%Z; constructor; [exact Hyx |].
    now inversion Hl.
Qed.

Lemma Sorted_sort_insert (x : ModuleReport) (l : list ModuleReport) :
  Sorted (pathOrder pathlib) l ->
  Sorted (pathOrder pathlib)
    (sort_insert (fun lhs rhs => comparePaths pathlib (path lhs) (path rhs)) x l).
Proof.
  induction 1 as [|y l Hl IH Hhd]; cbn [sort_insert].
  - repeat constructor.
  - destruct (_ <=? 0)%Z eqn:Hle.
    + constructor; [now constructor |]. constructor. now apply Z.leb_le.
    + constructor; [exact IH |].
      apply HdRel_sort_insert; [now apply pathOrder_total | exact Hhd].
Qed.

Lemma Sorted_sortedReports (l : list ModuleReport) :
  Sorted (pathOrder pathlib) (sortedReports pathlib l).
Proof.
  unfold sortedReports, sort. induction l as [|x l IH]; cbn [foldr].
  - constructor.
  - now apply Sorted_sort_insert.
Qed.

(** X11: [processResults] leaves the reports rearranged, none lost and
    none added, in the order of [comparePaths]: every report stands
    before all reports whose path compares greater. *)
Theorem reports_are_sorted (result : Result) (noCoreSize : bool) :
  let r := processResults pathlib result noCoreSize in
  reports r ≡ₚ reports result
  /\ StronglySorted (pathOrder pathlib) (reports r)
  /\ (forall i j ri rj,
        (i < j)%nat -> reports r !! i = Some ri -> reports r !! j = Some rj ->
        (comparePaths pathlib (path ri) (path rj) <= 0)%Z).
Proof.
  cbv zeta.
  destruct (processResults_adjacency pathlib result noCoreSize) as (-> & _).
  assert (Hs : StronglySorted (pathOrder pathlib)
                 (sortedReports pathlib (reports result))).
  { apply Sorted_StronglySorted; [apply pathOrder_trans |].
    apply Sorted_sortedReports. }
  split; [apply sort_Permutation |]. split; [exact Hs |].
  revert Hs. generalize (sortedReports pathlib (reports result)).
  intros l Hs. induction Hs as [|x l Hs IH Hx]; intros i j ri rj Hij Hi Hj.
  - discriminate.
  - destruct j as [|j]; [lia |]. cbn in Hj.
    destruct i as [|i].
    + injection Hi as <-. rewrite Forall_forall in Hx.
      apply Hx. eapply list_elem_of_lookup_2. exact Hj.
    + cbn in Hi. apply (IH i j); [lia | exact Hi | exact Hj].
Qed.

Lemma NoDup_fmap_eq {T U} (f : T -> U) (l : list T) (x y : T) :
  NoDup (f <$> l) -> x ∈ l -> y ∈ l -> f x = f y -> x = y.
Proof.
  induction l as [|z l IH]; cbn [fmap list_fmap]; intros Hnd Hx Hy Hf.
  - now apply elem_of_nil in Hx.
  - apply NoDup_cons in Hnd as [Hz Hnd].
    apply elem_of_cons in Hx as [-> | Hx]; apply elem_of_cons in Hy as [-> | Hy].
    + reflexivity.
    + exfalso. apply Hz. rewrite Hf. now apply list_elem_of_fmap_2.
    + exfalso. apply Hz. rewrite <- Hf. now apply list_elem_of_fmap_2.
    + now apply IH.
Qed.

Lemma sortedReports_Permutation (l k : list ModuleReport) :
  l ≡ₚ k -> NoDup (path <$> l) ->
  sortedReports pathlib l = sortedReports pathlib k.
Proof.
  intros Hperm Hnd.
  apply (Sorted_unique_strong (pathOrder pathlib)).
  - intros x y Hx Hy Hxy Hyx.
    apply (NoDup_fmap_eq path l); [exact Hnd | | | now apply pathOrder_antisym].
    + unfold sortedReports in Hx. now rewrite sort_Permutation in Hx.
    + unfold sortedReports in Hy. now rewrite sort_Permutation, <- Hperm in Hy.
  - apply Sorted_sortedReports.
  - apply Sorted_sortedReports.
  - unfold sortedReports. now rewrite !sort_Permutation.
Qed.

(** X12: for reports with pairwise different paths the result of
    [processResults] does not depend on the order in which the reports
    are given. *)
Theorem result_independent_of_order (l k : list ModuleReport)
    (noCoreSize : bool) :
  l ≡ₚ k -> NoDup (path <$> l) ->
  processResults pathlib (unprocessed l) noCoreSize
  = processResults pathlib (unprocessed k) noCoreSize.
Proof.
  intros Hperm Hnd. unfold processResults, createAdjacencyMatrix.
  cbn [reports unprocessed visibilityMatrix changeCost coreSize
       result_cyclomatic result_effort result_loc result_maintainability
       result_params].
  fold (sortedReports pathlib l). fold (sortedReports pathlib k).
  now rewrite (sortedReports_Permutation l k Hperm Hnd).
Qed.

End SortedReports.

Section Counting.

Import EsModule EsProject.

Lemma countIf_cons {T} (p : T -> bool) (x : T) (l : list T) :
  countIf p (x :: l) = ((if p x then 1 else 0) + countIf p l)%Z.
Proof.
  unfold countIf. cbn [List.filter]. destruct (p x); cbn [length]; lia.
Qed.

Lemma countIf_range {T} (p : T -> bool) (l : list T) :
  (0 <= countIf p l <= Z.of_nat (length l))%Z.
Proof.
  induction l as [|x l IH]; [unfold countIf; cbn; lia |].
  rewrite countIf_cons. cbn [length]. destruct (p x); lia.
Qed.

Lemma fold_left_count {T} (p : T -> bool) (l : list T) (c : Z) :
  fold_left (fun c v => if p v then (c + 1)%Z else c) l c
  = (c + countIf p l)%Z.
Proof.
  revert c. induction l as [|x l IH]; intros c; cbn [fold_left].
  - unfold countIf. cbn. lia.
  - rewrite IH, countIf_cons. destruct (p x); lia.
Qed.

Lemma fold_left_countCells {T} (p : T -> bool) (m : list (list T)) (c : Z) :
  fold_left
    (fun c row => fold_left (fun c v => if p v then (c + 1)%Z else c) row c)
    m c
  = (c + countCells p m)%Z.
Proof.
  revert c. induction m as [|row m IH]; intros c; cbn [fold_left countCells fold_right].
  - lia.
  - rewrite IH, fold_left_count. unfold countCells. lia.
Qed.

Lemma count_finite_countCells (D : list (list distance)) :
  count_finite D = countCells is_finite D.
Proof. unfold count_finite. now rewrite fold_left_countCells. Qed.

Lemma count_ones_countCells (A : list (list Z)) :
  count_ones A = countCells (fun v => (v =? 1)%Z) A.
Proof. unfold count_ones. now rewrite fold_left_countCells. Qed.

Lemma countCells_range {T} (p : T -> bool) (n : nat) (m : list (list T)) :
  Forall (fun row => length row = n) m ->
  (0 <= countCells p m <= Z.of_nat (length m) * Z.of_nat n)%Z.
Proof.
  induction 1 as [|row m Hrow _ IH]; cbn [countCells fold_right length].
  - lia.
  - pose proof (countIf_range p row) as Hr. rewrite Hrow in Hr.
    fold (countCells p m). nia.
Qed.

Lemma percentify_range (value limit : Z) :
  (0 <= value <= limit)%Z -> percentage (percentify value limit).
Proof.
  intros [H0 Hle]. unfold percentify.
  destruct (limit =? 0)%Z eqn:Hz; [cbn; lra |].
  apply Z.eqb_neq in Hz. unfold ofZ.
  rewrite div_Num by (now apply not_0_IZR). rewrite mul_Num. cbn [percentage].
  assert (Hl : (0 < IZR limit)%R) by (apply IZR_lt; lia).
  pose proof (Rdiv_nonneg (IZR value) (IZR limit) (IZR_le _ _ H0) Hl).
  pose proof (Rdiv_le_1 (IZR value) (IZR limit) Hl (IZR_le _ _ Hle)).
  lra.
Qed.

End Counting.

Section MatrixProperties.

Import EsModule EsProject.

Variable pathlib : PathModule.

(** X13: the adjacency matrix [processResults] builds has one row and
    one column for each report, in the sorted order; the cell [x], [y]
    is 1 exactly when [x] and [y] differ and some dependency record of
    report [x] passes [checkDependency] for the path of report [y], and
    it is 0 otherwise, so the diagonal is 0. *)
Theorem adjacency_cells (result : Result) (noCoreSize : bool) (x y : nat) :
  let r := processResults pathlib result noCoreSize in
  (x < length (reports r))%nat -> (y < length (reports r))%nat ->
  exists A from to,
    adjacencyMatrix r = Some A
    /\ square (length (reports r)) A
    /\ reports r !! x = Some from /\ reports r !! y = Some to
    /\ (cell A x y = Some 1%Z
        <-> x <> y
            /\ exists d, d ∈ dependencies from
                         /\ checkDependency pathlib (path from) d (path to) = true)
    /\ (cell A x y = Some 1%Z \/ cell A x y = Some 0%Z)
    /\ cell A x x = Some 0%Z.
Proof.
  cbv zeta.
  destruct (processResults_adjacency pathlib result noCoreSize) as (-> & -> & _).
  set (l := sortedReports pathlib (reports result)). intros Hx Hy.
  destruct (lookup_lt_is_Some_2 l x Hx) as [from Hfrom].
  destruct (lookup_lt_is_Some_2 l y Hy) as [to Hto].
  exists (adjacencyOf pathlib l), from, to.
  split; [reflexivity |]. split; [apply square_adjacencyOf |].
  split; [exact Hfrom |]. split; [exact Hto |].
  rewrite !cell_adjacencyOf by assumption.
  unfold getAdjacencyMatrixValue. rewrite Nat.eqb_refl, Hfrom, Hto.
  split; [| split; [| reflexivity]].
  - destruct (Nat.eqb_spec x y) as [-> | Hne].
    { split; [discriminate | now intros [Hne _]]. }
    rewrite doesDependencyExist_existsb.
    destruct (existsb _ _) eqn:Hex.
    + split; [intros _ | reflexivity]. split; [exact Hne |].
      apply existsb_exists in Hex as (d & Hd & Hcheck).
      exists d. split; [now apply list_elem_of_In | exact Hcheck].
    + split; [discriminate |]. intros (_ & d & Hd & Hcheck).
      assert (existsb (fun d => checkDependency pathlib (path from) d (path to))
                (dependencies from) = true).
      { apply existsb_exists. exists d. split; [now apply list_elem_of_In | exact Hcheck]. }
      congruence.
  - destruct (x =? y)%nat; [now right |].
    destruct (doesDependencyExist _ _ _); [now left | now right].
Qed.

Lemma coreSize_percentage (result : Result) :
  exists c, coreSize (setCoreSize result) = Some c /\ percentage c.
Proof.
  unfold setCoreSize. destruct (from_option _ _ _).
  - exists (Num 0). split; [reflexivity | cbn; lra].
  - eexists. split; [reflexivity |].
    apply percentify_range.
    rewrite (fold_left_count
               (fun index =>
                  geb (from_option ofZ NaN
                         ((sum_row <$> default [] (visibilityMatrix result)) !! index))
                      (getMedian (sum_row <$> default [] (visibilityMatrix result)))
                  && geb (from_option ofZ NaN
                            (accumulate_fanOut (default [] (visibilityMatrix result))
                               !! index))
                         (getMedian (accumulate_fanOut
                                       (default [] (visibilityMatrix result)))))).
    pose proof (countIf_range
                  (fun index =>
                  geb (from_option ofZ NaN
                         ((sum_row <$> default [] (visibilityMatrix result)) !! index))
                      (getMedian (sum_row <$> default [] (visibilityMatrix result)))
                  && geb (from_option ofZ NaN
                            (accumulate_fanOut (default [] (visibilityMatrix result))
                               !! index))
                         (getMedian (accumulate_fanOut
                                       (default [] (visibilityMatrix result)))))
                  (seq 0 (length (default [] (visibilityMatrix result))))) as H.
    rewrite length_seq in H. lia.
Qed.

(** X14: the three percentages [processResults] computes with
    [noCoreSize] false, [firstOrderDensity], [changeCost] and
    [coreSize], are real numbers from 0 to 100, for every list of
    reports. *)
Theorem percentages_in_range (result : Result) :
  let r := processResults pathlib result false in
  exists density cost core,
    firstOrderDensity r = Some density /\ percentage density
    /\ changeCost r = Some cost /\ percentage cost
    /\ coreSize r = Some core /\ percentage core.
Proof.
  cbv zeta.
  destruct (processResults_adjacency pathlib result false) as (_ & _ & Hd).
  destruct (processResults_visibility pathlib result) as (_ & Hc).
  set (l := sortedReports pathlib (reports result)) in *.
  destruct (coreSize_percentage
              (createVisibilityMatrix (createAdjacencyMatrix pathlib result)))
    as (core & Hcore & Hrange).
  eexists _, _, core. split; [exact Hd |]. split; [| split; [exact Hc |]; split].
  - unfold percentifyDensity. apply percentify_range.
    rewrite count_ones_countCells.
    destruct (square_adjacencyOf pathlib l) as [Hlen Hrows].
    pose proof (countCells_range (fun v => (v =? 1)%Z) _ _ Hrows) as H.
    rewrite Hlen in *. exact H.
  - unfold percentifyDensity. apply percentify_range.
    rewrite count_finite_countCells.
    destruct (floydWarshall_square (adjacencyOf pathlib l) (length l)
                (square_adjacencyOf pathlib l)) as [Hlen Hrows].
    pose proof (countCells_range is_finite _ _ Hrows) as H.
    unfold distToVisibility. rewrite length_imap, Hlen in *. exact H.
  - split; [| exact Hrange]. exact Hcore.
Qed.

End MatrixProperties.

Section ChangeCost.

Import EsModule EsProject.

Variable pathlib : PathModule.

(** One row of the conversion: the finite cells are the cells that
    become 1 and, when it is finite, the cell on the diagonal. *)
Lemma countIf_visibility_row (row : list distance) (i k : nat) :
  countIf is_finite row
  = (countIf (fun v => (v =? 1)%Z)
       (imap (fun j value =>
                if is_finite value && negb (k + j =? i)%nat then 1%Z else 0%Z)
             row)
     + if (k <=? i)%nat
       then match row !! (i - k)%nat with
            | Some (Finite _) => 1
            | _ => 0
            end
       else 0)%Z.
Proof.
  revert k. induction row as [|v row IH]; intros k.
  - cbn. destruct (k <=? i)%nat; reflexivity.
  - cbn [imap]. rewrite !countIf_cons.
    rewrite (imap_ext _ (fun j value =>
               if is_finite value && negb (S k + j =? i)%nat then 1%Z else 0%Z))
      by (intros j x _; cbn [compose]; now rewrite Nat.add_succ_r).
    rewrite (IH (S k)). rewrite Nat.add_0_r.
    destruct (Nat.eqb_spec k i) as [-> | Hne].
    + rewrite andb_false_r. cbn [Z.eqb].
      rewrite Nat.leb_refl, Nat.sub_diag. cbn [lookup list_lookup].
      destruct (Nat.leb_spec (S i) i) as [Hle | _]; [lia |].
      destruct v; cbn [is_finite]; lia.
    + rewrite andb_true_r.
      destruct (Nat.leb_spec k i) as [Hle | Hgt].
      * destruct (Nat.leb_spec (S k) i) as [_ | Hgt]; [| lia].
        replace (i - k)%nat with (S (i - S k)) by lia. cbn [lookup list_lookup].
        destruct (is_finite v);
        change (1 =? 1)%Z with true; change (0 =? 1)%Z with false;
        cbn beta iota; try destruct (row !! (i - S k)%nat) as [[?|]|]; lia.
      * destruct (Nat.leb_spec (S k) i) as [Hle | _]; [lia |].
        destruct (is_finite v);
        change (1 =? 1)%Z with true; change (0 =? 1)%Z with false;
        cbn beta iota; try destruct (row !! (i - S k)%nat) as [[?|]|]; lia.
Qed.

Lemma countCells_visibility (m : list (list distance)) (k : nat) :
  (forall i row, m !! i = Some row ->
                 exists v, row !! (k + i)%nat = Some (Finite v)) ->
  countCells is_finite m
  = (Z.of_nat (length m)
     + countCells (fun v => (v =? 1)%Z)
         (imap (fun rowIndex row =>
                  imap (fun columnIndex value =>
                          if is_finite value
                             && negb (columnIndex =? k + rowIndex)%nat
                          then 1%Z else 0%Z)
                       row)
               m))%Z.
Proof.
  revert k. induction m as [|row m IH]; intros k Hdiag.
  - reflexivity.
  - cbn [imap countCells fold_right length].
    rewrite (imap_ext _ (fun rowIndex row =>
               imap (fun columnIndex value =>
                       if is_finite value
                          && negb (columnIndex =? S k + rowIndex)%nat
                       then 1%Z else 0%Z) row))
      by (intros i x _; cbn [compose]; now rewrite Nat.add_succ_r).
    fold (countCells is_finite m).
    fold (countCells (fun v => (v =? 1)%Z)
            (imap (fun rowIndex row =>
               imap (fun columnIndex value =>
                       if is_finite value
                          && negb (columnIndex =? S k + rowIndex)%nat
                       then 1%Z else 0%Z) row) m)).
    rewrite (IH (S k)).
    2:{ intros i r Hr. specialize (Hdiag (S i) r Hr).
        now rewrite Nat.add_succ_r in Hdiag. }
    rewrite (countIf_visibility_row row (k + 0) 0).
    destruct (Hdiag 0%nat row eq_refl) as [v Hv].
    cbn [Nat.leb]. rewrite Nat.sub_0_r, Hv. cbn [Nat.add]. lia.
Qed.

Lemma count_finite_visibility (A : list (list Z)) (n : nat) :
  square n A -> binary A ->
  let D := floydWarshall (adjacencyToDistMatrix A) in
  count_finite D = (Z.of_nat n + count_ones (distToVisibility D))%Z.
Proof.
  intros HA Hbin D.
  rewrite count_finite_countCells, count_ones_countCells.
  destruct (floydWarshall_square A n HA) as [Hlen Hrows]. fold D in Hlen, Hrows.
  unfold distToVisibility. rewrite <- Hlen.
  apply (countCells_visibility D 0).
  intros i row Hrow. cbn [Nat.add].
  assert (Hi : (i < n)%nat) by (apply lookup_lt_Some in Hrow; lia).
  destruct (proj2 (floydWarshall_finite A n HA Hbin i i Hi Hi) (or_introl eq_refl))
    as [v Hv].
  fold D in Hv. apply cell_Some in Hv as (row' & Hrow' & Hv).
  exists v. congruence.
Qed.

(** X15: [changeCost] also counts every module as visible to itself,
    although the diagonal of the visibility matrix is 0: for [N]
    reports it is [percentify] of [N] plus the number of 1 cells of the
    visibility matrix, out of [N * N] cells, and at most [N * N - N]
    cells are 1.  So for a project that is not empty it is greater
    than 0, also when no module depends on another. *)
Theorem changeCost_counts_diagonal (result : Result) :
  let r := processResults pathlib result false in
  let N := Z.of_nat (length (reports r)) in
  exists V,
    visibilityMatrix r = Some V
    /\ changeCost r = Some (percentify (N + count_ones V) (N * N))
    /\ (0 <= count_ones V <= N * N - N)%Z
    /\ (reports result <> [] ->
        exists cost, changeCost r = Some (Num cost)
                     /\ (0 < cost <= 100)%R).
Proof.
  cbv zeta.
  destruct (processResults_adjacency pathlib result false) as (-> & _).
  destruct (processResults_visibility pathlib result) as (-> & ->).
  set (l := sortedReports pathlib (reports result)).
  set (D := floydWarshall (adjacencyToDistMatrix (adjacencyOf pathlib l))).
  assert (Hcount : count_finite D
                   = (Z.of_nat (length l) + count_ones (distToVisibility D))%Z)
    by (apply count_finite_visibility;
        [apply square_adjacencyOf | apply binary_adjacencyOf]).
  assert (Hlen : length (distToVisibility D) = length l).
  { unfold distToVisibility. rewrite length_imap.
    apply (floydWarshall_square (adjacencyOf pathlib l) (length l)
             (square_adjacencyOf pathlib l)). }
  assert (Hones : (0 <= count_ones (distToVisibility D)
                   /\ Z.of_nat (length l) + count_ones (distToVisibility D)
                      <= Z.of_nat (length l) * Z.of_nat (length l))%Z).
  { rewrite <- Hcount. rewrite count_ones_countCells, count_finite_countCells.
    destruct (floydWarshall_square (adjacencyOf pathlib l) (length l)
                (square_adjacencyOf pathlib l)) as [HlenD HrowsD].
    fold D in HlenD, HrowsD.
    pose proof (countCells_range is_finite _ _ HrowsD) as H1.
    rewrite HlenD in H1.
    destruct (square_imap
                (fun rowIndex columnIndex value =>
                   if is_finite value && negb (columnIndex =? rowIndex)%nat
                   then 1%Z else 0%Z) (length l) D (conj HlenD HrowsD))
      as [_ HrowsV].
    pose proof (countCells_range (fun v => (v =? 1)%Z) _ _ HrowsV) as H2.
    fold (distToVisibility D) in H2. lia. }
  exists (distToVisibility D). split; [reflexivity |].
  unfold percentifyDensity. rewrite Hlen, Hcount.
  split; [reflexivity |]. split; [lia |]. intros Hne.
  assert (Hpos : (0 < Z.of_nat (length l))%Z).
  { subst l. rewrite length_sortedReports.
    destruct (reports result); [contradiction | cbn [length]; lia]. }
  unfold percentify.
  destruct (Z.eqb_spec (Z.of_nat (length l) * Z.of_nat (length l)) 0) as [H0 | _];
    [nia |].
  unfold ofZ. rewrite div_Num by (apply not_0_IZR; nia). rewrite mul_Num.
  eexists. split; [reflexivity |].
  set (n := Z.of_nat (length l)) in *.
  set (c := count_ones (distToVisibility D)) in *.
  assert (Hnn : (0 < IZR (n * n))%R) by (apply IZR_lt; nia).
  assert (Hnc : (0 < IZR (n + c))%R) by (apply IZR_lt; lia).
  split.
  - apply Rmult_lt_0_compat; [| lra].
    unfold Rdiv. apply Rmult_lt_0_compat; [exact Hnc |].
    now apply Rinv_0_lt_compat.
  - pose proof (Rdiv_le_1 (IZR (n + c)) (IZR (n * n)) Hnn
                  (IZR_le _ _ (proj2 Hones))). lra.
Qed.

End ChangeCost.

Section NoDependencies.

Import EsModule EsProject.

Variable pathlib : PathModule.

Lemma cells_zeroMatrix (n : nat) (m : list (list Z)) :
  square n m ->
  (forall i j, (i < n)%nat -> (j < n)%nat -> cell m i j = Some 0%Z) ->
  m = zeroMatrix n.
Proof.
  intros [Hlen Hrows] Hcells. unfold zeroMatrix.
  apply list_eq. intros i.
  destruct (decide (i < n)%nat) as [Hi | Hi].
  - rewrite lookup_replicate_2 by exact Hi.
    destruct (lookup_lt_is_Some_2 m i) as [row Hrow]; [lia |].
    rewrite Hrow. f_equal.
    rewrite Forall_lookup in Hrows. specialize (Hrows i row Hrow).
    apply list_eq. intros j.
    destruct (decide (j < n)%nat) as [Hj | Hj].
    + rewrite lookup_replicate_2 by exact Hj.
      specialize (Hcells i j Hi Hj). unfold cell in Hcells.
      now rewrite Hrow in Hcells.
    + rewrite !lookup_ge_None_2; [reflexivity | rewrite length_replicate; lia | lia].
  - rewrite !lookup_ge_None_2; [reflexivity | rewrite length_replicate; lia | lia].
Qed.

Lemma cell_zeroMatrix (n i j : nat) (v : Z) :
  cell (zeroMatrix n) i j = Some v -> v = 0%Z.
Proof.
  intros H. apply cell_Some in H as (row & Hrow & Hv).
  apply lookup_replicate in Hrow as [-> _].
  now apply lookup_replicate in Hv as [-> _].
Qed.

Lemma count_ones_zeroMatrix (n : nat) : count_ones (zeroMatrix n) = 0%Z.
Proof.
  rewrite count_ones_countCells. unfold zeroMatrix.
  assert (Hrow : forall k, countIf (fun v => (v =? 1)%Z) (replicate k 0%Z) = 0%Z).
  { induction k as [|k IH]; [reflexivity |].
    cbn [replicate]. rewrite countIf_cons, IH. reflexivity. }
  generalize (Hrow n). generalize (replicate n 0%Z) as row. intros row Hz.
  induction n as [|k IH]; [reflexivity |].
  cbn [replicate countCells fold_right].
  fold (countCells (fun v => (v =? 1)%Z) (replicate k row)).
  rewrite IH, Hz. reflexivity.
Qed.

Lemma setCoreSize_zero_density (result : Result) :
  firstOrderDensity result = Some (Num 0) ->
  coreSize (setCoreSize result) = Some (Num 0).
Proof.
  intros H. unfold setCoreSize. rewrite H. cbn [from_option].
  now rewrite (proj2 (eqb_Num 0 0) eq_refl).
Qed.

Lemma percentify_zero (limit : Z) : percentify 0 limit = Num 0.
Proof.
  unfold percentify. destruct (Z.eqb_spec limit 0) as [_ | Hne]; [reflexivity |].
  unfold ofZ. rewrite div_Num by (now apply not_0_IZR). rewrite mul_Num.
  f_equal. unfold Rdiv. lra.
Qed.

(** X16: when no report has a dependency that resolves to another report
    of the project (a report may resolve to itself), [processResults]
    yields an adjacency matrix and a visibility matrix of zeros,
    [firstOrderDensity] 0 and [coreSize] 0, while [changeCost] is
    [percentify] of [N] out of [N * N] for [N] reports: every module
    still counts as visible to itself. *)
Theorem project_without_dependencies (result : Result) :
  (forall i j from to,
      i <> j ->
      reports result !! i = Some from -> reports result !! j = Some to ->
      doesDependencyExist pathlib from to = false) ->
  let r := processResults pathlib result false in
  let N := length (reports result) in
  adjacencyMatrix r = Some (zeroMatrix N)
  /\ firstOrderDensity r = Some (Num 0)
  /\ visibilityMatrix r = Some (zeroMatrix N)
  /\ changeCost r = Some (percentify (Z.of_nat N) (Z.of_nat N * Z.of_nat N))
  /\ coreSize r = Some (Num 0).
Proof.
  intros Hnone. cbv zeta.
  destruct (processResults_adjacency pathlib result false) as (_ & HA & Hd).
  destruct (processResults_visibility pathlib result) as (HV & Hc).
  set (l := sortedReports pathlib (reports result)) in *.
  assert (Hl : length l = length (reports result))
    by apply length_sortedReports.
  assert (Hsorted : forall i j from to,
             i <> j -> l !! i = Some from -> l !! j = Some to ->
             doesDependencyExist pathlib from to = false).
  { assert (Hperm : l ≡ₚ reports result) by apply sort_Permutation.
    apply Permutation_inj in Hperm as (_ & f & Hinj & Hf).
    intros i j from to Hne Hi Hj. rewrite Hf in Hi, Hj.
    apply (Hnone (f i) (f j)); [| exact Hi | exact Hj].
    intros Heq. apply Hne. now apply Hinj. }
  assert (Hadj : adjacencyOf pathlib l = zeroMatrix (length (reports result))).
  { apply cells_zeroMatrix; [rewrite <- Hl; apply square_adjacencyOf |].
    intros i j Hi Hj. rewrite cell_adjacencyOf by lia.
    unfold getAdjacencyMatrixValue.
    destruct (Nat.eqb_spec i j) as [_ | Hne]; [reflexivity |].
    destruct (l !! i) as [from|] eqn:Hfrom; [| reflexivity].
    destruct (l !! j) as [to|] eqn:Hto; [| reflexivity].
    now rewrite (Hsorted i j from to Hne Hfrom Hto). }
  assert (Hsq : square (length (reports result)) (adjacencyOf pathlib l))
    by (rewrite <- Hl; apply square_adjacencyOf).
  assert (Hvis : distToVisibility
                   (floydWarshall (adjacencyToDistMatrix (adjacencyOf pathlib l)))
                 = zeroMatrix (length (reports result))).
  { apply cells_zeroMatrix.
    - apply square_imap. now apply floydWarshall_square.
    - intros i j Hi Hj.
      destruct (visibility_closure (adjacencyOf pathlib l) _ Hsq
                  (binary_adjacencyOf pathlib l) i j Hi Hj) as [Hone Hor].
      destruct Hor as [H1 | H0]; [| exact H0].
      apply Hone in H1 as [_ Hreach]. exfalso.
      assert (Hedge : forall a b, ~ edge (adjacencyOf pathlib l) a b).
      { intros a b He. unfold edge in He. rewrite Hadj in He.
        now apply cell_zeroMatrix in He. }
      destruct Hreach as [a b He | a m b He _]; now apply Hedge in He. }
  assert (Hdensity : firstOrderDensity (processResults pathlib result false)
                     = Some (Num 0)).
  { rewrite Hd, Hadj. unfold percentifyDensity.
    now rewrite count_ones_zeroMatrix, percentify_zero. }
  split; [now rewrite HA, Hadj |]. split; [exact Hdensity |].
  split; [now rewrite HV, Hvis |]. split.
  - rewrite Hc.
    rewrite (count_finite_visibility (adjacencyOf pathlib l) _ Hsq
               (binary_adjacencyOf pathlib l)).
    rewrite Hvis, count_ones_zeroMatrix. unfold percentifyDensity, zeroMatrix.
    now rewrite length_replicate, Z.add_0_r.
  - unfold processResults. cbn [negb calculateAverages coreSize].
    apply setCoreSize_zero_density.
    unfold processResults in Hdensity.
    cbn [negb calculateAverages firstOrderDensity] in Hdensity.
    destruct (setCoreSize_fields (createVisibilityMatrix
                (createAdjacencyMatrix pathlib result))) as (_ & _ & Hf & _).
    rewrite Hf in Hdensity. exact Hdensity.
Qed.

End NoDependencies.

Section ProjectAnalyse.

Import EsModule EsProject.

Variable pathlib : PathModule.
Context {Node : Type}.

Implicit Types (walker : Walker Node) (options : Options)
  (m : ModuleInput Node) (modules : list (ModuleInput Node)).

Lemma path_empty (p : string) :
  (String.length p =? 0)%nat = true <-> p = EmptyString.
Proof.
  destruct p; cbn; split; intros H; try reflexivity; discriminate.
Qed.

(** The three outcomes of the callback of [modules.map]. *)
Lemma analyseModule_cases walker options m :
  (input_path m = EmptyString
   /\ analyseModule walker options m = inl (Err "Invalid path"))
  \/ (input_path m <> EmptyString
      /\ exists message,
           EsModule.analyse (input_ast m) walker (Some (settings options))
           = inl (Err message)
           /\ analyseModule walker options m
              = inl (Err (input_path m ++ ": " ++ message)%string))
  \/ (input_path m <> EmptyString
      /\ exists r,
           EsModule.analyse (input_ast m) walker (Some (settings options)) = inr r
           /\ analyseModule walker options m = inr (set_path (input_path m) r)).
Proof.
  unfold analyseModule.
  destruct (String.length (input_path m) =? 0)%nat eqn:Hlen.
  { left. split; [now apply path_empty | reflexivity]. }
  assert (Hne : input_path m <> EmptyString).
  { intros H. apply path_empty in H. congruence. }
  right.
  destruct (EsModule.analyse (input_ast m) walker (Some (settings options)))
    as [[message] | r] eqn:Hm.
  - left. eauto.
  - right. eauto.
Qed.

(** X17: the project analyser raises exactly when some module has an
    empty path or its module analysis raises, and the error is that of
    the first such module in the list: ['Invalid path'] for an empty
    path, and otherwise the error of the module analyser with the
    module path and [': '] put in front of its message, whatever that
    message is. *)
Theorem analyse_raises_for_first_bad_module modules walker options (e : Error) :
  analyse pathlib modules walker options = inl e <->
  exists before m after,
    modules = before ++ m :: after
    /\ Forall (fun m' =>
                 input_path m' <> EmptyString
                 /\ exists r, EsModule.analyse (input_ast m') walker
                                (Some (settings options)) = inr r)
              before
    /\ (input_path m = EmptyString /\ e = Err "Invalid path"
        \/ input_path m <> EmptyString
           /\ exists message,
                EsModule.analyse (input_ast m) walker (Some (settings options))
                = inl (Err message)
                /\ e = Err (input_path m ++ ": " ++ message)%string).
Proof.
  unfold analyse.
  assert (H : analyseModules walker options modules = inl e <->
              exists before m after,
                modules = before ++ m :: after
                /\ Forall (fun m' =>
                             input_path m' <> EmptyString
                             /\ exists r, EsModule.analyse (input_ast m') walker
                                            (Some (settings options)) = inr r)
                          before
                /\ (input_path m = EmptyString /\ e = Err "Invalid path"
                    \/ input_path m <> EmptyString
                       /\ exists message,
                            EsModule.analyse (input_ast m) walker
                              (Some (settings options))
                            = inl (Err message)
                            /\ e = Err (input_path m ++ ": " ++ message)%string)).
  { induction modules as [|m modules IH]; cbn [analyseModules].
    - split; [discriminate |].
      intros (before & m & after & Heq & _). now destruct before.
    - destruct (analyseModule_cases walker options m)
        as [[Hp Hm] | [(Hp & message & Ha & Hm) | (Hp & r & Ha & Hm)]];
        rewrite Hm.
      + split.
        * intros [= <-]. exists [], m, modules. split; [reflexivity |].
          split; [constructor | now left].
        * intros (before & m' & after & Heq & Hbefore & Hbad).
          destruct before as [|b before]; cbn in Heq; injection Heq as <- _.
          -- destruct Hbad as [[_ ->] | [Hne _]]; [reflexivity | contradiction].
          -- apply Forall_cons in Hbefore as [[Hne _] _]. contradiction.
      + split.
        * intros [= <-]. exists [], m, modules. split; [reflexivity |].
          split; [constructor | right; eauto].
        * intros (before & m' & after & Heq & Hbefore & Hbad).
          destruct before as [|b before]; cbn in Heq; injection Heq as <- _.
          -- destruct Hbad as [[He _] | (_ & message' & Ha' & ->)];
               [contradiction | congruence].
          -- apply Forall_cons in Hbefore as [[_ [r Hr]] _]. congruence.
      + destruct (analyseModules walker options modules) as [e' | rs].
        * split.
          -- intros [= <-].
             destruct (proj1 IH eq_refl) as (before & m' & after & -> & Hb & Hbad).
             exists (m :: before), m', after. split; [reflexivity |].
             split; [| exact Hbad]. constructor; [eauto | exact Hb].
          -- intros (before & m' & after & Heq & Hbefore & Hbad).
             destruct before as [|b before]; cbn in Heq; injection Heq as <- Heq.
             ++ destruct Hbad as [[He _] | (_ & message' & He & _)];
                  [contradiction | congruence].
             ++ apply Forall_cons in Hbefore as [_ Hbefore].
                apply IH. eauto 6.
        * split; [discriminate |].
          intros (before & m' & after & Heq & Hbefore & Hbad).
          destruct before as [|b before]; cbn in Heq; injection Heq as <- Heq.
          -- destruct Hbad as [[He _] | (_ & message' & He & _)];
               [contradiction | congruence].
          -- apply Forall_cons in Hbefore as [_ Hbefore].
             assert (@inr Error _ rs = inl e) by (apply IH; eauto 6).
             discriminate. }
  rewrite <- H.
  destruct (analyseModules walker options modules) as [e' | rs];
    [split; intros [= <-]; reflexivity |].
  destruct (skipCalculation options); split; discriminate.
Qed.

(** What [modules.map] returns when no callback raises. *)
Lemma analyseModules_inr modules walker options (rs : list ModuleReport) :
  analyseModules walker options modules = inr rs <->
  Forall2 (fun m r => analyseModule walker options m = inr r) modules rs.
Proof.
  revert rs. induction modules as [|m modules IH]; intros rs; cbn [analyseModules].
  - split; [intros [= <-]; constructor | intros H; now inversion H].
  - destruct (analyseModule walker options m) as [e | r] eqn:Hm.
    { split; [discriminate | intros H; inversion H; congruence]. }
    destruct (analyseModules walker options modules) as [e | rs'].
    + split; [discriminate |]. intros H. inversion H as [|? r' ? rs'' Hr Hrs]. subst.
      apply IH in Hrs. discriminate.
    + split.
      * intros [= <-]. constructor; [exact Hm | now apply IH].
      * intros H. inversion H as [|? r' ? rs'' Hr Hrs]. subst.
        apply IH in Hrs. congruence.
Qed.

Lemma analyseModule_inr walker options m (r : ModuleReport) :
  analyseModule walker options m = inr r <->
  input_path m <> EmptyString
  /\ exists r0,
       EsModule.analyse (input_ast m) walker (Some (settings options)) = inr r0
       /\ r = set_path (input_path m) r0.
Proof.
  destruct (analyseModule_cases walker options m)
    as [[Hp ->] | [(Hp & message & Ha & ->) | (Hp & r' & Ha & ->)]].
  - split; [discriminate | intros [Hne _]; contradiction].
  - split; [discriminate | intros (_ & r0 & Hr0 & _); congruence].
  - split.
    + intros [= <-]. eauto.
    + intros (_ & r0 & Hr0 & ->). congruence.
Qed.

Lemma analyseModule_path walker options m (r : ModuleReport) :
  analyseModule walker options m = inr r -> path r = input_path m.
Proof. intros H. now apply analyseModule_inr in H as (_ & r0 & _ & ->). Qed.

Lemma analyseModules_paths modules walker options (rs : list ModuleReport) :
  analyseModules walker options modules = inr rs ->
  path <$> rs = input_path <$> modules.
Proof.
  rewrite analyseModules_inr. induction 1 as [|m r modules rs Hm _ IH].
  - reflexivity.
  - cbn [fmap list_fmap]. f_equal; [now apply analyseModule_path with walker options | exact IH].
Qed.

(** X18: when the project analyser returns, every module had a path
    that is not empty and its module analysis returned; the reports the
    result is made of are the module analyser's reports with [path]
    set, one for each module.  With [skipCalculation] they are returned
    in the order of the modules and nothing else is set; otherwise the
    result is that of [processResults] on them and holds the same
    reports rearranged. *)
Theorem project_analyse_result modules walker options (result : Result) :
  analyse pathlib modules walker options = inr result ->
  exists rs,
    Forall2 (fun m r =>
               input_path m <> EmptyString
               /\ exists r0,
                    EsModule.analyse (input_ast m) walker
                      (Some (settings options)) = inr r0
                    /\ r = set_path (input_path m) r0)
            modules rs
    /\ path <$> rs = input_path <$> modules
    /\ reports result ≡ₚ rs
    /\ (skipCalculation options = true -> result = unprocessed rs)
    /\ (skipCalculation options = false ->
        result = processResults pathlib (unprocessed rs) (noCoreSize options)).
Proof.
  unfold analyse.
  destruct (analyseModules walker options modules) as [e | rs] eqn:Hrs;
    [discriminate |].
  intros Hresult. exists rs.
  split.
  { apply analyseModules_inr in Hrs.
    eapply Forall2_impl; [exact Hrs |].
    intros m r Hm. now apply analyseModule_inr. }
  split; [now apply analyseModules_paths with walker options |].
  destruct (skipCalculation options); injection Hresult as <-.
  - split; [reflexivity |]. split; [reflexivity | discriminate].
  - split; [| split; [discriminate | reflexivity]].
    destruct (processResults_adjacency pathlib (unprocessed rs)
                (noCoreSize options)) as (-> & _).
    apply sort_Permutation.
Qed.

Lemma analyseModules_Permutation modules walker options
    (modules' : list (ModuleInput Node)) :
  modules ≡ₚ modules' ->
  forall rs, analyseModules walker options modules = inr rs ->
  exists rs', analyseModules walker options modules' = inr rs' /\ rs ≡ₚ rs'.
Proof.
  induction 1 as [|m l l' _ IH|m1 m2 l|l1 l2 l3 _ IH1 _ IH2]; intros rs;
    cbn [analyseModules].
  - intros [= <-]. now exists [].
  - destruct (analyseModule walker options m) as [e | r]; [discriminate |].
    destruct (analyseModules walker options l) as [e | rs0]; [discriminate |].
    intros [= <-]. destruct (IH rs0 eq_refl) as (rs' & -> & Hperm).
    exists (r :: rs'). split; [reflexivity | now constructor].
  - destruct (analyseModule walker options m2) as [e | r2]; [discriminate |].
    destruct (analyseModule walker options m1) as [e | r1]; [discriminate |].
    destruct (analyseModules walker options l) as [e | rs0]; [discriminate |].
    intros [= <-]. exists (r1 :: r2 :: rs0). split; [reflexivity | constructor].
  - intros H1. destruct (IH1 rs H1) as (rs2 & H2 & Hp12).
    destruct (IH2 rs2 H2) as (rs3 & H3 & Hp23).
    exists rs3. split; [exact H3 | now rewrite Hp12].
Qed.

(** X19: for modules with pairwise different paths, the result of the
    project analyser with [skipCalculation] false does not depend on the
    order in which the modules are given. *)
Theorem analyse_independent_of_order modules walker options
    (modules' : list (ModuleInput Node)) (result : Result) :
  modules ≡ₚ modules' ->
  NoDup (input_path <$> modules) ->
  skipCalculation options = false ->
  analyse pathlib modules walker options = inr result ->
  analyse pathlib modules' walker options = inr result.
Proof.
  intros Hperm Hnd Hskip. unfold analyse. rewrite Hskip.
  destruct (analyseModules walker options modules) as [e | rs] eqn:Hrs;
    [discriminate |].
  intros [= <-].
  destruct (analyseModules_Permutation _ _ _ _ Hperm rs Hrs) as (rs' & -> & Hp).
  f_equal. unfold processResults, createAdjacencyMatrix.
  cbn [reports unprocessed visibilityMatrix changeCost coreSize
       result_cyclomatic result_effort result_loc result_maintainability
       result_params].
  fold (sortedReports pathlib rs). fold (sortedReports pathlib rs').
  rewrite (sortedReports_Permutation pathlib rs rs' Hp); [reflexivity |].
  now rewrite (analyseModules_paths _ _ _ _ Hrs).
Qed.

End ProjectAnalyse.

Section Averages.

Import EsModule EsProject.

Variable pathlib : PathModule.

Lemma processResults_average (result : Result) (noCoreSize : bool) get field :
  (get, field) ∈ averageKeys ->
  field (processResults pathlib result noCoreSize)
  = Some (div (fold_left (fun sum report => add sum (key_of get report))
                 (sortedReports pathlib (reports result)) (Num 0))
              (ofZ (if (length (sortedReports pathlib (reports result)) =? 0)%nat
                    then 1
                    else Z.of_nat (length (sortedReports pathlib (reports result)))))).
Proof.
  intros Hkey. unfold processResults.
  assert (Hrep : reports (if negb noCoreSize
                          then setCoreSize (createVisibilityMatrix
                                              (createAdjacencyMatrix pathlib result))
                          else createAdjacencyMatrix pathlib result)
                 = sortedReports pathlib (reports result)).
  { destruct noCoreSize; cbn [negb]; [reflexivity |].
    now destruct (setCoreSize_fields (createVisibilityMatrix
                    (createAdjacencyMatrix pathlib result))) as (-> & _). }
  unfold averageKeys in Hkey.
  repeat (apply elem_of_cons in Hkey as [[= -> ->] | Hkey];
          [unfold calculateAverages;
           cbn [result_cyclomatic result_effort result_loc
                result_maintainability result_params];
           now rewrite Hrep |]).
  now apply elem_of_nil in Hkey.
Qed.

Lemma realSum_Permutation get (l k : list ModuleReport) :
  l ≡ₚ k -> realSum get l = realSum get k.
Proof.
  induction 1 as [|x l k _ IH|x y l|l1 l2 l3 _ IH1 _ IH2]; cbn [realSum fold_right].
  - reflexivity.
  - fold (realSum get l). fold (realSum get k). now rewrite IH.
  - lra.
  - congruence.
Qed.

Lemma fold_add_real get (l : list ModuleReport) (s : R) :
  Forall (fun m => exists x, get m = Some (Num x)) l ->
  fold_left (fun sum report => add sum (key_of get report)) l (Num s)
  = Num (s + realSum get l).
Proof.
  intros Hl. revert s. induction Hl as [|m l [x Hx] _ IH]; intros s;
    cbn [fold_left realSum fold_right].
  - f_equal. lra.
  - fold (realSum get l). unfold key_of at 2. rewrite Hx.
    cbn [default from_option Datatypes.id]. unfold Datatypes.id.
    rewrite add_Num, IH. cbn [realValue]. f_equal. lra.
Qed.

Lemma fold_add_NaN get (l : list ModuleReport) :
  fold_left (fun sum report => add sum (key_of get report)) l NaN = NaN.
Proof. induction l as [|m l IH]; [reflexivity | exact IH]. Qed.

Lemma fold_add_undefined get (l : list ModuleReport) (a : number) :
  Exists (fun m => get m = None) l ->
  fold_left (fun sum report => add sum (key_of get report)) l a = NaN.
Proof.
  intros Hl. revert a. induction Hl as [m l Hm | m l _ IH]; intros a;
    cbn [fold_left].
  - unfold key_of at 2. rewrite Hm. cbn [default from_option].
    replace (add a NaN) with NaN by (now destruct a).
    apply fold_add_NaN.
  - apply IH.
Qed.

(** X20: each of the five project averages (cyclomatic, effort, loc,
    maintainability, params) is the arithmetic mean of that field over
    the reports when every report holds a real number there, whatever
    the order of the reports; it is [NaN] as soon as one report lacks
    the field, and 0 when there are no reports. *)
Theorem averages_are_means (result : Result) (noCoreSize : bool) get field :
  (get, field) ∈ averageKeys ->
  let r := processResults pathlib result noCoreSize in
  (reports result <> [] ->
   Forall (fun m => exists x, get m = Some (Num x)) (reports result) ->
   field r = Some (Num (realSum get (reports result)
                        / INR (length (reports result)))))
  /\ (Exists (fun m => get m = None) (reports result) -> field r = Some NaN)
  /\ (reports result = [] -> field r = Some (Num 0)).
Proof.
  intros Hkey. cbv zeta. rewrite (processResults_average _ _ _ _ Hkey).
  set (l := sortedReports pathlib (reports result)).
  assert (Hperm : l ≡ₚ reports result) by apply sort_Permutation.
  split; [| split].
  - intros Hne Hall. rewrite <- Hperm in Hall.
    rewrite (fold_add_real get l 0 Hall), (realSum_Permutation get _ _ Hperm).
    rewrite (Permutation_length Hperm).
    destruct (reports result) as [|m ms] eqn:Hr; [contradiction |].
    cbn [length Nat.eqb]. unfold ofZ.
    rewrite <- INR_IZR_INZ.
    rewrite div_Num by (apply not_0_INR; discriminate).
    do 2 f_equal. lra.
  - intros Hex. rewrite <- Hperm in Hex.
    now rewrite (fold_add_undefined get l (Num 0) Hex).
  - intros Hnil. subst l. rewrite Hnil. cbn [sortedReports sort foldr fold_left length Nat.eqb].
    unfold ofZ. rewrite div_Num by lra. do 2 f_equal. lra.
Qed.

End Averages.

Section CoreSize.

Import EsModule EsProject.

Lemma sum_row_acc (row : list Z) (a : Z) :
  fold_left (fun sum value => (sum + value)%Z) row a = (a + sum_row row)%Z.
Proof.
  unfold sum_row. revert a. induction row as [|v row IH]; intros a; cbn [fold_left].
  - lia.
  - rewrite IH, (IH (0 + v)%Z). lia.
Qed.

Lemma sum_row_cons (v : Z) (row : list Z) :
  sum_row (v :: row) = (v + sum_row row)%Z.
Proof. unfold sum_row at 1. cbn [fold_left]. rewrite sum_row_acc. lia. Qed.

(** The writes of the first row store the row. *)
Lemma store_row (row pre suf : list Z) :
  length suf = length row ->
  fold_left
    (fun fanOut '(valueIndex, value) => <[valueIndex := value]> fanOut)
    (zip (seq (length pre) (length row)) row) (pre ++ suf)
  = pre ++ row.
Proof.
  revert pre suf. induction row as [|v row IH]; intros pre [|s suf] Hlen;
    try discriminate; cbn [length seq zip zip_with fold_left].
  - reflexivity.
  - rewrite insert_app_r_alt by lia. rewrite Nat.sub_diag. cbn [insert list_insert].
    replace (pre ++ v :: suf) with ((pre ++ [v]) ++ suf) by (now rewrite <- app_assoc).
    replace (S (length pre)) with (length (pre ++ [v]))
      by (rewrite length_app; cbn; lia).
    rewrite IH by (cbn in Hlen; lia). now rewrite <- app_assoc.
Qed.

(** The writes of a later row add the row. *)
Lemma add_row (row pre suf : list Z) :
  length suf = length row ->
  fold_left
    (fun fanOut '(valueIndex, value) =>
       alter (fun s => (s + value)%Z) valueIndex fanOut)
    (zip (seq (length pre) (length row)) row) (pre ++ suf)
  = pre ++ zip_with Z.add suf row.
Proof.
  revert pre suf. induction row as [|v row IH]; intros pre [|s suf] Hlen;
    try discriminate; cbn [length seq zip zip_with fold_left].
  - reflexivity.
  - rewrite alter_app_r_alt by lia. rewrite Nat.sub_diag. cbn [alter list_alter].
    replace (pre ++ (s + v)%Z :: suf) with ((pre ++ [(s + v)%Z]) ++ suf)
      by (now rewrite <- app_assoc).
    replace (S (length pre)) with (length (pre ++ [(s + v)%Z]))
      by (rewrite length_app; cbn; lia).
    rewrite IH by (cbn in Hlen; lia). now rewrite <- app_assoc.
Qed.

Lemma add_rows (n k : nat) (rows : list (list Z)) (acc : list Z) :
  Forall (fun row => length row = n) rows -> length acc = n ->
  fold_left
    (fun fanOut '(rowIndex, row) =>
       fold_left
         (fun fanOut '(valueIndex, value) =>
            if (rowIndex =? 0)%nat then <[valueIndex := value]> fanOut
            else alter (fun s => (s + value)%Z) valueIndex fanOut)
         (indexed row) fanOut)
    (zip (seq (S k) (length rows)) rows) acc
  = fold_left (zip_with Z.add) rows acc.
Proof.
  intros Hrows. revert k acc.
  induction Hrows as [|row rows Hrow _ IH]; intros k acc Hacc;
    cbn [length seq zip zip_with fold_left].
  - reflexivity.
  - cbn [Nat.eqb]. unfold indexed in *.
    pose proof (add_row row [] acc ltac:(congruence)) as H.
    cbn [length app] in H. rewrite H.
    apply IH. rewrite length_zip_with. lia.
Qed.

Lemma accumulate_fanOut_rows (n : nat) (m : list (list Z)) :
  square n m ->
  accumulate_fanOut m
  = match m with
    | [] => []
    | row :: rows => fold_left (zip_with Z.add) rows row
    end.
Proof.
  intros [Hlen Hrows]. unfold accumulate_fanOut, indexed.
  destruct m as [|row rows]; [reflexivity |].
  apply Forall_cons in Hrows as [Hrow Hrows].
  cbn [length seq zip zip_with fold_left Nat.eqb].
  pose proof (store_row row [] (replicate (S (length rows)) 0%Z)
                ltac:(rewrite length_replicate; cbn [length] in Hlen; lia)) as H.
  cbn [length app] in H. rewrite H.
  now apply add_rows with n.
Qed.

Lemma lookup_add_rows (rows : list (list Z)) (acc : list Z) (n j : nat) :
  Forall (fun row => length row = n) rows -> length acc = n -> (j < n)%nat ->
  fold_left (zip_with Z.add) rows acc !! j
  = Some (default 0%Z (acc !! j)
          + sum_row ((fun row => default 0%Z (row !! j)) <$> rows))%Z.
Proof.
  intros Hrows. revert acc.
  induction Hrows as [|row rows Hrow _ IH]; intros acc Hacc Hj;
    cbn [fold_left fmap list_fmap].
  - destruct (lookup_lt_is_Some_2 acc j) as [a ->]; [lia |].
    cbn. f_equal. unfold sum_row. cbn. lia.
  - rewrite IH by (rewrite ?length_zip_with; lia).
    rewrite sum_row_cons, lookup_zip_with.
    destruct (lookup_lt_is_Some_2 acc j) as [a ->]; [lia |].
    destruct (lookup_lt_is_Some_2 row j) as [v ->]; [lia |].
    cbn. f_equal. lia.
Qed.

Lemma length_add_rows (rows : list (list Z)) (acc : list Z) (n : nat) :
  Forall (fun row => length row = n) rows -> length acc = n ->
  length (fold_left (zip_with Z.add) rows acc) = n.
Proof.
  intros Hrows. revert acc.
  induction Hrows as [|row rows Hrow _ IH]; intros acc Hacc; cbn [fold_left].
  - exact Hacc.
  - apply IH. rewrite length_zip_with. lia.
Qed.

(** The array [fanOut] holds the column sums. *)
Lemma accumulate_fanOut_columns (n : nat) (m : list (list Z)) :
  square n m -> accumulate_fanOut m = colSum m <$> seq 0 n.
Proof.
  intros Hsq. rewrite (accumulate_fanOut_rows n m Hsq).
  destruct Hsq as [Hlen Hrows]. destruct m as [|row rows].
  - cbn in Hlen. now subst n.
  - apply Forall_cons in Hrows as [Hrow Hrows].
    apply list_eq. intros j. rewrite list_lookup_fmap.
    destruct (decide (j < n)%nat) as [Hj | Hj].
    + rewrite (lookup_add_rows rows row n j Hrows Hrow Hj).
      rewrite lookup_seq_lt by exact Hj. cbn [fmap option_fmap option_map Nat.add].
      f_equal. unfold colSum. cbn [fmap list_fmap]. now rewrite sum_row_cons.
    + rewrite lookup_ge_None_2
        by (rewrite (length_add_rows rows row n Hrows Hrow); lia).
      rewrite lookup_seq_ge by lia. reflexivity.
Qed.

Lemma fmap_rowSum (n : nat) (m : list (list Z)) :
  length m = n -> sum_row <$> m = rowSum m <$> seq 0 n.
Proof.
  intros Hlen. apply list_eq. intros i. rewrite !list_lookup_fmap.
  destruct (decide (i < n)%nat) as [Hi | Hi].
  - rewrite lookup_seq_lt by exact Hi. cbn. unfold rowSum.
    destruct (lookup_lt_is_Some_2 m i) as [row ->]; [lia |]. reflexivity.
  - rewrite lookup_ge_None_2 by lia. rewrite lookup_seq_ge by lia. reflexivity.
Qed.

Lemma countIf_ext {T} (p q : T -> bool) (l : list T) :
  (forall x, x ∈ l -> p x = q x) -> countIf p l = countIf q l.
Proof.
  induction l as [|x l IH]; intros H; [reflexivity |].
  rewrite !countIf_cons, IH, (H x).
  - reflexivity.
  - apply elem_of_cons. now left.
  - intros y Hy. apply H. apply elem_of_cons. now right.
Qed.

(** X21: when [firstOrderDensity] is not 0, [setCoreSize] sets
    [coreSize] to the percentage of indices at which both the row sum
    of the visibility matrix reaches the median of the row sums and the
    column sum reaches the median of the column sums: the array
    [fanOut], stored from the first row and added to from the others,
    holds the column sums. *)
Theorem coreSize_counts_core_modules (result : Result) (V : list (list Z))
    (n : nat) (density : number) :
  visibilityMatrix result = Some V -> square n V ->
  firstOrderDensity result = Some density -> eqb density (Num 0) = false ->
  coreSize (setCoreSize result)
  = Some (percentify
            (countIf
               (fun i =>
                  geb (ofZ (rowSum V i)) (getMedian (rowSum V <$> seq 0 n))
                  && geb (ofZ (colSum V i)) (getMedian (colSum V <$> seq 0 n)))
               (seq 0 n))
            (Z.of_nat n)).
Proof.
  intros HV Hsq Hd Hnz. unfold setCoreSize. rewrite Hd. cbn [from_option].
  rewrite Hnz, HV. cbn [coreSize with_coreSize default from_option].
  unfold Datatypes.id.
  rewrite (accumulate_fanOut_columns n V Hsq).
  rewrite (fmap_rowSum n V (proj1 Hsq)), (proj1 Hsq).
  rewrite fold_left_count. cbn [Z.add]. do 2 f_equal.
  apply countIf_ext. intros i Hi. apply elem_of_seq in Hi.
  rewrite !list_lookup_fmap, lookup_seq_lt by lia. reflexivity.
Qed.

End CoreSize.

Section Idempotence.

Import EsModule EsProject.

Variable pathlib : PathModule.

Lemma sortedReports_sorted (l : list ModuleReport) :
  Sorted (pathOrder pathlib) l -> sortedReports pathlib l = l.
Proof.
  unfold sortedReports, sort.
  induction 1 as [|x l _ IH Hhd]; cbn [foldr]; [reflexivity |].
  rewrite IH. destruct Hhd as [|y l Hxy]; cbn [sort_insert]; [reflexivity |].
  unfold pathOrder in Hxy. now rewrite (proj2 (Z.leb_le _ _) Hxy).
Qed.

Lemma sortedReports_idempotent (l : list ModuleReport) :
  sortedReports pathlib (sortedReports pathlib l) = sortedReports pathlib l.
Proof. apply sortedReports_sorted, Sorted_sortedReports. Qed.

Lemma Result_ext (a b : Result) :
  reports a = reports b -> adjacencyMatrix a = adjacencyMatrix b ->
  firstOrderDensity a = firstOrderDensity b ->
  visibilityMatrix a = visibilityMatrix b -> changeCost a = changeCost b ->
  coreSize a = coreSize b ->
  (forall get field, (get, field) ∈ averageKeys -> field a = field b) ->
  a = b.
Proof.
  intros H1 H2 H3 H4 H5 H6 H.
  assert (Hc := H report_cyclomatic result_cyclomatic).
  assert (He := H report_effort result_effort).
  assert (Hl := H report_loc result_loc).
  assert (Hm := H maintainability result_maintainability).
  assert (Hp := H report_params result_params).
  unfold averageKeys in *.
  destruct a, b. cbn in *. subst.
  rewrite Hc, He, Hl, Hm, Hp; [reflexivity | | | | |];
    repeat first [apply list_elem_of_here | apply list_elem_of_further].
Qed.

Lemma setCoreSize_coreSize (a b : Result) :
  firstOrderDensity a = firstOrderDensity b ->
  visibilityMatrix a = visibilityMatrix b ->
  coreSize (setCoreSize a) = coreSize (setCoreSize b).
Proof.
  intros Hd Hv. unfold setCoreSize. rewrite Hd, Hv.
  now destruct (from_option _ _ _).
Qed.

Lemma processResults_coreSize (result : Result) :
  coreSize (processResults pathlib result false)
  = coreSize (setCoreSize
                (createVisibilityMatrix (createAdjacencyMatrix pathlib result))).
Proof. reflexivity. Qed.

(** X22: [processResults] is idempotent: run on its own result, with
    the same [noCoreSize], it returns that result unchanged. *)
Theorem processResults_idempotent (result : Result) (noCoreSize : bool) :
  processResults pathlib (processResults pathlib result noCoreSize) noCoreSize
  = processResults pathlib result noCoreSize.
Proof.
  set (r := processResults pathlib result noCoreSize).
  destruct (processResults_adjacency pathlib result noCoreSize)
    as (Hrep & HA & Hd). fold r in Hrep, HA, Hd.
  destruct (processResults_adjacency pathlib r noCoreSize)
    as (Hrep' & HA' & Hd').
  assert (Hs : sortedReports pathlib (reports r)
               = sortedReports pathlib (reports result))
    by (rewrite Hrep; apply sortedReports_idempotent).
  rewrite Hs in Hrep', HA', Hd'.
  apply Result_ext.
  - congruence.
  - congruence.
  - congruence.
  - destruct noCoreSize.
    + reflexivity.
    + destruct (processResults_visibility pathlib result) as (HV & _).
      destruct (processResults_visibility pathlib r) as (HV' & _).
      fold r in HV. rewrite Hs in HV'. congruence.
  - destruct noCoreSize.
    + reflexivity.
    + destruct (processResults_visibility pathlib result) as (_ & HC).
      destruct (processResults_visibility pathlib r) as (_ & HC').
      fold r in HC. rewrite Hs in HC'. congruence.
  - destruct noCoreSize.
    + reflexivity.
    + rewrite processResults_coreSize. subst r.
      rewrite (processResults_coreSize result).
      apply setCoreSize_coreSize.
      * cbn [createVisibilityMatrix with_visibility firstOrderDensity
             createAdjacencyMatrix reports].
        fold (sortedReports pathlib (reports (processResults pathlib result false))).
        fold (sortedReports pathlib (reports result)).
        now rewrite Hs.
      * unfold createVisibilityMatrix.
        cbn [with_visibility visibilityMatrix createAdjacencyMatrix
             adjacencyMatrix reports].
        fold (sortedReports pathlib (reports (processResults pathlib result false))).
        fold (sortedReports pathlib (reports result)).
        now rewrite Hs.
  - intros get field Hkey.
    rewrite (processResults_average pathlib r noCoreSize get field Hkey).
    subst r.
    rewrite (processResults_average pathlib result noCoreSize get field Hkey).
    now rewrite Hs.
Qed.

End Idempotence.

Section Median.

Import EsModule EsProject.

Lemma compareNumbers_le (a b : Z) : (compareNumbers a b <=? 0)%Z = (a <=? b)%Z.
Proof.
  unfold compareNumbers.
  destruct (Z.ltb_spec a b), (Z.ltb_spec b a), (Z.leb_spec a b);
    cbn; try reflexivity; lia.
Qed.

Lemma Sorted_insert_number (x : Z) (l : list Z) :
  Sorted Z.le l -> Sorted Z.le (sort_insert compareNumbers x l).
Proof.
  induction 1 as [|y l Hl IH Hhd]; cbn [sort_insert].
  - repeat constructor.
  - rewrite compareNumbers_le. destruct (Z.leb_spec x y) as [Hle | Hgt].
    + constructor; [now constructor | now constructor].
    + constructor; [exact IH |].
      destruct l as [|z l]; cbn [sort_insert].
      * constructor. lia.
      * rewrite compareNumbers_le.
        destruct (Z.leb_spec x z); constructor; [lia | now inversion Hhd].
Qed.

Lemma Sorted_sort_numbers (l : list Z) : Sorted Z.le (sort compareNumbers l).
Proof.
  unfold sort. induction l as [|x l IH]; cbn [foldr]; [constructor |].
  now apply Sorted_insert_number.
Qed.

Lemma countIf_app {T} (p : T -> bool) (l k : list T) :
  countIf p (l ++ k) = (countIf p l + countIf p k)%Z.
Proof.
  induction l as [|x l IH]; cbn [app].
  - unfold countIf at 2. cbn. lia.
  - rewrite !countIf_cons, IH. lia.
Qed.

Lemma countIf_Permutation {T} (p : T -> bool) (l k : list T) :
  l ≡ₚ k -> countIf p l = countIf p k.
Proof.
  induction 1 as [|x l k _ IH|x y l|l1 l2 l3 _ IH1 _ IH2];
    rewrite ?countIf_cons; try lia; reflexivity.
Qed.

Lemma countIf_all {T} (p : T -> bool) (l : list T) :
  Forall (fun x => p x = true) l -> countIf p l = Z.of_nat (length l).
Proof.
  induction 1 as [|x l Hx _ IH]; [reflexivity |].
  rewrite countIf_cons, Hx, IH. cbn [length]. lia.
Qed.

(** In a sorted list, the elements from index [k] on are at least the
    element at [k], and those up to [k] are at most it. *)
Lemma sorted_split (s : list Z) (k : nat) (a : Z) :
  StronglySorted Z.le s -> s !! k = Some a ->
  Forall (fun v => (v <= a)%Z) (take (S k) s)
  /\ Forall (fun v => (a <= v)%Z) (drop k s).
Proof.
  intros Hs. revert k. induction Hs as [|x s Hs IH Hx]; intros k Hk.
  - discriminate.
  - destruct k as [|k]; cbn in Hk.
    + injection Hk as <-. cbn [take drop]. split.
      * rewrite take_0. constructor; [lia | constructor].
      * constructor; [lia | exact Hx].
    + destruct (IH k Hk) as [Htake Hdrop]. cbn [take drop].
      split; [| exact Hdrop]. constructor; [| exact Htake].
      rewrite Forall_forall in Hx. apply Hx.
      eapply list_elem_of_lookup_2. exact Hk.
Qed.

Lemma sorted_counts (s : list Z) (k : nat) (a : Z) (p q : Z -> bool) :
  StronglySorted Z.le s -> s !! k = Some a ->
  (forall v, (a <= v)%Z -> p v = true) ->
  (forall v, (v <= a)%Z -> q v = true) ->
  (Z.of_nat (length s) - Z.of_nat k <= countIf p s)%Z
  /\ (Z.of_nat k + 1 <= countIf q s)%Z.
Proof.
  intros Hs Hk Hp Hq. destruct (sorted_split s k a Hs Hk) as [Htake Hdrop].
  pose proof (lookup_lt_Some _ _ _ Hk) as Hlt.
  split.
  - rewrite <- (take_drop k s) at 2. rewrite countIf_app.
    rewrite (countIf_all p (drop k s))
      by (eapply Forall_impl; [exact Hdrop | exact Hp]).
    rewrite length_drop. pose proof (countIf_range p (take k s)). lia.
  - rewrite <- (take_drop (S k) s). rewrite countIf_app.
    rewrite (countIf_all q (take (S k) s))
      by (eapply Forall_impl; [exact Htake | exact Hq]).
    rewrite length_take. pose proof (countIf_range q (drop (S k) s)). lia.
Qed.

Lemma geb_Num (x y : R) : geb (Num x) (Num y) = true <-> (y <= x)%R.
Proof.
  unfold geb, gtb, ltb, eqb.
  destruct (Rlt_dec y x), (Req_dec_T x y); cbn; split; intros; try lra;
    try reflexivity; discriminate.
Qed.

Lemma value_at_lookup (values : list Z) (k : nat) (a : Z) :
  values !! k = Some a -> value_at values (Z.of_nat k) = ofZ a.
Proof.
  intros H. unfold value_at.
  destruct (Z.ltb_spec (Z.of_nat k) 0) as [Hneg | _]; [lia |].
  now rewrite Nat2Z.id, H.
Qed.

(** X23: [getMedian] returns a median: for values that are not empty
    the result is a real number, at least half of the values are
    greater than or equal to it and at least half are less than or
    equal to it; the result does not depend on the order of the values;
    for no values it is [NaN]. *)
Theorem getMedian_is_a_median (values : list Z) :
  (values <> [] ->
   exists x,
     getMedian values = Num x
     /\ (Z.of_nat (length values)
         <= 2 * countIf (fun v => geb (ofZ v) (getMedian values)) values)%Z
     /\ (Z.of_nat (length values)
         <= 2 * countIf (fun v => geb (getMedian values) (ofZ v)) values)%Z)
  /\ (forall values', values ≡ₚ values' -> getMedian values' = getMedian values)
  /\ getMedian [] = NaN.
Proof.
  split; [| split].
  - intros Hne. unfold getMedian. cbv zeta.
    set (s := sort compareNumbers values).
    assert (Hperm : s ≡ₚ values) by apply sort_Permutation.
    assert (Hs : StronglySorted Z.le s).
    { apply Sorted_StronglySorted; [intros a b c; lia | apply Sorted_sort_numbers]. }
    assert (Hpos : (0 < length s)%nat).
    { rewrite Hperm. destruct values; [contradiction | cbn; lia]. }
    rewrite <- !(countIf_Permutation _ _ _ Hperm), <- (Permutation_length Hperm).
    clearbody s. clear Hperm Hne values.
    set (n := length s) in *.
    destruct (Z.eqb_spec (Z.of_nat n mod 2) 1) as [Hodd | Heven].
    + assert (Hk : ((Z.of_nat n - 1) / 2 = Z.of_nat ((n - 1) / 2))%Z).
      { rewrite Nat2Z.inj_div, Nat2Z.inj_sub by lia. reflexivity. }
      rewrite Hk.
      assert (Hlt : ((n - 1) / 2 < n)%nat).
      { apply Nat.Div0.div_lt_upper_bound. lia. }
      destruct (lookup_lt_is_Some_2 s _ Hlt) as [a Ha].
      rewrite (value_at_lookup s _ a Ha).
      exists (IZR a). split; [reflexivity |].
      destruct (sorted_counts s _ a
                  (fun v => geb (ofZ v) (ofZ a)) (fun v => geb (ofZ a) (ofZ v))
                  Hs Ha) as [H1 H2].
      * intros v Hv. apply geb_Num. now apply IZR_le.
      * intros v Hv. apply geb_Num. now apply IZR_le.
      * fold n in H1. rewrite <- Hk in H1, H2.
        assert (Hdiv : (Z.of_nat n - 1 = 2 * ((Z.of_nat n - 1) / 2))%Z)
          by (clear - Hodd; Z.to_euclidean_division_equations; lia).
        lia.
    + assert (Hmod : (Z.of_nat n mod 2 = 0)%Z).
      { pose proof (Z.mod_pos_bound (Z.of_nat n) 2 ltac:(lia)). lia. }
      assert (Hn : (Z.of_nat n = 2 * (Z.of_nat n / 2))%Z).
      { pose proof (Z.div_mod (Z.of_nat n) 2 ltac:(lia)). lia. }
      assert (Hhalf : (1 <= Z.of_nat n / 2)%Z) by lia.
      assert (Hk2 : (Z.of_nat n / 2 = Z.of_nat (n / 2))%Z)
        by (now rewrite Nat2Z.inj_div).
      assert (Hk1 : ((Z.of_nat n - 2) / 2 = Z.of_nat (n / 2 - 1))%Z).
      { assert (Hge : (1 <= n / 2)%nat) by lia.
        rewrite Nat2Z.inj_sub by exact Hge. rewrite <- Hk2.
        clear. Z.to_euclidean_division_equations. lia. }
      rewrite Hk1, Hk2.
      assert (Hlt2 : (n / 2 < n)%nat) by lia.
      assert (Hlt1 : (n / 2 - 1 < n)%nat) by lia.
      destruct (lookup_lt_is_Some_2 s _ Hlt1) as [a Ha].
      destruct (lookup_lt_is_Some_2 s _ Hlt2) as [b Hb].
      rewrite (value_at_lookup s _ a Ha), (value_at_lookup s _ b Hb).
      change (ofZ a) with (Num (IZR a)). change (ofZ b) with (Num (IZR b)).
      rewrite add_Num, div_Num by lra.
      assert (Hab : (a <= b)%Z).
      { destruct (sorted_split s _ a Hs Ha) as [_ Hdrop].
        rewrite Forall_forall in Hdrop. apply Hdrop.
        apply (list_elem_of_lookup_2 _ 1).
        rewrite lookup_drop. rewrite <- Hb. f_equal. lia. }
      apply IZR_le in Hab.
      eexists. split; [reflexivity |].
      destruct (sorted_counts s _ b
                  (fun v => geb (ofZ v) (Num ((IZR a + IZR b) / 2)))
                  (fun _ => true) Hs Hb) as [H1 _].
      { intros v Hv. apply geb_Num. apply IZR_le in Hv. lra. }
      { reflexivity. }
      destruct (sorted_counts s _ a
                  (fun _ => true)
                  (fun v => geb (Num ((IZR a + IZR b) / 2)) (ofZ v))
                  Hs Ha) as [_ H2].
      { reflexivity. }
      { intros v Hv. apply geb_Num. apply IZR_le in Hv. lra. }
      fold n in H1. rewrite <- Hk2 in H1. rewrite <- Hk1 in H2.
      clear - H1 H2 Hn Hhalf. Z.to_euclidean_division_equations. lia.
  - intros values' Hperm. unfold getMedian. cbv zeta.
    assert (Heq : sort compareNumbers values' = sort compareNumbers values).
    { apply (Sorted_unique Z.le);
        first [ apply Sorted_sort_numbers
              | now rewrite !sort_Permutation
              | apply _ ]. }
    now rewrite Heq.
  - unfold getMedian. cbn. reflexivity.
Qed.

End Median.

Section VisibilityAndAdjacency.

Import EsModule EsProject.

Variable pathlib : PathModule.

Lemma countIf_ones_le (l k : list Z) :
  length l = length k ->
  (forall j, l !! j = Some 1%Z -> k !! j = Some 1%Z) ->
  (countIf (fun v => (v =? 1)%Z) l <= countIf (fun v => (v =? 1)%Z) k)%Z.
Proof.
  revert k. induction l as [|x l IH]; intros [|y k] Hlen H;
    [apply Z.le_refl | discriminate | discriminate |].
  - rewrite !countIf_cons.
    assert (Htail : (countIf (fun v => (v =? 1)%Z) l
                     <= countIf (fun v => (v =? 1)%Z) k)%Z).
    { apply IH; [cbn in Hlen; lia |]. intros j. apply (H (S j)). }
    destruct (Z.eqb_spec x 1) as [-> | Hx].
    + specialize (H 0%nat eq_refl). injection H as ->. cbn. lia.
    + destruct (y =? 1)%Z; lia.
Qed.

Lemma countCells_ones_le (n : nat) (A V : list (list Z)) :
  square n A -> square n V ->
  (forall i j, cell A i j = Some 1%Z -> cell V i j = Some 1%Z) ->
  (countCells (fun v => (v =? 1)%Z) A <= countCells (fun v => (v =? 1)%Z) V)%Z.
Proof.
  intros [HlenA HrowsA] [HlenV HrowsV]. revert HlenA HlenV.
  generalize n at 1 2. intros k HlenA HlenV. revert V k HrowsV HlenA HlenV.
  induction HrowsA as [|rA A HrA _ IH]; intros [|rV V] k HrowsV HlenA HlenV H;
    cbn [length] in *; try lia.
  apply Forall_cons in HrowsV as [HrV HrowsV].
  cbn [countCells fold_right].
    fold (countCells (fun v => (v =? 1)%Z) A).
    fold (countCells (fun v => (v =? 1)%Z) V).
    assert (Hrow : (countIf (fun v => (v =? 1)%Z) rA
                    <= countIf (fun v => (v =? 1)%Z) rV)%Z).
    { apply countIf_ones_le; [lia |]. intros j. apply (H 0%nat j). }
    assert (Hrest : (countCells (fun v => (v =? 1)%Z) A
                     <= countCells (fun v => (v =? 1)%Z) V)%Z).
    { apply (IH V (Nat.pred k)); [exact HrowsV | lia | lia |].
      intros i j. apply (H (S i) j). }
    lia.
Qed.

(** X25: the visibility matrix contains the adjacency matrix and is
    transitive off the diagonal: a direct dependency is visible, and
    when [j] is visible from [i] and [k] from [j], with [i] and [k]
    different, [k] is visible from [i]; the diagonal holds no 1.  So the
    count that [changeCost] is the percentage of is at least the count
    of [firstOrderDensity] plus the number of reports, both out of the
    same number of cells, and [firstOrderDensity] is at most
    [changeCost]. *)
Theorem visibility_contains_adjacency (result : Result) :
  let r := processResults pathlib result false in
  let N := Z.of_nat (length (reports result)) in
  exists A V,
    adjacencyMatrix r = Some A /\ visibilityMatrix r = Some V
    /\ (forall i j, cell A i j = Some 1%Z -> cell V i j = Some 1%Z)
    /\ (forall i j k,
          cell V i j = Some 1%Z -> cell V j k = Some 1%Z -> i <> k ->
          cell V i k = Some 1%Z)
    /\ (forall i, cell V i i <> Some 1%Z)
    /\ (exists edges visible : Z,
          firstOrderDensity r = Some (percentify edges (N * N))
          /\ changeCost r = Some (percentify visible (N * N))
          /\ (0 <= edges)%Z /\ (edges + N <= visible <= N * N)%Z)
    /\ (exists density cost,
          firstOrderDensity r = Some (Num density)
          /\ changeCost r = Some (Num cost)
          /\ (density <= cost)%R).
Proof.
  cbv zeta.
  destruct (processResults_adjacency pathlib result false) as (_ & -> & ->).
  destruct (processResults_visibility pathlib result) as (-> & ->).
  set (l := sortedReports pathlib (reports result)).
  set (A := adjacencyOf pathlib l).
  set (D := floydWarshall (adjacencyToDistMatrix A)).
  assert (HA : square (length l) A) by apply square_adjacencyOf.
  assert (Hbin : binary A) by apply binary_adjacencyOf.
  assert (HV : square (length l) (distToVisibility D))
    by (apply square_imap; now apply floydWarshall_square).
  assert (Hclosure : forall i j,
             cell (distToVisibility D) i j = Some 1%Z
             <-> (i < length l)%nat /\ (j < length l)%nat
                 /\ i <> j /\ reachable A i j).
  { intros i j. split.
    - intros H. destruct (cell_in_square _ _ _ _ _ HV H) as [Hi Hj].
      split; [exact Hi |]. split; [exact Hj |].
      now apply (visibility_closure A (length l) HA Hbin i j Hi Hj).
    - intros (Hi & Hj & Hne & Hreach).
      apply (visibility_closure A (length l) HA Hbin i j Hi Hj). auto. }
  assert (Hsub : forall i j, cell A i j = Some 1%Z ->
                             cell (distToVisibility D) i j = Some 1%Z).
  { intros i j H. destruct (cell_in_square _ _ _ _ _ HA H) as [Hi Hj].
    apply Hclosure. split; [exact Hi |]. split; [exact Hj |].
    split; [| now apply reachable_edge].
    intros ->. unfold A in H. rewrite cell_adjacencyOf in H by assumption.
    unfold getAdjacencyMatrixValue in H. rewrite Nat.eqb_refl in H. discriminate. }
  assert (Hlen : length l = length (reports result))
    by apply length_sortedReports.
  pose proof (count_finite_visibility A (length l) HA Hbin) as Hcount.
  cbv zeta in Hcount. fold D in Hcount.
  pose proof (countCells_ones_le (length l) A (distToVisibility D) HA HV Hsub)
    as Hle.
  rewrite <- !count_ones_countCells in Hle.
  assert (Hedges : (0 <= count_ones A)%Z).
  { rewrite count_ones_countCells.
    apply (countCells_range (fun v => (v =? 1)%Z) (length l) A (proj2 HA)). }
  assert (Hfinite : (count_finite D
                     <= Z.of_nat (length l) * Z.of_nat (length l))%Z).
  { rewrite count_finite_countCells.
    destruct (floydWarshall_square A (length l) HA) as [HlenD HrowsD].
    fold D in HlenD, HrowsD.
    pose proof (countCells_range is_finite _ _ HrowsD) as H.
    rewrite HlenD in H. lia. }
  exists A, (distToVisibility D).
  split; [reflexivity |]. split; [reflexivity |]. split; [exact Hsub |].
  split; [| split; [| split]].
  - intros i j k Hij Hjk Hne.
    apply Hclosure in Hij as (Hi & _ & _ & Hij).
    apply Hclosure in Hjk as (_ & Hk & _ & Hjk).
    apply Hclosure. split; [exact Hi |]. split; [exact Hk |].
    split; [exact Hne |]. now apply reachable_trans with j.
  - intros i H. apply Hclosure in H as (_ & _ & Hne & _). now apply Hne.
  - exists (count_ones A), (count_finite D).
    unfold percentifyDensity. rewrite (proj1 HA), (proj1 HV), <- Hlen.
    split; [reflexivity |]. split; [reflexivity |].
    split; [exact Hedges |]. lia.
  - unfold percentifyDensity. rewrite (proj1 HA), (proj1 HV).
    unfold percentify.
    destruct (Z.eqb_spec (Z.of_nat (length l) * Z.of_nat (length l)) 0)
      as [H0 | Hne].
    + exists 0%R, 0%R. split; [reflexivity |]. split; [reflexivity | lra].
    + unfold ofZ. rewrite !div_Num by (now apply not_0_IZR). rewrite !mul_Num.
      eexists _, _. split; [reflexivity |]. split; [reflexivity |].
      assert (Hinv : (0 < / IZR (Z.of_nat (length l) * Z.of_nat (length l)))%R).
      { apply Rinv_0_lt_compat. apply IZR_lt. nia. }
      assert (Hav : (IZR (count_ones A) <= IZR (count_finite D))%R)
        by (apply IZR_le; lia).
      unfold Rdiv.
      pose proof (Rmult_le_compat_r _ _ _ (Rlt_le _ _ Hinv) Hav).
      lra.
Qed.

End VisibilityAndAdjacency.

(* ================================================================== *)
(** * Instances of the further properties *)
(* ================================================================== *)

Section FurtherExamples.

Import EsModule EsProject.

Lemma oneFunctionWalk_nonnegative : Forall nonnegative oneFunctionWalk.
Proof. repeat constructor; cbn; lia. Defined.

Lemma mixedWalk_nonnegative : Forall nonnegative mixedWalk.
Proof. repeat constructor; cbn; lia. Defined.

Lemma calculateMetrics_returns_after_walk_witness :
  exists r c l e,
    calculateMetrics defaultSettings
      (report (walk oneFunctionWalk (initial emptyAst))) = inr r
    /\ report_cyclomatic r = Some (Num c) /\ (1 <= c)%R
    /\ report_loc r = Some (Num l) /\ (0 <= l)%R
    /\ report_effort r = Some (Num e) /\ (0 <= e)%R.
Proof.
  apply (calculateMetrics_returns_after_walk emptyAst oneFunctionWalk
           defaultSettings).
  exact oneFunctionWalk_nonnegative.
Defined.

Lemma halstead_metrics_finite_witness :
  exists r,
    EsModule.analyse emptyAst (fun _ _ => mixedWalk) (Some defaultSettings) = inr r
    /\ finiteMetrics (halstead (aggregate r))
    /\ Forall (fun f => finiteMetrics (halstead f)) (functions r).
Proof.
  destruct (calculateMetrics_counted emptyAst mixedWalk defaultSettings
              mixedWalk_nonnegative) as [r Hr].
  pose proof (analyse_calculateMetrics emptyAst (fun _ _ => mixedWalk)
                defaultSettings) as Heq.
  cbv beta in Heq. rewrite <- Heq in Hr.
  exists r. split; [exact Hr |].
  exact (halstead_metrics_finite emptyAst (fun _ _ => mixedWalk)
           (Some defaultSettings) r Hr).
Defined.

Lemma density_of_empty_function_witness :
  exists r,
    EsModule.analyse emptyAst oneFunctionWalker (Some defaultSettings) = inr r
    /\ Forall (fun f =>
                 cyclomaticDensity f
                 = Some (densityOf (cyclomatic f) (logical (sloc f))))
              (aggregate r :: functions r).
Proof.
  destruct (calculateMetrics_counted emptyAst oneFunctionWalk defaultSettings
              oneFunctionWalk_nonnegative) as [r Hr].
  pose proof (analyse_calculateMetrics emptyAst oneFunctionWalker
                defaultSettings) as Heq.
  unfold oneFunctionWalker at 2 in Heq. rewrite <- Heq in Hr.
  exists r. split; [exact Hr |].
  exact (density_of_empty_function emptyAst oneFunctionWalker
           (Some defaultSettings) r oneFunctionWalk_nonnegative Hr).
Defined.

Lemma two_paths_differ : NoDup (path <$> [moduleA; moduleB]).
Proof.
  apply NoDup_cons. split; [| apply NoDup_singleton].
  intros H. apply list_elem_of_singleton in H. discriminate H.
Defined.

Lemma result_independent_of_order_witness :
  processResults posixRoot (unprocessed [moduleA; moduleB]) false
  = processResults posixRoot (unprocessed [moduleB; moduleA]) false.
Proof.
  apply (result_independent_of_order posixRoot [moduleA; moduleB]
           [moduleB; moduleA] false).
  - apply Permutation_swap.
  - exact two_paths_differ.
Defined.

Lemma adjacency_cells_witness :
  let r := processResults posixRoot (unprocessed chain3) false in
  exists A from to,
    adjacencyMatrix r = Some A
    /\ square (length (reports r)) A
    /\ reports r !! 0%nat = Some from /\ reports r !! 1%nat = Some to
    /\ (cell A 0 1 = Some 1%Z
        <-> 0%nat <> 1%nat
            /\ exists d, d ∈ dependencies from
                         /\ checkDependency posixRoot (path from) d (path to) = true)
    /\ (cell A 0 1 = Some 1%Z \/ cell A 0 1 = Some 0%Z)
    /\ cell A 0 0 = Some 0%Z.
Proof.
  assert (Hlen : length (reports (processResults posixRoot (unprocessed chain3) false))
                 = 3%nat).
  { destruct (processResults_adjacency posixRoot (unprocessed chain3) false)
      as (-> & _).
    reflexivity. }
  apply (adjacency_cells posixRoot (unprocessed chain3) false 0 1);
    rewrite Hlen; lia.
Defined.

Lemma independentModules_unrelated (i j : nat) (from to : ModuleReport) :
  i <> j ->
  independentModules !! i = Some from -> independentModules !! j = Some to ->
  doesDependencyExist posixRoot from to = false.
Proof.
  intros Hne Hi Hj. unfold independentModules in Hi, Hj.
  destruct i as [|[|i]], j as [|[|j]]; cbn in Hi, Hj;
    try discriminate; try (now contradiction Hne).
  - injection Hi as <-. injection Hj as <-. vm_compute. reflexivity.
  - injection Hi as <-. injection Hj as <-. vm_compute. reflexivity.
Defined.

(** The first of the two modules does resolve to itself. *)
Example self_dependency :
  exists m, independentModules !! 0%nat = Some m
            /\ doesDependencyExist posixRoot m m = true.
Proof. eexists. split; [reflexivity | vm_compute; reflexivity]. Qed.

Lemma project_without_dependencies_witness :
  let r := processResults posixRoot (unprocessed independentModules) false in
  adjacencyMatrix r = Some [[0; 0]; [0; 0]]%Z
  /\ firstOrderDensity r = Some (Num 0)
  /\ visibilityMatrix r = Some [[0; 0]; [0; 0]]%Z
  /\ changeCost r = Some (percentify 2 4)
  /\ coreSize r = Some (Num 0).
Proof.
  exact (project_without_dependencies posixRoot (unprocessed independentModules)
           independentModules_unrelated).
Defined.

(** The two sources are analysed without an error. *)
Lemma sources_analysed (options : Options) :
  exists rs,
    analyseModules oneFunctionWalker options [sourceA; sourceB] = inr rs.
Proof.
  destruct (calculateMetrics_counted emptyAst oneFunctionWalk (settings options)
              oneFunctionWalk_nonnegative) as [r Hr].
  exists [set_path "a.js" r; set_path "b.js" r].
  cbn [analyseModules]. unfold analyseModule. cbn [sourceA sourceB input_path
    input_ast String.length Nat.eqb].
  rewrite analyse_calculateMetrics. unfold oneFunctionWalker.
  rewrite Hr. reflexivity.
Defined.

Lemma project_analyse_result_witness :
  exists result rs,
    analyse posixRoot [sourceA; sourceB] oneFunctionWalker (allOptions true false)
    = inr result
    /\ path <$> rs = ["a.js"; "b.js"]
    /\ result = unprocessed rs.
Proof.
  destruct (sources_analysed (allOptions true false)) as [rs0 Hrs].
  assert (H : analyse posixRoot [sourceA; sourceB] oneFunctionWalker
                (allOptions true false)
              = inr (unprocessed rs0)).
  { unfold analyse. rewrite Hrs. reflexivity. }
  destruct (project_analyse_result posixRoot [sourceA; sourceB] oneFunctionWalker
              (allOptions true false) (unprocessed rs0) H)
    as (rs & _ & Hpaths & _ & Hskip & _).
  exists (unprocessed rs0), rs.
  split; [exact H |]. split; [exact Hpaths |]. apply Hskip. reflexivity.
Defined.

Lemma two_sources_differ : NoDup (input_path <$> [sourceA; sourceB]).
Proof.
  apply NoDup_cons. split; [| apply NoDup_singleton].
  intros H. apply list_elem_of_singleton in H. discriminate H.
Defined.

Lemma analyse_independent_of_order_witness :
  exists result,
    analyse posixRoot [sourceA; sourceB] oneFunctionWalker (allOptions false false)
    = inr result
    /\ analyse posixRoot [sourceB; sourceA] oneFunctionWalker (allOptions false false)
       = inr result.
Proof.
  destruct (sources_analysed (allOptions false false)) as [rs Hrs].
  assert (H : analyse posixRoot [sourceA; sourceB] oneFunctionWalker
                (allOptions false false)
              = inr (processResults posixRoot (unprocessed rs) false)).
  { unfold analyse. rewrite Hrs. reflexivity. }
  eexists. split; [exact H |].
  apply (analyse_independent_of_order posixRoot [sourceA; sourceB]
           oneFunctionWalker (allOptions false false) [sourceB; sourceA]).
  - apply Permutation_swap.
  - exact two_sources_differ.
  - reflexivity.
  - exact H.
Defined.

Lemma averages_are_means_witness :
  let r := processResults posixRoot (unprocessed chain3) false in
  (reports (unprocessed chain3) <> [] ->
   Forall (fun m => exists x, report_cyclomatic m = Some (Num x))
          (reports (unprocessed chain3)) ->
   result_cyclomatic r
   = Some (Num (realSum report_cyclomatic (reports (unprocessed chain3))
                / INR (length (reports (unprocessed chain3))))))
  /\ (Exists (fun m => report_cyclomatic m = None) (reports (unprocessed chain3)) ->
      result_cyclomatic r = Some NaN)
  /\ (reports (unprocessed chain3) = [] -> result_cyclomatic r = Some (Num 0)).
Proof.
  apply (averages_are_means posixRoot (unprocessed chain3) false
           report_cyclomatic result_cyclomatic).
  apply list_elem_of_here.
Defined.

Lemma coreSize_counts_core_modules_witness :
  exists c, coreSize (setCoreSize oneEdgeResult) = Some c.
Proof.
  eexists.
  apply (coreSize_counts_core_modules oneEdgeResult [[0; 1]; [0; 0]]%Z 2 (Num 25)).
  - reflexivity.
  - split; [reflexivity | repeat constructor].
  - reflexivity.
  - apply eqb_Num_false. lra.
Defined.

Lemma module_values_are_function_averages_witness :
  exists r,
    EsModule.analyse emptyAst oneFunctionWalker (Some defaultSettings) = inr r
    /\ (functions r <> [] ->
        report_loc r
        = Some (Num (IZR (sumOver (fun f => logical (sloc f)) (functions r))
                     / IZR (Z.of_nat (length (functions r)))))).
Proof.
  destruct (calculateMetrics_counted emptyAst oneFunctionWalk defaultSettings
              oneFunctionWalk_nonnegative) as [r Hr].
  pose proof (analyse_calculateMetrics emptyAst oneFunctionWalker
                defaultSettings) as Heq.
  unfold oneFunctionWalker at 2 in Heq. rewrite <- Heq in Hr.
  exists r. split; [exact Hr |]. intros Hne.
  destruct (module_values_are_function_averages emptyAst oneFunctionWalker
              (Some defaultSettings) r Hr) as [Hmeans _].
  exact (proj1 (Hmeans Hne)).
Defined.

End FurtherExamples.
